(** * PRISE_WAS_PRO2: price calculator, price-list document builder,
      material import, AI fallback and collection ordering

    A shallow embedding of the TypeScript sources
    - [src/hooks/useSystemData.ts] (second document: [calculateProductPrice]),
    - [src/lib/pdf/wasserPdfGenerator.ts] and the jsPDF loader,
    - the materials page ([parseCsvToMaterials], [importCsv]),
    - [src/services/ai.ts],
    - [src/pages/Collections.tsx],
    followed by the properties of section 8 of the specification.

    JavaScript numbers are IEEE-754 binary64 values.  The arithmetic code is
    written once, over the interface [JsArith], and read at two instances:
    [float], the kernel's binary64, which is the arithmetic the code runs
    on (rounding, overflow to an infinity, NaN and the two zeros included;
    its operations are specified by [SpecFloat]), and [number], exact
    rationals plus NaN, which says what the same expressions mean when
    nothing rounds.  Properties of the prices and totals are proved on
    [float]; the exact reading is given beside them where it says more. *)

From stdpp Require Import base list strings gmap.
From Stdlib Require Import Ascii ZArith QArith Qround Lqa Floats.

Set Default Proof Using "Type".
Local Open Scope string_scope.
Local Open Scope list_scope.

(** ** JavaScript numbers *)

Module JsNum.

(** The operations the sources use on values of type [number]. *)
Class JsArith (N : Type) := {
  lit : Z -> N;            (* an integer literal *)
  nadd : N -> N -> N;      (* a + b *)
  nsub : N -> N -> N;      (* a - b *)
  nmul : N -> N -> N;      (* a * b *)
  ndiv : N -> N -> N;      (* a / b *)
  truthy : N -> bool;      (* ToBoolean: false on 0, -0 and NaN *)
  gtb : N -> N -> bool     (* a > b *)
}.

(** [a || b] on numbers. *)
Definition orElse {N} `{JsArith N} (a b : N) : N := if truthy a then a else b.

(** [x?.f || d] where [x] may be [undefined]. *)
Definition optOr {N A} `{JsArith N} (x : option A) (f : A -> N) (d : N) : N :=
  match x with
  | Some a => orElse (f a) d
  | None => d
  end.

(** Exact model: a finite number is a rational; [NaN] is kept because the
    sources guard against it with [|| 0].  There are no infinities and no
    rounding in this model. *)
Inductive number : Type :=
  | Num (q : Q)
  | NaN.

Definition lift2 (f : Q -> Q -> Q) (a b : number) : number :=
  match a, b with
  | Num x, Num y => Num (f x y)
  | _, _ => NaN
  end.

(** Division by zero yields an infinity or NaN in JavaScript; the exact
    model has no infinity and answers [NaN].  The embedded functions divide
    by the literal 100 and by a base price tested to be positive only. *)
Definition exact_div (a b : number) : number :=
  match a, b with
  | Num x, Num y => if Qeq_bool y 0 then NaN else Num (x / y)
  | _, _ => NaN
  end.

Definition exact_truthy (a : number) : bool :=
  match a with
  | Num x => negb (Qeq_bool x 0)
  | NaN => false
  end.

Definition exact_gtb (a b : number) : bool :=
  match a, b with
  | Num x, Num y => if Qlt_le_dec y x then true else false
  | _, _ => false
  end.

#[export] Instance exact_arith : JsArith number := {|
  lit z := Num (inject_Z z);
  nadd := lift2 Qplus;
  nsub := lift2 Qminus;
  nmul := lift2 Qmult;
  ndiv := exact_div;
  truthy := exact_truthy;
  gtb := exact_gtb
|}.

(** Binary64 model: the kernel's primitive floats.  [lit] is meant for
    literals below 2^53 in absolute value, which convert exactly. *)
Definition float_lit (z : Z) : float :=
  if (z <? 0)%Z then PrimFloat.opp (PrimFloat.of_uint63 (Uint63.of_Z (- z)))
  else PrimFloat.of_uint63 (Uint63.of_Z z).

Definition float_truthy (x : float) : bool :=
  negb (PrimFloat.eqb x PrimFloat.zero || PrimFloat.is_nan x).

#[export] Instance binary64_arith : JsArith float := {|
  lit := float_lit;
  nadd := PrimFloat.add;
  nsub := PrimFloat.sub;
  nmul := PrimFloat.mul;
  ndiv := PrimFloat.div;
  truthy := float_truthy;
  gtb a b := PrimFloat.ltb b a
|}.

(** Equality and order of exact numbers, up to the representation of the
    rational. *)
Definition num_eq (a b : number) : Prop :=
  match a, b with
  | Num x, Num y => x == y
  | NaN, NaN => True
  | _, _ => False
  end.

Definition num_le (a b : number) : Prop :=
  match a, b with
  | Num x, Num y => x <= y
  | _, _ => False
  end.

(** The rational denoted by [a || 0]. *)
Definition valueOrZero (a : number) : Q :=
  match a with
  | Num x => x
  | NaN => 0
  end.

Definition is_finite (a : number) : Prop :=
  match a with
  | Num _ => True
  | NaN => False
  end.

End JsNum.

Export JsNum.

Declare Scope js_scope.
Delimit Scope js_scope with js.
Infix "+." := nadd (at level 50, left associativity) : js_scope.
Infix "-." := nsub (at level 50, left associativity) : js_scope.
Infix "*." := nmul (at level 40, left associativity) : js_scope.
Infix "/." := ndiv (at level 40, left associativity) : js_scope.
Infix "||." := orElse (at level 57, left associativity) : js_scope.

(** ** Rounding to nearest even, on the specification of binary64

    The kernel's floats are specified by [SpecFloat]: [Prim2SF] reads a
    double as a sign, a mantissa and an exponent, and every operation is
    the exact operation followed by [binary_round_aux].  The definitions
    below name what that rounding computes. *)

Module Rounding.

(** [m / d] rounded to the nearest integer, ties to even. *)
Definition rneD (m d : Z) : Z :=
  let q := (m / d)%Z in
  match (2 * (m mod d) ?= d)%Z with
  | Lt => q
  | Eq => if Z.even q then q else (q + 1)%Z
  | Gt => (q + 1)%Z
  end.

(** The state of the right shift after [k] steps on [m]. *)
Definition shr_state (m k : Z) : shr_record :=
  {| shr_m := (m / 2 ^ k)%Z;
     shr_r := (2 ^ k <=? 2 * (m mod 2 ^ k))%Z;
     shr_s := negb ((2 * (m mod 2 ^ k)) mod 2 ^ k =? 0)%Z |}.

Definition finite_or_inf (prec emax : Z) (s : bool) (m e : Z) : spec_float :=
  if (e <=? emax - prec)%Z then S754_finite s (Z.to_pos m) e else S754_infinity s.

(** What [binary_round_aux] returns for the positive value [m * 2^e] when
    [e] is at or below the exponent [fexp] assigns to its magnitude. *)
Definition rounded (prec emax : Z) (s : bool) (m e : Z) : spec_float :=
  let E := fexp prec emax (Zdigits2 m + e) in
  let m2 := rneD m (2 ^ (E - e)) in
  if (m2 =? 0)%Z then S754_zero s
  else if (m2 =? 2 ^ prec)%Z then finite_or_inf prec emax s (2 ^ (prec - 1)) (E + 1)
  else finite_or_inf prec emax s m2 E.

(** The value of a finite float in units of [2^emin]; zero for the others. *)
Definition sval (emin : Z) (x : spec_float) : Z :=
  match x with
  | S754_finite s m e => cond_Zopp s (Zpos m * 2 ^ (e - emin))
  | _ => 0%Z
  end.

(** The float nearest to [v * 2^t]. *)
Definition round_at (prec emax t v : Z) : spec_float :=
  match v with
  | Z0 => S754_zero false
  | Zpos p => rounded prec emax false (Zpos p) t
  | Zneg p => rounded prec emax true (Zpos p) t
  end.

Definition SFzero (x : spec_float) : bool :=
  match x with
  | S754_zero _ => true
  | _ => false
  end.

Definition SFnan (x : spec_float) : bool :=
  match x with
  | S754_nan => true
  | _ => false
  end.

Definition SFfinite (x : spec_float) : bool :=
  match x with
  | S754_zero _ | S754_finite _ _ _ => true
  | _ => false
  end.

(** Equal as numbers: the same float, or two zeros. *)
Definition SFsame (a b : spec_float) : Prop :=
  a = b \/ (SFzero a = true /\ SFzero b = true).

(** [a <= b], or one of them is NaN. *)
Definition SFle_or_nan (a b : spec_float) : Prop :=
  SFnan a = true \/ SFnan b = true \/ SFleb a b = true.


End Rounding.

(** ** Order of doubles *)

Module Binary64.
Import Rounding.

(** [a <= b] on doubles, or one of them is NaN. *)
Definition le_or_nan (a b : float) : Prop := SFle_or_nan (Prim2SF a) (Prim2SF b).

(** Not negative (zero of either sign included), or NaN. *)
Definition nonneg_or_nan (a : float) : Prop := SFle_or_nan (S754_zero false) (Prim2SF a).

End Binary64.

(** ** The price calculator ([calculateProductPrice]) *)

Module Pricing.
Local Open Scope js_scope.

Section Calculator.
Context {N : Type} `{JsArith N}.

Record Material := {
  mat_id : string;
  mat_name : string;
  mat_article : string;
  mat_unit : string;
  mat_price : N
}.

Record TechCardItem := {
  materialId : string;
  quantity : N
}.

(** [product.tech_card] as found at run time: an array, an object whose
    values are the lines (older stored data), or anything else. *)
Inductive TechCardRaw :=
  | TcArray (items : list TechCardItem)
  | TcObject (entries : list (string * TechCardItem))
  | TcOther.

Record Product := {
  id : string;
  name : string;
  article : string;
  tech_card : TechCardRaw;
  collection_id : option string;
  product_type_id : option string;
  finish_type_id : option string
}.

Record PriceRule := {
  rule_id : string;
  rule_name : string;
  markup : N;
  workCost : N
}.

Record PriceSettings := {
  productTypes : list PriceRule;
  finishTypes : list PriceRule
}.

Record PriceResult := {
  materialCost : N;
  res_workCost : N;
  basePrice : N;
  finalPrice : N;
  res_markup : N
}.

(** [s === x] for [x : string | null | undefined]. *)
Definition idMatches (s : string) (x : option string) : bool :=
  match x with
  | Some t => String.eqb s t
  | None => false
  end.

(** Normalisation of the tech card to an array. *)
Definition techCardArr (product : Product) : list TechCardItem :=
  match tech_card product with
  | TcArray items => items
  | TcObject entries => map snd entries
  | TcOther => []
  end.

(** One step of the [reduce] that sums the material cost. *)
Definition lineStep (materials : list Material) (sum : N) (it : TechCardItem) : N :=
  let mat := find (fun m => String.eqb (mat_id m) (materialId it)) materials in
  sum +. (quantity it ||. lit 0) *. optOr mat mat_price (lit 0).

Definition sumMaterialCost (materials : list Material) (arr : list TechCardItem) : N :=
  fold_left (lineStep materials) arr (lit 0).

Definition findProductType (product : Product) (priceSettings : PriceSettings) : option PriceRule :=
  find (fun p => idMatches (rule_id p) (product_type_id product)) (productTypes priceSettings).

Definition findFinishType (product : Product) (priceSettings : PriceSettings) : option PriceRule :=
  find (fun f => idMatches (rule_id f) (finish_type_id product)) (finishTypes priceSettings).

(** [basePrice * (1 + (pt?.markup || 0) / 100)] *)
Definition applyMarkup (price : N) (rule : option PriceRule) : N :=
  price *. (lit 1 +. optOr rule markup (lit 0) /. lit 100).

(** The local [priceWithType] of [calculateProductPrice], for a non-empty
    tech card. *)
Definition priceWithType (product : Product) (materials : list Material)
    (priceSettings : PriceSettings) : N :=
  let pt := findProductType product priceSettings in
  applyMarkup (sumMaterialCost materials (techCardArr product) +. optOr pt workCost (lit 0)) pt.

Definition calculateProductPrice (product : Product) (materials : list Material)
    (priceSettings : PriceSettings) : PriceResult :=
  let arr := techCardArr product in
  if (length arr =? 0)%nat then
    {| materialCost := lit 0; res_workCost := lit 0; basePrice := lit 0;
       finalPrice := lit 0; res_markup := lit 0 |}
  else
    let materialCost := sumMaterialCost materials arr in
    let pt := findProductType product priceSettings in
    let workCost := optOr pt workCost (lit 0) in
    let basePrice := materialCost +. workCost in
    let priceWithType := applyMarkup basePrice pt in
    let ft := findFinishType product priceSettings in
    let finalPrice := applyMarkup priceWithType ft in
    let markup :=
      if gtb basePrice (lit 0)
      then (finalPrice -. basePrice) /. basePrice *. lit 100
      else lit 0 in
    {| materialCost := materialCost; res_workCost := workCost; basePrice := basePrice;
       finalPrice := finalPrice; res_markup := markup |}.

(** The example of the specification: one board at 850, labour 1000,
    type markup 10 %, finish markup 50 %. *)
Definition chainMaterials : list Material :=
  [ {| mat_id := "m1"; mat_name := "Board"; mat_article := "LDSP-18-W";
       mat_unit := "m2"; mat_price := lit 850 |} ].

Definition chainSettings : PriceSettings :=
  {| productTypes := [ {| rule_id := "pt"; rule_name := "Cabinet";
                          markup := lit 10; workCost := lit 1000 |} ];
     finishTypes := [ {| rule_id := "ft"; rule_name := "Gloss";
                         markup := lit 50; workCost := lit 0 |} ] |}.

Definition chainProduct : Product :=
  {| id := "p1"; name := "Cabinet 600"; article := "TB-600";
     tech_card := TcArray [ {| materialId := "m1"; quantity := lit 1 |} ];
     collection_id := None;
     product_type_id := Some "pt";
     finish_type_id := Some "ft" |}.

(** The example with two boards instead of one. *)
Definition chainProductTwoBoards : Product :=
  {| id := "p1"; name := "Cabinet 600"; article := "TB-600";
     tech_card := TcArray [ {| materialId := "m1"; quantity := lit 2 |} ];
     collection_id := None;
     product_type_id := Some "pt";
     finish_type_id := Some "ft" |}.

(** The example with a second line whose material was deleted. *)
Definition danglingLine : TechCardItem := {| materialId := "gone"; quantity := lit 5 |}.

Definition chainProductDangling : Product :=
  {| id := "p1"; name := "Cabinet 600"; article := "TB-600";
     tech_card := TcArray [ {| materialId := "m1"; quantity := lit 1 |}; danglingLine ];
     collection_id := None;
     product_type_id := Some "pt";
     finish_type_id := Some "ft" |}.

Definition chainProductDanglingZero : Product :=
  {| id := "p1"; name := "Cabinet 600"; article := "TB-600";
     tech_card := TcArray [ {| materialId := "m1"; quantity := lit 1 |};
                            {| materialId := "gone"; quantity := lit 0 |} ];
     collection_id := None;
     product_type_id := Some "pt";
     finish_type_id := Some "ft" |}.

(** The same product with nothing on its tech card. *)
Definition emptyCardProduct : Product :=
  {| id := "p0"; name := "Cabinet 600"; article := "TB-600";
     tech_card := TcArray [];
     collection_id := None;
     product_type_id := Some "pt";
     finish_type_id := Some "ft" |}.

End Calculator.

Arguments Material : clear implicits.
Arguments TechCardItem : clear implicits.
Arguments TechCardRaw : clear implicits.
Arguments Product : clear implicits.
Arguments PriceRule : clear implicits.
Arguments PriceSettings : clear implicits.
Arguments PriceResult : clear implicits.

End Pricing.

(** ** The calculator read on exact numbers

    The rational values that the expressions of [calculateProductPrice]
    denote when no rounding takes place. *)

Module PricingExact.
Import Pricing.

(** [a] is the finite number [q]. *)
Definition denotes (a : number) (q : Q) : Prop :=
  match a with
  | Num x => x == q
  | NaN => False
  end.

(** The value of [r?.f || 0]. *)
Definition ruleValue (f : PriceRule number -> number) (r : option (PriceRule number)) : Q :=
  match r with
  | Some x => valueOrZero (f x)
  | None => 0
  end.

(** The value of [mat?.price || 0] for the material a line refers to. *)
Definition linePrice (materials : list (Material number)) (it : TechCardItem number) : Q :=
  match find (fun m => String.eqb (mat_id m) (materialId it)) materials with
  | Some m => valueOrZero (mat_price m)
  | None => 0
  end.

(** What one line adds to the material cost. *)
Definition lineValue (materials : list (Material number)) (it : TechCardItem number) : Q :=
  valueOrZero (quantity it) * linePrice materials it.

Definition sumQ (l : list Q) : Q := fold_right Qplus 0 l.

Definition materialCostQ (materials : list (Material number)) (arr : list (TechCardItem number)) : Q :=
  sumQ (map (lineValue materials) arr).

(** [1 + markup / 100] *)
Definition markupFactor (r : option (PriceRule number)) : Q :=
  1 + ruleValue markup r / 100.

Definition basePriceQ (product : Product number) (materials : list (Material number))
    (priceSettings : PriceSettings number) : Q :=
  materialCostQ materials (techCardArr product)
  + ruleValue workCost (findProductType product priceSettings).

Definition finalPriceQ (product : Product number) (materials : list (Material number))
    (priceSettings : PriceSettings number) : Q :=
  basePriceQ product materials priceSettings
  * markupFactor (findProductType product priceSettings)
  * markupFactor (findFinishType product priceSettings).

Definition markupQ (base final : Q) : Q :=
  if Qlt_le_dec 0 base then (final - base) / base * 100 else 0.

(** Two results agree field by field. *)
Definition result_eq (a b : PriceResult number) : Prop :=
  num_eq (materialCost a) (materialCost b) /\
  num_eq (res_workCost a) (res_workCost b) /\
  num_eq (basePrice a) (basePrice b) /\
  num_eq (finalPrice a) (finalPrice b) /\
  num_eq (res_markup a) (res_markup b).

(** Every field of a result is a finite number. *)
Definition result_finite (a : PriceResult number) : Prop :=
  is_finite (materialCost a) /\ is_finite (res_workCost a) /\ is_finite (basePrice a) /\
  is_finite (finalPrice a) /\ is_finite (res_markup a).

(** The result of the example in exact arithmetic. *)
Definition chainExact : PriceResult number :=
  calculateProductPrice chainProduct chainMaterials chainSettings.

(** The result of the example in binary64, as the code computes it. *)
Definition chainBinary64 : PriceResult float :=
  calculateProductPrice chainProduct chainMaterials chainSettings.

End PricingExact.

(** ** The jsPDF loader and the document builder ([WasserPDFGenerator]) *)

Module Pdf.
Local Open Scope js_scope.

(** [s || d] on strings: the empty string is falsy. *)
Definition strOr (s d : string) : string := if String.eqb s "" then d else s.

(** [o || d] where [o] may be [undefined]. *)
Definition optStrOr (o : option string) (d : string) : string :=
  match o with
  | Some s => strOr s d
  | None => d
  end.

(** [hay.includes(needle)] *)
Fixpoint includes (needle hay : string) : bool :=
  String.prefix needle hay ||
  match hay with
  | EmptyString => false
  | String _ rest => includes needle rest
  end.

(** *** The browser as the loader sees it *)

(** A jsPDF constructor; [hasAutoTable] tells whether the table plugin is
    attached to its API, so that documents it builds have [doc.autoTable]. *)
Record JsPdfCtor := { hasAutoTable : bool }.

Record Window := {
  jspdf_jsPDF : option JsPdfCtor;      (* window.jspdf?.jsPDF *)
  window_jsPDF : option JsPdfCtor      (* window.jsPDF *)
}.

(** A settled [Promise<void>] of the loader. *)
Inductive Settled :=
| Fulfilled
| RejectedWith (src : string).

Record Browser := {
  window : Window;
  loadingPromise : option Settled;                  (* module variable of the loader *)
  runScript : string -> Window -> option Window;    (* loadScript: None when the load fails,
                                                        else the globals once it has run *)
  fetchOk : string -> bool;                         (* fetch(url) answers and resp.ok *)
  loadedFonts : list string                         (* names of fonts registered so far *)
}.

Definition jsPdfUrl : string := "https://cdn.jsdelivr.net/npm/jspdf@2.5.1/dist/jspdf.umd.min.js".
Definition autoTableUrl : string :=
  "https://cdn.jsdelivr.net/npm/jspdf-autotable@3.8.2/dist/jspdf.plugin.autotable.min.js".

Definition setWindow (b : Browser) (w : Window) (p : option Settled) : Browser :=
  {| window := w; loadingPromise := p; runScript := runScript b; fetchOk := fetchOk b;
     loadedFonts := loadedFonts b |}.

(** [window.jspdf?.jsPDF && window.jspdf?.jsPDF?.API?.autoTable] *)
Definition engineAndPluginPresent (w : Window) : bool :=
  match jspdf_jsPDF w with
  | Some c => hasAutoTable c
  | None => false
  end.

(** [ensureJsPdf]: how the awaited promise settles, and the browser after. *)
Definition ensureJsPdf (b : Browser) : Settled * Browser :=
  if engineAndPluginPresent (window b) then (Fulfilled, b)
  else
    match loadingPromise b with
    | Some settled => (settled, b)
    | None =>
        match runScript b jsPdfUrl (window b) with
        | None => (RejectedWith jsPdfUrl, setWindow b (window b) (Some (RejectedWith jsPdfUrl)))
        | Some w1 =>
            match runScript b autoTableUrl w1 with
            | None => (RejectedWith autoTableUrl, setWindow b w1 (Some (RejectedWith autoTableUrl)))
            | Some w2 => (Fulfilled, setWindow b w2 (Some Fulfilled))
            end
        end
    end.

(** [getJsPdfCtor]: [window.jspdf?.jsPDF || window.jsPDF || null] *)
Definition getJsPdfCtor (w : Window) : option JsPdfCtor :=
  match jspdf_jsPDF w with
  | Some c => Some c
  | None => window_jsPDF w
  end.

(** *** Errors and results *)

Inductive Error :=
| FailedToLoad (src : string)
| EngineUnavailable
| PluginUnavailable.

Definition message (e : Error) : string :=
  match e with
  | FailedToLoad src => ("Failed to load " ++ src)%string
  | EngineUnavailable => "jsPDF не доступен"
  | PluginUnavailable => "jspdf-autotable не подключен"
  end.

Inductive outcome (A : Type) :=
| Returned (a : A)
| Thrown (e : Error).
Arguments Returned {A} a.
Arguments Thrown {A} e.

(** *** Themes *)

Inductive PdfTemplate := modern | nordic | executive.

Record Theme := {
  key : PdfTemplate;
  fontUrl : string;
  fontName : string
}.

Definition THEMES (t : PdfTemplate) : Theme :=
  match t with
  | modern =>
      {| key := modern;
         fontUrl := "https://raw.githubusercontent.com/google/fonts/main/ofl/spacegrotesk/SpaceGrotesk-Regular.ttf";
         fontName := "SpaceGrotesk" |}
  | nordic =>
      {| key := nordic;
         fontUrl := "https://raw.githubusercontent.com/google/fonts/main/ofl/inter/Inter%5Bwght%5D.ttf";
         fontName := "Inter" |}
  | executive =>
      {| key := executive;
         fontUrl := "https://raw.githubusercontent.com/google/fonts/main/apache/roboto/Roboto-Regular.ttf";
         fontName := "Roboto" |}
  end.

(** [registerFont]: the font set on the document, whether the requested
    font was registered, and the cache of font names afterwards.  A failed
    fetch is caught and the built-in Helvetica is selected. *)
Definition registerFont (b : Browser) (url fontName : string) : string * bool * list string :=
  if existsb (String.eqb fontName) (loadedFonts b) then (fontName, true, loadedFonts b)
  else if fetchOk b url then (fontName, true, loadedFonts b ++ [fontName])
  else ("helvetica", false, loadedFonts b).

(** Example browsers.  Nothing is loaded and the CDN is unreachable. *)
Definition offlineBrowser : Browser :=
  {| window := {| jspdf_jsPDF := None; window_jsPDF := None |};
     loadingPromise := None;
     runScript := fun _ _ => None;
     fetchOk := fun _ => false;
     loadedFonts := [] |}.

(** The scripts load but leave no constructor behind; fonts load. *)
Definition noEngineBrowser : Browser :=
  {| window := {| jspdf_jsPDF := None; window_jsPDF := None |};
     loadingPromise := None;
     runScript := fun _ w => Some w;
     fetchOk := fun _ => true;
     loadedFonts := [] |}.

(** The engine is there, the table plugin never attaches; fonts load. *)
Definition noPluginBrowser : Browser :=
  {| window := {| jspdf_jsPDF := Some {| hasAutoTable := false |}; window_jsPDF := None |};
     loadingPromise := None;
     runScript := fun _ w => Some w;
     fetchOk := fun _ => true;
     loadedFonts := [] |}.

(** Engine and plugin are in place; every fetch fails. *)
Definition noFontBrowser : Browser :=
  {| window := {| jspdf_jsPDF := Some {| hasAutoTable := true |}; window_jsPDF := None |};
     loadingPromise := None;
     runScript := fun _ _ => None;
     fetchOk := fun _ => false;
     loadedFonts := [] |}.

Section Builder.
Context {N : Type} `{JsArith N}.

(** [Intl.NumberFormat(locale, ...).format], an external collaborator. *)
Variable intlFormat : N -> string -> string -> string.

Record CompanyData := {
  company_name : string;
  logoUrl : option string
}.

Record DocumentData := {
  title : string;
  currency : option string;
  locale : option string;
  includeCover : option bool;
  showGroupTotals : bool;
  showGrandTotal : bool;
  footerNote : option string
}.

Record SeriesItem := {
  article : string;
  name : string;
  type : option string;
  dimensions : option string;
  material : option string;
  color : option string;
  price : N
}.

Record ProductSeries := {
  series : string;
  seriesDesc : option string;
  items : list SeriesItem
}.

Record GenerateInput := {
  companyData : CompanyData;
  documentData : DocumentData;
  products : list ProductSeries
}.

(** One table handed to [autoTable]. *)
Record Table := {
  heading : string;
  description : option string;
  body : list (list string);
  foot : option (list string)
}.

(** The finished document, as far as its content goes. *)
Record Doc := {
  doc_font : string;
  doc_cover : bool;
  doc_tables : list Table;
  doc_summary : option (list string);
  doc_footerNote : option string
}.

(** [formatCurrency(amount, currency, locale)] formats [amount || 0]. *)
Definition formatCurrency (amount : N) (currency locale : string) : string :=
  intlFormat (amount ||. lit 0) currency locale.

(** The subtotal of a series: [series.items.reduce(...)]. *)
Definition seriesTotal (s : ProductSeries) : N :=
  fold_left (fun sum it => sum +. (price it ||. lit 0)) (items s) (lit 0).

(** The label row under a table or at the end: the label sits left of the
    price column, the amount in the price column (the last of seven). *)
Definition totalRow (label amount : string) : list string :=
  [""; ""; ""; ""; ""; label; amount].

Definition bodyRow (currency locale : string) (it : SeriesItem) : list string :=
  [ article it; name it; optStrOr (type it) ""; optStrOr (dimensions it) "";
    optStrOr (material it) ""; optStrOr (color it) "";
    formatCurrency (price it) currency locale ].

(** The state threaded through [input.products.forEach]. *)
Record LoopState := {
  tables : list Table;
  grandTotal : N
}.

Definition renderSeries (d : DocumentData) (currency locale : string)
    (st : LoopState) (s : ProductSeries) : LoopState :=
  let total := seriesTotal s in
  let footRow :=
    if showGroupTotals d
    then Some (totalRow "Итого серии" (formatCurrency total currency locale))
    else None in
  {| tables := tables st ++
       [ {| heading := strOr (series s) "Серия";
            description := seriesDesc s;
            body := map (bodyRow currency locale) (items s);
            foot := footRow |} ];
     grandTotal := grandTotal st +. total |}.

Definition renderAll (d : DocumentData) (currency locale : string)
    (groups : list ProductSeries) : LoopState :=
  fold_left (renderSeries d currency locale) groups {| tables := []; grandTotal := lit 0 |}.

(** [generateDoc]: the document returned or the error thrown. *)
Definition generateDoc (b : Browser) (input : GenerateInput) (template : PdfTemplate)
    : outcome Doc :=
  let '(settled, b1) := ensureJsPdf b in
  match settled with
  | RejectedWith src => Thrown (FailedToLoad src)
  | Fulfilled =>
      match getJsPdfCtor (window b1) with
      | None => Thrown EngineUnavailable
      | Some ctor =>
          let d := documentData input in
          let base := THEMES template in
          let currency := optStrOr (currency d) "KGS" in
          let locale := optStrOr (locale d) "ru-RU" in
          let '(font, _, _) := registerFont b1 (fontUrl base) (fontName base) in
          let cover :=
            match includeCover d with
            | Some false => false
            | _ => true
            end in
          if negb (hasAutoTable ctor) then Thrown PluginUnavailable
          else
            let st := renderAll d currency locale (products input) in
            let summary :=
              if showGrandTotal d && negb (length (products input) =? 0)%nat
              then Some (totalRow "Итого по всем сериям"
                           (formatCurrency (grandTotal st) currency locale))
              else None in
            Returned
              {| doc_font := font; doc_cover := cover;
                 doc_tables := tables st; doc_summary := summary;
                 doc_footerNote :=
                   match footerNote d with
                   | Some "" => None
                   | other => other
                   end |}
      end
  end.

(** A two-series price list used in the examples. *)
Definition sampleInput : GenerateInput :=
  {| companyData := {| company_name := "WASSER"; logoUrl := None |};
     documentData :=
       {| title := "Price list"; currency := None; locale := None; includeCover := None;
          showGroupTotals := true; showGrandTotal := true; footerNote := None |};
     products :=
       [ {| series := "Nordic"; seriesDesc := None;
            items := [ {| article := "TB-600"; name := "Cabinet 600"; type := None;
                          dimensions := None; material := None; color := None;
                          price := lit 100 |};
                       {| article := "TB-800"; name := "Cabinet 800"; type := None;
                          dimensions := None; material := None; color := None;
                          price := lit 250 |} ] |};
         {| series := "Mirrors"; seriesDesc := None;
            items := [ {| article := "MIR-600"; name := "Mirror 600"; type := None;
                          dimensions := None; material := None; color := None;
                          price := lit 75 |} ] |} ] |}.

End Builder.

Arguments CompanyData : clear implicits.
Arguments DocumentData : clear implicits.
Arguments SeriesItem : clear implicits.
Arguments ProductSeries : clear implicits.
Arguments GenerateInput : clear implicits.

End Pdf.

(** ** The price-list page: grouping of the computed rows ([Home.tsx]) *)

Module HomePage.
Import Pdf.
Local Open Scope js_scope.

Section Groups.
Context {N : Type} `{JsArith N}.

(** A row of [computed]. *)
Record Row := {
  row_id : string;
  row_name : string;
  row_article : string;
  productType : string;
  finishType : string;
  row_basePrice : N;
  row_finalPrice : N;
  collectionId : option string
}.

Inductive GroupBy := none | byProductType | byCollection.

Record Group := {
  group_key : string;
  group_items : list Row
}.

(** [if (!map.has(key)) map.set(key, []); map.get(key).push(row)] on a
    [Map], whose entries keep the order in which the keys were first set. *)
Fixpoint mapPush (m : list (string * list Row)) (k : string) (row : Row)
    : list (string * list Row) :=
  match m with
  | [] => [(k, [row])]
  | (k', rows) :: rest =>
      if String.eqb k' k then (k', rows ++ [row]) :: rest
      else (k', rows) :: mapPush rest k row
  end.

Definition groupWith (keyOf : Row -> string) (computed : list Row) : list Group :=
  map (fun kv => {| group_key := fst kv; group_items := snd kv |})
      (fold_left (fun m row => mapPush m (keyOf row) row) computed []).

(** The [groups] memo. *)
Definition groups (groupBy : GroupBy) (computed : list Row) : list Group :=
  match groupBy with
  | none => [ {| group_key := "Все товары"; group_items := computed |} ]
  | byProductType => groupWith (fun row => strOr (productType row) "Без типа") computed
  | byCollection => groupWith (fun row => optStrOr (collectionId row) "Без коллекции") computed
  end.

(** The subtotal printed under a group (PDF foot and HTML tfoot). *)
Definition groupTotal (g : Group) : N :=
  fold_left (fun sum r => sum +. (row_finalPrice r ||. lit 0)) (group_items g) (lit 0).

(** The grand total of the PDF export: summed over [computed]. *)
Definition pdfGrandTotal (computed : list Row) : N :=
  fold_left (fun sum r => sum +. (row_finalPrice r ||. lit 0)) computed (lit 0).

(** The grand total of the print view: summed group by group. *)
Definition printGrandTotal (gs : list Group) : N :=
  fold_left (fun sum g => sum +. groupTotal g) gs (lit 0).

End Groups.

Arguments Row : clear implicits.
Arguments Group : clear implicits.

End HomePage.

(** ** Totals read on exact numbers *)

Module TotalsExact.
Import Pdf PricingExact.

(** The value a row adds to a total: [Number(it.price) || 0]. *)
Definition priceValue (it : SeriesItem number) : Q := valueOrZero (price it).

Definition rowValue (r : HomePage.Row number) : Q := valueOrZero (HomePage.row_finalPrice r).

(** The sum of a list of numbers, from the left, starting at 0. *)
Definition sumN {N : Type} `{JsArith N} (l : list N) : N := fold_left nadd l (lit 0).

(** All rows of all groups, in order. *)
Definition allItems (groups : list (ProductSeries number)) : list (SeriesItem number) :=
  concat (map items groups).

(** The sum of [finalPrice] over everything stored in the grouping map. *)
Definition mapValue (m : list (string * list (HomePage.Row number))) : Q :=
  sumQ (map (fun kv => sumQ (map rowValue (snd kv))) m).

End TotalsExact.

(** ** Totals of the document builder, row by row *)

Module Totals.
Import Pdf.
Local Open Scope js_scope.

Definition sumZ (l : list Z) : Z := fold_right Z.add 0%Z l.

Section Flat.
Context {N : Type} `{JsArith N}.

(** All rows of all groups, in document order. *)
Definition allRows (groups : list (ProductSeries N)) : list (SeriesItem N) :=
  concat (map items groups).

(** The sum of [Number(price) || 0] over a list of rows, from the left. *)
Definition rowsTotal (rows : list (SeriesItem N)) : N :=
  fold_left (fun sum it => sum +. (price it ||. lit 0)) rows (lit 0).

End Flat.

(** Three prices that do not add up exactly in binary64: 0.1 alone in one
    series, 0.2 and 0.3 in another. *)
Definition tenths (k : Z) : SeriesItem float :=
  {| article := "A"; name := "Item"; type := None; dimensions := None;
     material := None; color := None; price := lit k /. lit 10 |}.

Definition tenthsGroups : list (ProductSeries float) :=
  [ {| series := "One"; seriesDesc := None; items := [ tenths 1 ] |};
    {| series := "Two"; seriesDesc := None; items := [ tenths 2; tenths 3 ] |} ].

(** The prices of the two-series example, as whole numbers. *)
Definition sampleUnits (it : SeriesItem float) : Z :=
  if String.eqb (article it) "TB-600" then 100%Z
  else if String.eqb (article it) "TB-800" then 250%Z
  else 75%Z.

(** The loop state after the two example inputs, without a formatter. *)
Definition tenthsState :=
  renderAll (fun _ _ _ => "") (documentData sampleInput) "KGS" "ru-RU" tenthsGroups.

Definition sampleGroups : list (ProductSeries float) := products sampleInput.

Definition sampleState :=
  renderAll (fun _ _ _ => "") (documentData sampleInput) "KGS" "ru-RU" sampleGroups.

End Totals.

(** ** The materials page: CSV import ([parseCsvToMaterials], [importCsv]) *)

Module Materials.
Import Pdf.
Local Open Scope js_scope.

(** *** String helpers, on the bytes of the text *)

Definition LF : ascii := ascii_of_nat 10.
Definition CR : ascii := ascii_of_nat 13.
Definition quote : ascii := ascii_of_nat 34.
Definition comma : ascii := ascii_of_nat 44.

(** [s.split(sep)] for a one-character separator. *)
Fixpoint splitOn (sep : ascii) (s : string) : list string :=
  match s with
  | EmptyString => [EmptyString]
  | String c rest =>
      if Ascii.eqb c sep then EmptyString :: splitOn sep rest
      else
        match splitOn sep rest with
        | [] => [String c EmptyString]
        | piece :: pieces => String c piece :: pieces
        end
  end.

Fixpoint dropLast (c : ascii) (s : string) : string :=
  match s with
  | EmptyString => EmptyString
  | String a EmptyString => if Ascii.eqb a c then EmptyString else s
  | String a rest => String a (dropLast c rest)
  end.

(** [csv.split(/\r?\n/)]: a carriage return right before a line feed belongs
    to the separator. *)
Definition splitLines (csv : string) : list string :=
  let pieces := splitOn LF csv in
  let n := length pieces in
  imap (fun i piece => if (S i <? n)%nat then dropLast CR piece else piece) pieces.

(** [c.replace(/^"|"$/g, '')]: one quote off the front, then one off the end. *)
Definition stripQuotes (c : string) : string :=
  match c with
  | String a rest => if Ascii.eqb a quote then dropLast quote rest else dropLast quote c
  | EmptyString => EmptyString
  end.

(** Replacement of every doubled quote by a single one, left to right. *)
Fixpoint unescapeQuotes (c : string) : string :=
  match c with
  | String a (String b rest as tl) =>
      if Ascii.eqb a quote && Ascii.eqb b quote
      then String quote (unescapeQuotes rest)
      else String a (unescapeQuotes tl)
  | _ => c
  end.

(** [row.replace(/\uFEFF/g, '')] on UTF-8 text: the mark is EF BB BF. *)
Fixpoint removeBom (row : string) : string :=
  match row with
  | String a (String b (String c rest) as tl) =>
      if Ascii.eqb a (ascii_of_nat 239) && Ascii.eqb b (ascii_of_nat 187)
         && Ascii.eqb c (ascii_of_nat 191)
      then removeBom rest
      else String a (removeBom tl)
  | _ => row
  end.

Section CsvImport.
Context {N : Type} `{JsArith N}.

(** Functions of the JavaScript runtime. *)
Variable trim : string -> string.            (* String.prototype.trim *)
Variable toLowerCase : string -> string.     (* String.prototype.toLowerCase *)
Variable toNumber : string -> N.             (* Number(s) for a string s *)
Variable now : string.                       (* new Date().toISOString() during the import *)
Variable freshId : nat -> string.            (* the identifiers drawn, in order *)

Record Material := {
  id : string;
  name : string;
  article : string;
  unit : string;
  price : N;
  created_at : string;
  updated_at : string
}.

(** [coerceMaterial] on the object [{ name, article, unit, price }] that
    [parseCsvToMaterials] builds; [price] is [Number(x.price ?? 0)] and [n]
    numbers the identifier drawn. *)
Definition coerceMaterial (n : nat) (x_name x_article x_unit : string) (x_price : N)
    : option Material :=
  let name := trim x_name in
  let article := trim x_article in
  if String.eqb name "" then None
  else Some {| id := freshId n; name := name; article := article; unit := x_unit;
               price := x_price; created_at := now; updated_at := now |}.

Definition rowCells (row : string) : list string :=
  map (fun c => trim (unescapeQuotes (stripQuotes c))) (splitOn comma (removeBom row)).

(** The header test: a single cell, on the first line, mentioning [name]. *)
Definition isHeader (i : nat) (cols : list string) : bool :=
  match cols with
  | [cell] => (i =? 0)%nat && includes "name" (toLowerCase cell)
  | _ => false
  end.

(** The loop over the lines: [cols[k] ?? d] reads a cell or its default. *)
Definition parseLines (lines : list string) : list Material :=
  omap (fun o => o)
    (imap (fun i row =>
             let cols := rowCells row in
             if isHeader i cols then None
             else coerceMaterial i
                    (default "" (cols !! 0%nat))
                    (default "" (cols !! 1%nat))
                    (default "шт" (cols !! 2%nat))
                    (match cols !! 3%nat with
                     | Some cell => toNumber cell
                     | None => lit 0
                     end))
          lines).

Definition parseCsvToMaterials (csv : string) : list Material :=
  parseLines (filter (fun l => l <> "") (map trim (splitLines csv))).

(** The key under which a record is matched:
    [String(m.article || '').trim().toLowerCase()]. *)
Definition articleKey (m : Material) : string := toLowerCase (trim (article m)).

(** [new Map(items.map((m) => [key, m]))]: the records are objects shared
    with [items]; the map is modelled by the position of the object, and a
    later record with the same key replaces an earlier one. *)
Fixpoint indexByArticle (items : list Material) (i : nat) (m : gmap string nat)
    : gmap string nat :=
  match items with
  | [] => m
  | x :: rest => indexByArticle rest (S i) (<[articleKey x := i]> m)
  end.

Definition mapByArticle (items : list Material) : gmap string nat :=
  indexByArticle items 0 ∅.

(** The assignment made to a matched record. *)
Definition mergeInto (it existing : Material) : Material :=
  {| id := id existing;
     name := strOr (name it) (name existing);
     article := article existing;
     unit := strOr (unit it) (unit existing);
     price := price it ||. price existing;
     created_at := created_at existing;
     updated_at := now |}.

(** The state of the merge loop: the catalog objects (mutated in place), the
    records prepended so far (latest first), and the two counters. *)
Record MergeState := {
  store : list Material;
  fresh : list Material;
  added : nat;
  updated : nat
}.

Definition mergeStep (index : gmap string nat) (offset : nat) (st : MergeState) (it : Material)
    : MergeState :=
  let key := articleKey it in
  let existing := if String.eqb key "" then None else index !! key in
  match existing with
  | Some i =>
      {| store := alter (mergeInto it) i (store st); fresh := fresh st;
         added := added st; updated := S (updated st) |}
  | None =>
      {| store := store st;
         fresh := {| id := freshId (offset + added st); name := name it; article := article it;
                     unit := unit it; price := price it;
                     created_at := now; updated_at := now |} :: fresh st;
         added := S (added st); updated := updated st |}
  end.

Definition mergeImported (items imported : list Material) : MergeState :=
  fold_left (mergeStep (mapByArticle items) (length imported)) imported
            {| store := items; fresh := []; added := 0; updated := 0 |}.

(** [importCsv]: the catalog after the import.  When no row was parsed the
    catalog stays as it is. *)
Definition importCsv (items : list Material) (text : string) : list Material :=
  let imported := parseCsvToMaterials text in
  if (length imported =? 0)%nat then items
  else
    let st := mergeImported items imported in
    fresh st ++ store st.

(** The records of a catalog bearing a given article key. *)
Definition bearing (k : string) (l : list Material) : list Material :=
  filter (fun m => articleKey m = k) l.

End CsvImport.

Arguments Material : clear implicits.
Arguments MergeState : clear implicits.

(** *** Plain instances of the runtime functions, for ASCII text *)

Definition isSpace (c : ascii) : bool :=
  let n := nat_of_ascii c in
  (n =? 32)%nat || ((9 <=? n)%nat && (n <=? 13)%nat).

Fixpoint trimStart (s : string) : string :=
  match s with
  | String c rest => if isSpace c then trimStart rest else s
  | EmptyString => EmptyString
  end.

Fixpoint trimEnd (s : string) : string :=
  match s with
  | String c rest =>
      match trimEnd rest with
      | EmptyString => if isSpace c then EmptyString else String c EmptyString
      | kept => String c kept
      end
  | EmptyString => EmptyString
  end.

Definition asciiTrim (s : string) : string := trimEnd (trimStart s).

Definition lowerChar (c : ascii) : ascii :=
  let n := nat_of_ascii c in
  if (65 <=? n)%nat && (n <=? 90)%nat then ascii_of_nat (n + 32) else c.

Fixpoint asciiLower (s : string) : string :=
  match s with
  | String c rest => String (lowerChar c) (asciiLower rest)
  | EmptyString => EmptyString
  end.

Fixpoint digitsValue (s : string) (acc : Z) : option Z :=
  match s with
  | EmptyString => Some acc
  | String c rest =>
      let n := nat_of_ascii c in
      if (48 <=? n)%nat && (n <=? 57)%nat
      then digitsValue rest (acc * 10 + Z.of_nat (n - 48))
      else None
  end.

(** [Number(s)] for an unsigned integer numeral, and for the empty string
    (which is 0); anything else is treated as not a number. *)
Definition decimalNumber (s : string) : number :=
  match digitsValue (asciiTrim s) 0 with
  | Some z => Num (inject_Z z)
  | None => NaN
  end.

(** The import with these instances, at a fixed time, with identifiers
    [id0], [id1], ... *)
Definition sampleId (n : nat) : string := ("id" ++ String (ascii_of_nat (48 + n)) "")%string.

Definition sampleImport (items : list (Material number)) (text : string)
    : list (Material number) :=
  importCsv asciiTrim asciiLower decimalNumber "2026-01-01T00:00:00.000Z" sampleId items text.

Definition sampleKey (m : Material number) : string := articleKey asciiTrim asciiLower m.

(** Two rows with the same article in different case. *)
Definition twoRowsCsv : string :=
  ("Board white,LDSP-18-W,m2,10" ++ String LF "Board grey,ldsp-18-w,m,20")%string.

(** The same, the later row carrying the price 0. *)
Definition twoRowsZeroPriceCsv : string :=
  ("Board white,LDSP-18-W,m2,10" ++ String LF "Board grey,ldsp-18-w,m,0")%string.

(** A catalog with one record bearing that article. *)
Definition oneBoardCatalog : list (Material number) :=
  [ {| id := "m1"; name := "Board"; article := "LDSP-18-W"; unit := "m2"; price := Num 7;
       created_at := "2025-01-01T00:00:00.000Z"; updated_at := "2025-01-01T00:00:00.000Z" |} ].

Definition emptyMaterial : Material number :=
  {| id := ""; name := ""; article := ""; unit := ""; price := NaN;
     created_at := ""; updated_at := "" |}.

End Materials.

(** ** The AI service and its local fallback ([services/ai.ts]) *)

Module Ai.
Import Pdf.

(** [arr.join(sep)] *)
Fixpoint join (sep : string) (l : list string) : string :=
  match l with
  | [] => ""
  | [x] => x
  | x :: rest => (x ++ sep ++ join sep rest)%string
  end.

(** A decimal literal [n / 10^2], such as 1.8 or 0.35, as an exact number. *)
Definition hundredths (n : Z) : number := Num (n # 100).

(** [Number(x.toFixed(2))]: the nearest multiple of 0.01, the larger one on
    a tie. *)
Definition toFixed2 (a : number) : number :=
  match a with
  | Num q => Num (Qfloor (q * 100 + (1 # 2)) # 100)
  | NaN => NaN
  end.

(** [quantity > 0] for a quantity that is a number. *)
Definition positive (a : number) : Prop :=
  match a with
  | Num q => 0 < q
  | NaN => False
  end.

Record MaterialsCatalogItem := {
  cat_name : string;
  cat_article : option string;
  cat_unit : option string;
  cat_price : option number
}.

Record AiTechCardItem := {
  name : string;
  article : option string;
  quantity : number;
  unit : option string
}.

Section Fallback.
(** Functions of the JavaScript runtime. *)
Variable trim : string -> string.
Variable toLowerCase : string -> string.

(** [FallbackUtils.low]: [String(s || '').trim().toLowerCase()] *)
Definition low (s : option string) : string := toLowerCase (trim (default "" s)).

(** [FallbackUtils.hasAny] *)
Definition hasAny (text : string) (keys : list string) : bool :=
  let t := low (Some text) in
  existsb (fun k => includes (low (Some k)) t) keys.

(** [FallbackUtils.findInCatalog] *)
Definition findInCatalog (catalog : list MaterialsCatalogItem)
    (name article : option string) : option MaterialsCatalogItem :=
  match find (fun m => String.eqb (low (cat_article m)) (low article)) catalog with
  | Some byArt => Some byArt
  | None =>
      match find (fun m => String.eqb (low (Some (cat_name m))) (low name)) catalog with
      | Some byName => Some byName
      | None => find (fun m => includes (low name) (low (Some (cat_name m)))) catalog
      end
  end.

(** [x?.f || d] for a string field of an optional catalog item. *)
Definition fieldOr (x : option MaterialsCatalogItem) (f : MaterialsCatalogItem -> option string)
    (d : string) : string :=
  match x with
  | Some m => optStrOr (f m) d
  | None => d
  end.

(** [x?.f] *)
Definition fieldOf (x : option MaterialsCatalogItem) (f : MaterialsCatalogItem -> option string)
    : option string :=
  match x with
  | Some m => f m
  | None => None
  end.

(** [FallbackUtils.collectionDescription] *)
Definition collectionDescription (name : string) (group : option string)
    (productNames : list string) : string :=
  let n := strOr name "Новая коллекция" in
  let g :=
    match group with
    | Some grp => if String.eqb grp "" then "" else (" (" ++ grp ++ ")")%string
    | None => ""
    end in
  let lineup :=
    if (0 <? length productNames)%nat
    then ("В линейку входят: " ++ join ", " (take 4 productNames)
          ++ (if (4 <? length productNames)%nat then " и др." else "") ++ ". ")%string
    else "" in
  let pitch :=
    "Коллекция сочетает функциональность и лаконичную эстетику, подойдёт для современных интерьеров." in
  (n ++ g ++ " — актуальная подборка изделий с продуманными размерами и материалами. "
     ++ lineup ++ pitch)%string.

(** [FallbackUtils.techCardSuggest] *)
Definition techCardSuggest (productName : string) (brief : option string)
    (materialsCatalog : list MaterialsCatalogItem) : list AiTechCardItem :=
  let text := (productName ++ " " ++ default "" brief)%string in
  let isTumba := hasAny text ["тумб"; "tumb"; "tb-"] in
  let isPenal := hasAny text ["пенал"; "penal"] in
  let isMirror := hasAny text ["зеркал"; "mirror"; "mir-"] in
  let is600 := hasAny text ["600"] in
  let is800 := hasAny text ["800"] in
  let is1000 := hasAny text ["1000"; "1000мм"; "1 000"] in
  (* base set, then the size heuristics *)
  let '(ldspQty, edgeQty, hingeQty) :=
    if is600 then (hundredths 150, lit 4, lit 2)
    else if is800 then (hundredths 220, lit 7, lit 2)
    else if is1000 then (hundredths 280, lit 9, lit 4)
    else (hundredths 180, lit 6, lit 2) in
  (* a tall cabinet takes more *)
  let '(ldspQty, edgeQty, hingeQty) :=
    if isPenal then (nadd ldspQty (hundredths 80), nadd edgeQty (lit 2), lit 4)
    else (ldspQty, edgeQty, hingeQty) in
  if isMirror then
    let glass := findInCatalog materialsCatalog (Some "Стекло зеркальное") None in
    let edge := findInCatalog materialsCatalog (Some "Кромка ПВХ 2мм") (Some "EDGE-2-PVC") in
    [ {| name := fieldOr glass (fun m => Some (cat_name m)) "Зеркало стеклянное";
         article := fieldOf glass cat_article;
         quantity := if is600 then hundredths 35 else if is800 then hundredths 50
                     else hundredths 60;
         unit := Some (fieldOr glass cat_unit "м2") |};
      {| name := fieldOr edge (fun m => Some (cat_name m)) "Кромка ПВХ 2мм";
         article := Some (fieldOr edge cat_article "EDGE-2-PVC");
         quantity := lit 2;
         unit := Some (fieldOr edge cat_unit "пог.м") |} ]
  else
    let ldsp := findInCatalog materialsCatalog (Some "ЛДСП 18мм Белый") (Some "LDSP-18-W") in
    let edge := findInCatalog materialsCatalog (Some "Кромка ПВХ 2мм") (Some "EDGE-2-PVC") in
    [ {| name := fieldOr ldsp (fun m => Some (cat_name m)) "ЛДСП 18мм Белый";
         article := Some (fieldOr ldsp cat_article "LDSP-18-W");
         quantity := toFixed2 ldspQty;
         unit := Some (fieldOr ldsp cat_unit "м2") |};
      {| name := fieldOr edge (fun m => Some (cat_name m)) "Кромка ПВХ 2мм";
         article := Some (fieldOr edge cat_article "EDGE-2-PVC");
         quantity := edgeQty;
         unit := Some (fieldOr edge cat_unit "пог.м") |} ]
    ++ (if isTumba || isPenal || hasAny text ["двер"; "петл"; "hinge"] then
          let hinge := findInCatalog materialsCatalog (Some "Петля clip-on") (Some "HINGE-CLIP") in
          [ {| name := fieldOr hinge (fun m => Some (cat_name m)) "Петля clip-on";
               article := Some (fieldOr hinge cat_article "HINGE-CLIP");
               quantity := hingeQty;
               unit := Some (fieldOr hinge cat_unit "шт") |} ]
        else [])
    ++ (if hasAny text ["ручк"; "handle"] then
          let handle := findInCatalog materialsCatalog (Some "Ручка скоба") None in
          [ {| name := fieldOr handle (fun m => Some (cat_name m)) "Ручка скоба";
               article := fieldOf handle cat_article;
               quantity := if is600 then lit 2 else lit 2;
               unit := Some (fieldOr handle cat_unit "шт") |} ]
        else []).

(** *** The remote call *)

(** What the POST to the endpoint comes to. *)
Inductive Exchange (D : Type) :=
| Failed (message : string)                  (* fetch or resp.json() throws *)
| NotOk (status : nat) (text : string)       (* a response with !resp.ok *)
| ErrorBody (error : string)                 (* a JSON body with a truthy error field *)
| Body (data : D).                           (* any other JSON body *)
Arguments Failed {D} message.
Arguments NotOk {D} status text.
Arguments ErrorBody {D} error.
Arguments Body {D} data.

Record AiResponse (D : Type) := {
  ok : bool;
  data : option D;
  error : option string
}.
Arguments ok {D} _.
Arguments data {D} _.
Arguments error {D} _.

Variable showStatus : nat -> string.     (* the status code inside a template string *)

(** [AiService.post] *)
Definition post {D : Type} (x : Exchange D) : AiResponse D :=
  match x with
  | Failed message =>
      {| ok := false; data := None; error := Some (strOr message "Network error") |}
  | NotOk status text =>
      {| ok := false; data := None;
         error := Some ("HTTP " ++ showStatus status ++ ": " ++ strOr text "AI endpoint error")%string |}
  | ErrorBody e => {| ok := false; data := None; error := Some e |}
  | Body d => {| ok := true; data := Some d; error := None |}
  end.

(** An element of [data.items] as it arrives: [quantity] is present only
    when [typeof x?.quantity === 'number']. *)
Record RemoteItem := {
  r_name : string;
  r_article : option string;
  r_quantity : option number;
  r_unit : option string
}.

(** [typeof x?.quantity === 'number' && x.quantity > 0] *)
Definition keepItem (x : RemoteItem) : option AiTechCardItem :=
  match r_quantity x with
  | Some q =>
      if gtb q (lit 0)
      then Some {| name := r_name x; article := r_article x; quantity := q; unit := r_unit x |}
      else None
  | None => None
  end.

Record SuggestInput := {
  productName : string;
  brief : option string;
  typeName : option string;
  finishName : option string;
  materialsCatalog : option (list MaterialsCatalogItem)
}.

(** [AiService.suggestTechCard]; the body of a good answer is the array
    [data.items], or nothing when that is not an array. *)
Definition suggestTechCard (input : SuggestInput) (x : Exchange (option (list RemoteItem)))
    : list AiTechCardItem :=
  let remote := post x in
  let fallback :=
    techCardSuggest (productName input) (brief input) (default [] (materialsCatalog input)) in
  if ok remote then
    let items := default [] (mjoin (data remote)) in
    let cleaned := omap keepItem items in
    if (0 <? length cleaned)%nat then cleaned else fallback
  else fallback.

Record DescriptionInput := {
  coll_name : string;
  coll_group : option string;
  productNames : list string
}.

(** [AiService.generateCollectionDescription]; the body of a good answer
    is [data.description] when it is a string. *)
Definition generateCollectionDescription (input : DescriptionInput)
    (x : Exchange (option string)) : string :=
  let remote := post x in
  let fallback :=
    collectionDescription (coll_name input) (coll_group input) (productNames input) in
  if ok remote then
    let desc := trim (default "" (mjoin (data remote))) in
    if String.eqb desc "" then fallback else desc
  else fallback.

End Fallback.

Arguments ok {D} _.
Arguments data {D} _.
Arguments error {D} _.
Arguments Failed {D} message.
Arguments NotOk {D} status text.
Arguments ErrorBody {D} error.
Arguments Body {D} data.

(** An example request on an empty catalog. *)
Definition emptyCatalogInput : SuggestInput :=
  {| productName := "Shelf"; brief := None; typeName := None; finishName := None;
     materialsCatalog := Some [] |}.

(** A description request with nothing filled in. *)
Definition emptyDescriptionInput : DescriptionInput :=
  {| coll_name := ""; coll_group := None; productNames := [] |}.

End Ai.

(** ** The collections page ([pages/Collections.tsx]) *)

Module Collections.

Record Collection := {
  id : string;
  name : string;
  description : option string;
  group : option string;
  is_archived : option bool;
  pinned : option bool;
  product_order : list string;
  cover_url : option string;
  created_at : string;
  updated_at : string
}.

(** [arr.includes(x)] *)
Definition arrIncludes (x : string) (arr : list string) : bool :=
  existsb (String.eqb x) arr.

(** [arr.indexOf(x)], counted from [i]: -1 when [x] is absent. *)
Fixpoint indexOfFrom (x : string) (arr : list string) (i : Z) : Z :=
  match arr with
  | [] => (-1)%Z
  | y :: rest => if String.eqb y x then i else indexOfFrom x rest (i + 1)%Z
  end.

Definition indexOf (x : string) (arr : list string) : Z := indexOfFrom x arr 0.

(** [insertAt]: a copy with [val] spliced in at [idx].  [splice] counts a
    negative index from the end and clamps the start to the array. *)
Definition insertAt (arr : list string) (idx : Z) (val : string) : list string :=
  let len := Z.of_nat (length arr) in
  let start := if (idx <? 0)%Z then Z.max (len + idx) 0 else Z.min idx len in
  take (Z.to_nat start) arr ++ val :: drop (Z.to_nat start) arr.

(** The state of the drag-and-drop editor. *)
Record EditorState := {
  order : list string;
  draggingId : option string;
  overId : option string
}.

(** [DnDEditor.onDropOverItem]; [!draggingId] holds for [null] and for
    the empty string. *)
Definition onDropOverItem (st : EditorState) (targetId : string) : EditorState :=
  match draggingId st with
  | None => st
  | Some dragging =>
      if String.eqb dragging "" || String.eqb dragging targetId then st
      else
        let next := filter (fun x => x <> dragging) (order st) in
        let targetIdx := indexOf targetId next in
        {| order := insertAt next targetIdx dragging; draggingId := None; overId := None |}
  end.

(** [DnDEditor.onDropToListEnd] *)
Definition onDropToListEnd (st : EditorState) : EditorState :=
  match draggingId st with
  | None => st
  | Some dragging =>
      if String.eqb dragging "" then st
      else
        {| order := filter (fun x => x <> dragging) (order st) ++ [dragging];
           draggingId := None; overId := None |}
  end.

(** The record written for the target collection by
    [quickAddProductToCollection]. *)
Definition withProduct (now : string) (productId : string) (c : Collection) : Collection :=
  {| id := id c; name := name c; description := description c; group := group c;
     is_archived := is_archived c; pinned := pinned c;
     product_order := product_order c ++ [productId];
     cover_url := cover_url c; created_at := created_at c; updated_at := now |}.

(** [quickAddProductToCollection], as the update of the [collections] state;
    [now] is [new Date().toISOString()]. *)
Definition quickAddProductToCollection (now : string) (collectionId productId : string)
    (prev : list Collection) : list Collection :=
  map (fun c =>
         if String.eqb (id c) collectionId && negb (arrIncludes productId (product_order c))
         then withProduct now productId c
         else c)
      prev.

(** Examples. *)
Definition sampleEditor : EditorState :=
  {| order := ["a"; "b"; "c"; "d"]; draggingId := Some "d"; overId := Some "b" |}.

Definition sampleCollections : list Collection :=
  [ {| id := "c1"; name := "Nordic"; description := None; group := None;
       is_archived := None; pinned := None; product_order := ["a"; "b"];
       cover_url := None; created_at := "t0"; updated_at := "t0" |};
    {| id := "c2"; name := "Loft"; description := None; group := None;
       is_archived := None; pinned := None; product_order := ["b"];
       cover_url := None; created_at := "t0"; updated_at := "t0" |} ].

End Collections.

(** ** More examples for the price calculator *)

Module PricingExamples.
Import Pricing.

(** The example product with neither type nor finish. *)
Definition untypedProduct : Product number :=
  {| id := "p2"; name := "Shelf"; article := "SHELF-600";
     tech_card := TcArray [ {| materialId := "m1"; quantity := Num 2 |} ];
     collection_id := None; product_type_id := None; finish_type_id := None |}.

(** Two materials and a card with two lines, in both orders. *)
Definition twoMaterials : list (Material number) :=
  [ {| mat_id := "m1"; mat_name := "Board"; mat_article := "LDSP-18-W";
       mat_unit := "m2"; mat_price := Num 850 |};
    {| mat_id := "m2"; mat_name := "Edge"; mat_article := "EDGE-2-PVC";
       mat_unit := "m"; mat_price := Num 25 |} ].

Definition boardLine : TechCardItem number := {| materialId := "m1"; quantity := Num 2 |}.
Definition edgeLine : TechCardItem number := {| materialId := "m2"; quantity := Num 6 |}.

Definition productWithCard (card : list (TechCardItem number)) : Product number :=
  {| id := "p3"; name := "Cabinet 800"; article := "TB-800";
     tech_card := TcArray card;
     collection_id := None; product_type_id := Some "pt"; finish_type_id := Some "ft" |}.

End PricingExamples.

(** ** The pricing settings page ([SettingsPage], [sanitizeNumber]) *)

Module Settings.
Import Pricing.

(** [Number.isNaN] *)
Definition isNaN (a : number) : bool :=
  match a with
  | Num _ => false
  | NaN => true
  end.

(** [Math.max] and [Math.min] of two numbers: NaN as soon as one is. *)
Definition mathMax (a b : number) : number :=
  match a, b with
  | Num x, Num y => Num (if Qlt_le_dec x y then y else x)
  | _, _ => NaN
  end.

Definition mathMin (a b : number) : number :=
  match a, b with
  | Num x, Num y => Num (if Qlt_le_dec y x then y else x)
  | _, _ => NaN
  end.

(** [sanitizeNumber(n, min, max?)] for a number [n]. *)
Definition sanitizeNumber (n min : number) (max : option number) : number :=
  let val := n in
  if isNaN val then min
  else
    match max with
    | Some mx => mathMin (mathMax val min) mx
    | None => mathMax val min
    end.

Section Rules.
Context {N : Type} `{JsArith N}.

(** A [Partial<PriceType>]: the fields a patch carries. *)
Record RulePatch := {
  patch_name : option string;
  patch_markup : option N;
  patch_workCost : option N
}.

(** [{ ...t, ...patch }] *)
Definition applyPatch (t : PriceRule N) (patch : RulePatch) : PriceRule N :=
  {| rule_id := rule_id t;
     rule_name := default (rule_name t) (patch_name patch);
     markup := default (markup t) (patch_markup patch);
     workCost := default (workCost t) (patch_workCost patch) |}.

(** [patchPriceType] *)
Definition patchPriceType (id : string) (patch : RulePatch) (prev : PriceSettings N)
    : PriceSettings N :=
  {| productTypes :=
       map (fun t => if String.eqb (rule_id t) id then applyPatch t patch else t)
           (productTypes prev);
     finishTypes := finishTypes prev |}.

(** [removePriceType] *)
Definition removePriceType (id : string) (prev : PriceSettings N) : PriceSettings N :=
  {| productTypes := filter (fun t => rule_id t <> id) (productTypes prev);
     finishTypes := finishTypes prev |}.

(** [removeFinishType] *)
Definition removeFinishType (id : string) (prev : PriceSettings N) : PriceSettings N :=
  {| productTypes := productTypes prev;
     finishTypes := filter (fun t => rule_id t <> id) (finishTypes prev) |}.

End Rules.

Arguments RulePatch : clear implicits.

End Settings.

(** ** Inputs at the edges: infinite quantities, a half-loaded engine *)

Module EdgeCases.
Import Pricing.

(** A catalog with a free sticker (price 0) beside the board. *)
Definition stickerMaterials : list (Material float) :=
  [ {| mat_id := "m1"; mat_name := "Board"; mat_article := "LDSP-18-W";
       mat_unit := "m2"; mat_price := lit 850 |};
    {| mat_id := "m0"; mat_name := "Sticker"; mat_article := "STK-0";
       mat_unit := "pcs"; mat_price := lit 0 |} ].

Definition stickerLine (q : float) : TechCardItem float :=
  {| materialId := "m0"; quantity := q |}.

(** One board and [q] stickers. *)
Definition stickerProduct (q : float) : Product float :=
  {| id := "p1"; name := "Cabinet 600"; article := "TB-600";
     tech_card := TcArray [ {| materialId := "m1"; quantity := lit 1 |}; stickerLine q ];
     collection_id := None;
     product_type_id := Some "pt";
     finish_type_id := Some "ft" |}.

(** The price of that product. *)
Definition stickerFinalPrice (q : float) : float :=
  finalPrice (calculateProductPrice (stickerProduct q) stickerMaterials chainSettings).

Definition goneLine (q : float) : TechCardItem float :=
  {| materialId := "gone"; quantity := q |}.

(** One board and a line whose material was deleted, with quantity [q]. *)
Definition goneProduct (q : float) : Product float :=
  {| id := "p1"; name := "Cabinet 600"; article := "TB-600";
     tech_card := TcArray [ {| materialId := "m1"; quantity := lit 1 |}; goneLine q ];
     collection_id := None;
     product_type_id := Some "pt";
     finish_type_id := Some "ft" |}.

Definition goneResult (q : float) : PriceResult float :=
  calculateProductPrice (goneProduct q) chainMaterials chainSettings.

(** The prices of the example with one board and with two, on doubles. *)
Definition oneBoardFinalPrice : float :=
  finalPrice (calculateProductPrice chainProduct chainMaterials chainSettings).

Definition twoBoardsFinalPrice : float :=
  finalPrice (calculateProductPrice chainProductTwoBoards chainMaterials chainSettings).

(** The engine is there without its table plugin, nothing was loaded yet
    and the CDN is unreachable. *)
Definition noPluginOfflineBrowser : Pdf.Browser :=
  {| Pdf.window := {| Pdf.jspdf_jsPDF := Some {| Pdf.hasAutoTable := false |};
                      Pdf.window_jsPDF := None |};
     Pdf.loadingPromise := None;
     Pdf.runScript := fun _ _ => None;
     Pdf.fetchOk := fun _ => false;
     Pdf.loadedFonts := [] |}.

End EdgeCases.

(** * Properties *)

Import Pricing PricingExact.

(** ** Binary64 arithmetic

    What the operations of the doubles compute, from their specification:
    the right shift and the rounding of [binary_round_aux], then addition
    and multiplication as an exact operation followed by one rounding, and
    from there their monotonicity. *)

Section RoundingFacts.
Import Rounding.
Local Open Scope Z_scope.

Lemma pow2_pos (k : Z) : 0 <= k -> 0 < 2 ^ k.
Proof. intros. apply Z.pow_pos_nonneg; lia. Qed.

Lemma pow2_succ (k : Z) : 0 <= k -> 2 ^ (k + 1) = 2 * 2 ^ k.
Proof. intros. rewrite Z.pow_add_r by lia. lia. Qed.

Lemma shr_1_nonneg (m : Z) (r s : bool) :
  0 <= m ->
  shr_1 {| shr_m := m; shr_r := r; shr_s := s |}
  = {| shr_m := m / 2; shr_r := Z.odd m; shr_s := r || s |}.
Proof.
  intros Hm. destruct m as [|p|p]; [reflexivity | | lia].
  destruct p as [p|p|]; cbn [shr_1].
  - f_equal. rewrite Pos2Z.inj_xI. apply (Z.div_unique _ _ _ 1); lia.
  - f_equal. rewrite Pos2Z.inj_xO. apply (Z.div_unique _ _ _ 0); lia.
  - reflexivity.
Qed.

Lemma shr_state_0 (m : Z) : shr_state m 0 = {| shr_m := m; shr_r := false; shr_s := false |}.
Proof.
  unfold shr_state. change (2 ^ 0) with 1. rewrite Z.div_1_r, !Z.mod_1_r. reflexivity.
Qed.

Lemma shr_state_succ (m k : Z) :
  0 <= m -> 0 <= k -> shr_1 (shr_state m k) = shr_state m (k + 1).
Proof.
  intros Hm Hk. unfold shr_state.
  assert (Hp := pow2_pos k Hk).
  rewrite shr_1_nonneg by (apply Z.div_pos; lia).
  rewrite pow2_succ by lia.
  set (P := 2 ^ k) in * .
  assert (Hq : m = P * (m / P) + m mod P) by (apply Z.div_mod; lia).
  assert (Hr : 0 <= m mod P < P) by (apply Z.mod_pos_bound; lia).
  set (q := m / P) in * . set (r := m mod P) in * .
  assert (Hq2 : q = 2 * (q / 2) + q mod 2) by (apply Z.div_mod; lia).
  assert (Hr2 : 0 <= q mod 2 < 2) by (apply Z.mod_pos_bound; lia).
  assert (Hdiv : m / (2 * P) = q / 2).
  { symmetry. apply (Z.div_unique _ _ _ (P * (q mod 2) + r)); nia. }
  assert (Hmod : m mod (2 * P) = P * (q mod 2) + r).
  { symmetry. apply (Z.mod_unique _ _ (q / 2)); nia. }
  rewrite Hdiv, Hmod. f_equal.
  - destruct (Z.odd q) eqn:Ho.
    + apply Z.odd_spec in Ho. destruct Ho as [t Ht].
      assert (q mod 2 = 1) as -> by lia. symmetry. apply Z.leb_le. nia.
    + assert (He : Z.even q = true) by (rewrite <- Z.negb_odd, Ho; reflexivity).
      apply Z.even_spec in He. destruct He as [t Ht].
      assert (q mod 2 = 0) as -> by lia. symmetry. apply Z.leb_gt. nia.
  - assert (H2P : 0 < 2 * P) by lia.
    destruct (Z.eq_dec r 0) as [E|E].
    + rewrite E in * .
      assert ((2 * 0) mod P = 0) as -> by (apply Z.mod_0_l; lia).
      assert ((2 * (P * (q mod 2) + 0)) mod (2 * P) = 0) as ->.
      { symmetry. apply (Z.mod_unique _ _ (q mod 2)); nia. }
      replace (P <=? 2 * 0) with false by (symmetry; apply Z.leb_gt; lia).
      reflexivity.
    + assert ((2 * (P * (q mod 2) + r)) mod (2 * P) = 2 * r) as ->.
      { symmetry. apply (Z.mod_unique _ _ (q mod 2)); nia. }
      replace (2 * r =? 0) with false by (symmetry; apply Z.eqb_neq; lia).
      destruct (Z.leb_spec P (2 * r)) as [L|L]; [reflexivity |].
      rewrite Z.mod_small by lia.
      replace (2 * r =? 0) with false by (symmetry; apply Z.eqb_neq; lia).
      reflexivity.
Qed.

Lemma iter_pos_nat {A : Type} (f : A -> A) (p : positive) (x : A) :
  iter_pos f p x = Nat.iter (Pos.to_nat p) f x.
Proof.
  revert x. induction p as [p IH|p IH|]; intros x; cbn [iter_pos].
  - rewrite !IH, Pos2Nat.inj_xI.
    replace (S (2 * Pos.to_nat p)) with (Pos.to_nat p + S (Pos.to_nat p))%nat by lia.
    rewrite Nat.iter_add, Nat.iter_succ_r. reflexivity.
  - rewrite !IH, Pos2Nat.inj_xO.
    replace (2 * Pos.to_nat p)%nat with (Pos.to_nat p + Pos.to_nat p)%nat by lia.
    rewrite Nat.iter_add. reflexivity.
  - reflexivity.
Qed.

Lemma iter_shr_state (m : Z) (n : nat) :
  0 <= m -> Nat.iter n shr_1 (shr_state m 0) = shr_state m (Z.of_nat n).
Proof.
  intros Hm. induction n as [|n IH]; [reflexivity |].
  rewrite Nat.iter_succ, IH, shr_state_succ by lia. f_equal. lia.
Qed.

(** The right shift by [n] places. *)
Lemma shr_exact (m e n : Z) :
  0 <= m -> 0 <= n ->
  shr {| shr_m := m; shr_r := false; shr_s := false |} e n = (shr_state m n, e + n).
Proof.
  intros Hm Hn. destruct n as [|p|p]; [| | lia].
  - cbn [shr]. rewrite shr_state_0, Z.add_0_r. reflexivity.
  - cbn [shr]. rewrite iter_pos_nat, <- shr_state_0, iter_shr_state by lia.
    rewrite positive_nat_Z. reflexivity.
Qed.

(** Rounding the shifted state to nearest even. *)
Lemma round_shr_state (m k : Z) :
  0 <= m -> 0 <= k ->
  round_nearest_even (shr_m (shr_state m k)) (loc_of_shr_record (shr_state m k))
  = rneD m (2 ^ k).
Proof.
  intros Hm Hk. unfold shr_state, rneD. cbn [shr_m loc_of_shr_record].
  assert (Hp := pow2_pos k Hk). set (P := 2 ^ k) in * .
  assert (Hr : 0 <= m mod P < P) by (apply Z.mod_pos_bound; lia).
  set (r := m mod P) in * .
  destruct (Z.leb_spec P (2 * r)) as [L|L].
  - destruct (Z.eq_dec (2 * r) P) as [E|E].
    + rewrite E, Z.mod_same, Z.compare_refl by lia. reflexivity.
    + assert ((2 * r) mod P = 2 * r - P) as ->.
      { symmetry. apply (Z.mod_unique _ _ 1); lia. }
      replace (2 * r - P =? 0) with false by (symmetry; apply Z.eqb_neq; lia).
      replace (2 * r ?= P) with Gt by (symmetry; apply Z.compare_gt_iff; lia).
      reflexivity.
  - replace (2 * r ?= P) with Lt by (symmetry; apply Z.compare_lt_iff; lia).
    destruct (negb _); reflexivity.
Qed.

End RoundingFacts.

Section DigitFacts.
Local Open Scope Z_scope.

Lemma digits2_pos_size (p : positive) : digits2_pos p = Pos.size p.
Proof. induction p; simpl; congruence. Qed.

Lemma Zdigits2_log2 (m : Z) : 0 < m -> Zdigits2 m = Z.log2 m + 1.
Proof.
  intros Hm. destruct m as [|p|p]; try lia. cbn [Zdigits2]. rewrite digits2_pos_size.
  destruct p; cbn [Z.log2 Pos.size]; rewrite ?Pos2Z.inj_succ; lia.
Qed.

Lemma Zdigits2_bounds (m : Z) :
  0 < m -> 0 < Zdigits2 m /\ 2 ^ (Zdigits2 m - 1) <= m < 2 ^ Zdigits2 m.
Proof.
  intros Hm. rewrite Zdigits2_log2 by lia.
  assert (H := Z.log2_spec m Hm). assert (H0 := Z.log2_nonneg m).
  replace (Z.log2 m + 1 - 1) with (Z.log2 m) by lia.
  replace (Z.log2 m + 1) with (Z.succ (Z.log2 m)) by lia. lia.
Qed.

Lemma Zdigits2_unique (m d : Z) : 0 < d -> 2 ^ (d - 1) <= m < 2 ^ d -> Zdigits2 m = d.
Proof.
  intros Hd H. assert (Hm : 0 < m).
  { assert (0 < 2 ^ (d - 1)) by (apply pow2_pos; lia). lia. }
  rewrite Zdigits2_log2 by lia.
  rewrite (Z.log2_unique m (d - 1)); [lia | lia |].
  replace (Z.succ (d - 1)) with d by lia. exact H.
Qed.

Lemma Zdigits2_le (m d : Z) : 0 < m -> 0 <= d -> m < 2 ^ d -> Zdigits2 m <= d.
Proof.
  intros Hm Hd H. rewrite Zdigits2_log2 by lia.
  assert (Z.log2 m < d) by (apply Z.log2_lt_pow2; lia). lia.
Qed.

Lemma pow2_add (a b : Z) : 0 <= a -> 0 <= b -> 2 ^ (a + b) = 2 ^ a * 2 ^ b.
Proof. intros. apply Z.pow_add_r; lia. Qed.

Lemma pow2_le (a b : Z) : a <= b -> 2 ^ a <= 2 ^ b.
Proof.
  intros. destruct (Z.le_gt_cases 0 a).
  - apply Z.pow_le_mono_r; lia.
  - rewrite (Z.pow_neg_r 2 a) by lia. apply Z.pow_nonneg. lia.
Qed.

(** The magnitude [digits m + e] grows with the value [m * 2^e]. *)
Lemma magnitude_mono (ma ea mb eb c : Z) :
  0 < ma -> 0 < mb -> c <= ea -> c <= eb ->
  ma * 2 ^ (ea - c) <= mb * 2 ^ (eb - c) ->
  Zdigits2 ma + ea <= Zdigits2 mb + eb.
Proof.
  intros Ha Hb Hca Hcb Hle.
  destruct (Zdigits2_bounds ma Ha) as (Hda & Hla & _).
  destruct (Zdigits2_bounds mb Hb) as (Hdb & _ & Hub).
  destruct (Z.le_gt_cases (Zdigits2 ma + ea) (Zdigits2 mb + eb)) as [|Hgt]; [assumption |].
  exfalso.
  assert (H1 : 2 ^ (Zdigits2 ma - 1 + (ea - c)) <= ma * 2 ^ (ea - c)).
  { rewrite pow2_add by lia. apply Z.mul_le_mono_nonneg_r; [apply Z.pow_nonneg |]; lia. }
  assert (H2 : mb * 2 ^ (eb - c) < 2 ^ (Zdigits2 mb + (eb - c))).
  { rewrite pow2_add by lia. apply Z.mul_lt_mono_pos_r; [apply pow2_pos |]; lia. }
  assert (H3 : 2 ^ (Zdigits2 mb + (eb - c)) <= 2 ^ (Zdigits2 ma - 1 + (ea - c))).
  { apply pow2_le. lia. }
  lia.
Qed.

End DigitFacts.

Section RneFacts.
Import Rounding.
Local Open Scope Z_scope.

Lemma rneD_bounds (m d : Z) : 0 < d -> m / d <= rneD m d <= m / d + 1.
Proof.
  intros Hd. unfold rneD. destruct (2 * (m mod d) ?= d); [destruct (Z.even _) | |]; lia.
Qed.

Lemma rneD_exact (m d : Z) : 0 < d -> rneD (m * d) d = m.
Proof.
  intros Hd. unfold rneD. rewrite Z.mod_mul, Z.div_mul by lia.
  replace (2 * 0 ?= d) with Lt by (symmetry; apply Z.compare_lt_iff; lia). reflexivity.
Qed.

Lemma rneD_scale (m d k : Z) : 0 < d -> 0 < k -> rneD (m * k) (d * k) = rneD m d.
Proof.
  intros Hd Hk. unfold rneD.
  rewrite Z.div_mul_cancel_r by lia.
  rewrite Z.mul_mod_distr_r by lia.
  replace (2 * (m mod d * k) ?= d * k) with (2 * (m mod d) ?= d); [reflexivity |].
  destruct (Z.compare_spec (2 * (m mod d)) d) as [E|L|G]; symmetry.
  - apply Z.compare_eq_iff. nia.
  - apply Z.compare_lt_iff. nia.
  - apply Z.compare_gt_iff. nia.
Qed.

(** Rounding to nearest even is monotone in the quotient. *)
Lemma rneD_mono (ma da mb db : Z) :
  0 < da -> 0 < db -> ma * db <= mb * da -> rneD ma da <= rneD mb db.
Proof.
  intros Hda Hdb Hle.
  assert (Ea : ma = da * (ma / da) + ma mod da) by (apply Z.div_mod; lia).
  assert (Eb : mb = db * (mb / db) + mb mod db) by (apply Z.div_mod; lia).
  assert (Ra : 0 <= ma mod da < da) by (apply Z.mod_pos_bound; lia).
  assert (Rb : 0 <= mb mod db < db) by (apply Z.mod_pos_bound; lia).
  assert (Ba := rneD_bounds ma da Hda). assert (Bb := rneD_bounds mb db Hdb).
  unfold rneD in * .
  set (qa := ma / da) in * . set (ra := ma mod da) in * .
  set (qb := mb / db) in * . set (rb := mb mod db) in * .
  assert (Hq : qa <= qb).
  { destruct (Z.le_gt_cases qa qb) as [|Hgt]; [assumption | exfalso].
    assert (H1 : da * db * (qb + 1) <= da * db * qa) by (apply Z.mul_le_mono_nonneg_l; nia).
    assert (H2 : 0 <= ra * db) by nia.
    assert (H3 : rb * da < db * da) by nia.
    rewrite Ea, Eb in Hle. nia. }
  destruct (Z.eq_dec qa qb) as [E|E]; [| lia].
  rewrite E in * . assert (Hr : ra * db <= rb * da).
  { rewrite Ea, Eb in Hle. nia. }
  destruct (Z.compare_spec (2 * ra) da) as [E1|L1|G1];
    destruct (Z.compare_spec (2 * rb) db) as [E2|L2|G2];
    try destruct (Z.even qb); try lia; exfalso; nia.
Qed.

End RneFacts.

Section RoundFacts.
Import Rounding.
Local Open Scope Z_scope.

Variables prec emax : Z.
Hypothesis Hprec : 0 < prec.
Hypothesis Hemax : prec < emax.


Lemma fexp_ge_emin (x : Z) : SpecFloat.emin prec emax <= SpecFloat.fexp prec emax x.
Proof. unfold SpecFloat.fexp, SpecFloat.emin. lia. Qed.

Lemma fexp_mono (x y : Z) : x <= y -> SpecFloat.fexp prec emax x <= SpecFloat.fexp prec emax y.
Proof. unfold SpecFloat.fexp, SpecFloat.emin. lia. Qed.

Lemma match_pos {A : Type} (z : Z) (a c : A) (f : positive -> A) :
  0 < z ->
  match z with Z0 => a | Zpos m => f m | Zneg _ => c end = f (Z.to_pos z).
Proof. intros Hz. destruct z; try lia. reflexivity. Qed.

(** The mantissa kept after the shift has at most [prec] digits before
    rounding, so at most [2^prec] after. *)
Lemma rneD_le_pow_prec (m e : Z) :
  0 < m -> e <= SpecFloat.fexp prec emax (Zdigits2 m + e) ->
  0 <= rneD m (2 ^ (SpecFloat.fexp prec emax (Zdigits2 m + e) - e)) <= 2 ^ prec.
Proof using Hprec.
  intros Hm He. set (n := SpecFloat.fexp prec emax (Zdigits2 m + e) - e).
  assert (Hn : 0 <= n) by (unfold n; lia).
  assert (Hp := pow2_pos n Hn).
  destruct (rneD_bounds m (2 ^ n) Hp) as [Hlo Hhi].
  assert (0 <= m / 2 ^ n) by (apply Z.div_pos; lia).
  split; [lia |].
  assert (m / 2 ^ n < 2 ^ prec); [| lia].
  apply Z.div_lt_upper_bound; [lia |].
  rewrite <- pow2_add by lia.
  destruct (Zdigits2_bounds m Hm) as (_ & _ & Hub).
  eapply Z.lt_le_trans; [exact Hub |]. apply pow2_le.
  unfold n, SpecFloat.fexp. lia.
Qed.

Lemma binary_round_aux_rounded (s : bool) (m e : Z) :
  0 < m -> e <= SpecFloat.fexp prec emax (Zdigits2 m + e) ->
  binary_round_aux prec emax s m e loc_Exact = rounded prec emax s m e.
Proof using Hprec.
  intros Hm He. unfold binary_round_aux, rounded, shr_fexp.
  cbn [shr_record_of_loc].
  set (E := SpecFloat.fexp prec emax (Zdigits2 m + e)) in * .
  assert (HE : SpecFloat.emin prec emax <= E) by apply fexp_ge_emin.
  rewrite shr_exact by lia.
  rewrite round_shr_state by lia.
  replace (e + (E - e)) with E by lia.
  assert (Hb := rneD_le_pow_prec m e Hm He). fold E in Hb.
  set (m2 := rneD m (2 ^ (E - e))) in * .
  assert (HP : 0 < 2 ^ prec) by (apply pow2_pos; lia).
  destruct (Z.eqb_spec m2 0) as [E0|N0].
  - rewrite E0. cbn [Zdigits2].
    assert (Hn : SpecFloat.fexp prec emax (0 + E) - E <= 0) by (unfold SpecFloat.fexp, SpecFloat.emin in *; lia).
    destruct (SpecFloat.fexp prec emax (0 + E) - E) eqn:En; try lia; reflexivity.
  - destruct (Z.eqb_spec m2 (2 ^ prec)) as [E1|N1].
    + rewrite E1.
      assert (Hd : Zdigits2 (2 ^ prec) = prec + 1).
      { apply Zdigits2_unique; [lia |]. replace (prec + 1 - 1) with prec by lia.
        rewrite pow2_succ by lia. lia. }
      rewrite Hd.
      assert (Hn : SpecFloat.fexp prec emax (prec + 1 + E) - E = 1) by (unfold SpecFloat.fexp, SpecFloat.emin in *; lia).
      rewrite Hn. cbn [shr iter_pos]. rewrite shr_1_nonneg by lia. cbn [shr_m].
      assert (Hh : 2 ^ prec / 2 = 2 ^ (prec - 1)).
      { replace prec with (prec - 1 + 1) at 1 by lia. rewrite pow2_succ by lia.
        rewrite Z.mul_comm, Z.div_mul by lia. reflexivity. }
      rewrite Hh. unfold finite_or_inf.
      rewrite match_pos by (apply pow2_pos; lia). reflexivity.
    + assert (Hd : Zdigits2 m2 <= prec) by (apply Zdigits2_le; lia).
      assert (Hn : SpecFloat.fexp prec emax (Zdigits2 m2 + E) - E <= 0) by (unfold SpecFloat.fexp, SpecFloat.emin in *; lia).
      unfold finite_or_inf.
      destruct (SpecFloat.fexp prec emax (Zdigits2 m2 + E) - E) eqn:En; try lia; cbn [shr shr_m];
        rewrite match_pos by lia; reflexivity.
Qed.

(** Order of non-negative results. *)
Lemma SFleb_finite_pos (x y e1 e2 : Z) :
  0 < x -> 0 < y -> e1 < e2 \/ (e1 = e2 /\ x <= y) ->
  SFleb (S754_finite false (Z.to_pos x) e1) (S754_finite false (Z.to_pos y) e2) = true.
Proof.
  intros Hx Hy H. unfold SFleb, SFcompare.
  destruct (Z.compare_spec e1 e2) as [E|L|G]; [| reflexivity | lia].
  rewrite Pos.compare_cont_spec. cbn [Pos.switch_Eq].
  destruct (Pos.compare_spec (Z.to_pos x) (Z.to_pos y)) as [|?|G]; try reflexivity.
  lia.
Qed.

Lemma SFleb_finite_or_inf (x y e1 e2 : Z) :
  0 < x -> 0 < y -> e1 < e2 \/ (e1 = e2 /\ x <= y) ->
  SFleb (finite_or_inf prec emax false x e1) (finite_or_inf prec emax false y e2) = true.
Proof.
  intros Hx Hy H. unfold finite_or_inf.
  destruct (Z.leb_spec e1 (emax - prec)), (Z.leb_spec e2 (emax - prec)); try reflexivity.
  - apply SFleb_finite_pos; assumption.
  - lia.
Qed.

Lemma SFleb_zero_finite_or_inf (x e : Z) :
  SFleb (S754_zero false) (finite_or_inf prec emax false x e) = true.
Proof. unfold finite_or_inf. destruct (_ <=? _); reflexivity. Qed.

(** Rounding is monotone: a larger value does not round to a smaller one. *)
Lemma rounded_mono (ma ea mb eb c : Z) :
  0 < ma -> 0 < mb -> c <= ea -> c <= eb ->
  ea <= SpecFloat.fexp prec emax (Zdigits2 ma + ea) -> eb <= SpecFloat.fexp prec emax (Zdigits2 mb + eb) ->
  ma * 2 ^ (ea - c) <= mb * 2 ^ (eb - c) ->
  SFleb (rounded prec emax false ma ea) (rounded prec emax false mb eb) = true.
Proof using Hprec.
  intros Ha Hb Hca Hcb Hea Heb Hle.
  assert (Hmag := magnitude_mono ma ea mb eb c Ha Hb Hca Hcb Hle).
  assert (HE := fexp_mono _ _ Hmag).
  assert (Ba := rneD_le_pow_prec ma ea Ha Hea).
  assert (Bb := rneD_le_pow_prec mb eb Hb Heb).
  unfold rounded.
  set (Ea := SpecFloat.fexp prec emax (Zdigits2 ma + ea)) in * . set (Eb := SpecFloat.fexp prec emax (Zdigits2 mb + eb)) in * .
  assert (HP : 2 ^ prec = 2 * 2 ^ (prec - 1)).
  { replace prec with (prec - 1 + 1) at 1 by lia. apply pow2_succ. lia. }
  assert (HH : 0 < 2 ^ (prec - 1)) by (apply pow2_pos; lia).
  assert (Hcmp : Ea < Eb /\ 2 ^ (prec - 1) <= rneD mb (2 ^ (Eb - eb))
                 \/ Ea = Eb /\ rneD ma (2 ^ (Ea - ea)) <= rneD mb (2 ^ (Eb - eb))).
  { destruct (Z.eq_dec Ea Eb) as [E|N]; [right | left].
    - split; [exact E |]. rewrite <- E.
      apply rneD_mono; try (apply pow2_pos; lia).
      assert (HA : 0 < 2 ^ (ea - c)) by (apply pow2_pos; lia).
      assert (HB : 0 < 2 ^ (eb - c)) by (apply pow2_pos; lia).
      assert (HX : 0 < 2 ^ (Ea - ea)) by (apply pow2_pos; lia).
      assert (HY : 0 < 2 ^ (Ea - eb)) by (apply pow2_pos; lia).
      assert (HT : 0 < 2 ^ (Ea - c)) by (apply pow2_pos; lia).
      assert (HAX : 2 ^ (ea - c) * 2 ^ (Ea - ea) = 2 ^ (Ea - c)).
      { rewrite <- pow2_add by lia. f_equal. lia. }
      assert (HBY : 2 ^ (eb - c) * 2 ^ (Ea - eb) = 2 ^ (Ea - c)).
      { rewrite <- pow2_add by lia. f_equal. lia. }
      set (A := 2 ^ (ea - c)) in * . set (B := 2 ^ (eb - c)) in * .
      set (X := 2 ^ (Ea - ea)) in * . set (Y := 2 ^ (Ea - eb)) in * .
      set (T := 2 ^ (Ea - c)) in * .
      apply (Z.mul_le_mono_pos_r _ _ T HT).
      replace (ma * Y * T) with (ma * A * (X * Y)) by (rewrite <- HAX; ring).
      replace (mb * X * T) with (mb * B * (X * Y)) by (rewrite <- HBY; ring).
      apply Z.mul_le_mono_nonneg_r; [nia | exact Hle].
    - split; [lia |].
      assert (HEb : Eb = Zdigits2 mb + eb - prec).
      { assert (SpecFloat.emin prec emax <= Ea) by apply fexp_ge_emin.
        unfold Eb, SpecFloat.fexp in * . lia. }
      destruct (Zdigits2_bounds mb Hb) as (Hdb & Hlb & _).
      assert (Hn : 0 <= Eb - eb) by lia.
      assert (Hp := pow2_pos _ Hn).
      destruct (rneD_bounds mb (2 ^ (Eb - eb)) Hp) as [Hlo _].
      eapply Z.le_trans; [| exact Hlo].
      apply Z.div_le_lower_bound; [lia |].
      rewrite Z.mul_comm, <- pow2_add by lia.
      replace (prec - 1 + (Eb - eb)) with (Zdigits2 mb - 1) by lia. exact Hlb. }
  set (m2a := rneD ma (2 ^ (Ea - ea))) in * . set (m2b := rneD mb (2 ^ (Eb - eb))) in * .
  destruct (Z.eqb_spec m2a 0) as [Za|Za].
  - destruct (Z.eqb_spec m2b 0); [reflexivity |].
    destruct (Z.eqb_spec m2b (2 ^ prec)); apply SFleb_zero_finite_or_inf.
  - assert (Hb0 : m2b <> 0) by lia.
    destruct (Z.eqb_spec m2b 0) as [|_]; [contradiction |].
    destruct (Z.eqb_spec m2a (2 ^ prec)), (Z.eqb_spec m2b (2 ^ prec));
      apply SFleb_finite_or_inf; lia.
Qed.

End RoundFacts.

Section OrderFacts.
Import Rounding.
Local Open Scope Z_scope.

Lemma SFcompare_opp (a b : spec_float) : SFcompare (SFopp a) (SFopp b) = SFcompare b a.
Proof.
  destruct a as [[]|[]| |[] ma ea], b as [[]|[]| |[] mb eb]; try reflexivity;
    cbn [SFopp SFcompare negb]; f_equal;
    rewrite (Z.compare_antisym ea eb);
    destruct (ea ?= eb); cbn [CompOpp]; try reflexivity;
    rewrite !Pos.compare_cont_spec; cbn [Pos.switch_Eq];
    rewrite (Pos.compare_antisym ma mb); destruct (ma ?= mb)%positive; reflexivity.
Qed.

Lemma SFleb_opp (a b : spec_float) : SFleb (SFopp a) (SFopp b) = SFleb b a.
Proof. unfold SFleb. rewrite SFcompare_opp. reflexivity. Qed.

Lemma SFleb_refl (a : spec_float) : SFnan a = false -> SFleb a a = true.
Proof.
  destruct a as [[]|[]| |[] m e]; try reflexivity; try discriminate; intros _;
    unfold SFleb, SFcompare; rewrite Z.compare_refl, Pos.compare_cont_spec, Pos.compare_refl;
    reflexivity.
Qed.

Lemma SFleb_same_l (a a' b : spec_float) : SFsame a a' -> SFleb a b = SFleb a' b.
Proof.
  intros [-> | [Ha Ha']]; [reflexivity |].
  destruct a; try discriminate. destruct a'; try discriminate. destruct b; reflexivity.
Qed.

Lemma SFleb_same_r (a b b' : spec_float) : SFsame b b' -> SFleb a b = SFleb a b'.
Proof.
  intros [-> | [Hb Hb']]; [reflexivity |].
  destruct b; try discriminate. destruct b'; try discriminate. destruct a; reflexivity.
Qed.

Lemma SFsame_refl (a : spec_float) : SFsame a a.
Proof. left. reflexivity. Qed.

Lemma SFsame_sym (a b : spec_float) : SFsame a b -> SFsame b a.
Proof. intros [-> | [? ?]]; [left | right]; auto. Qed.

End OrderFacts.

Section RoundAt.
Import Rounding.
Local Open Scope Z_scope.

Variables prec emax : Z.
Hypothesis Hprec : 0 < prec.
Hypothesis Hemax : prec < emax.

Lemma rounded_opp (m e : Z) :
  rounded prec emax true m e = SFopp (rounded prec emax false m e).
Proof.
  unfold rounded, finite_or_inf.
  repeat match goal with |- context [if ?b then _ else _] => destruct b end; reflexivity.
Qed.

Lemma rounded_nonneg (m e : Z) :
  SFleb (S754_zero false) (rounded prec emax false m e) = true.
Proof.
  unfold rounded, finite_or_inf.
  repeat match goal with |- context [if ?b then _ else _] => destruct b end; reflexivity.
Qed.

Lemma rounded_not_nan (s : bool) (m e : Z) : SFnan (rounded prec emax s m e) = false.
Proof.
  unfold rounded, finite_or_inf.
  repeat match goal with |- context [if ?b then _ else _] => destruct b end; reflexivity.
Qed.

Lemma SFleb_neg_nonneg (p q : spec_float) :
  SFleb (S754_zero false) p = true -> SFleb (S754_zero false) q = true ->
  SFleb (SFopp p) q = true.
Proof.
  destruct p as [[]|[]| |[] mp ep], q as [[]|[]| |[] mq eq]; try reflexivity; discriminate.
Qed.

Lemma Zdigits2_mul_pow2 (m k : Z) : 0 < m -> 0 <= k -> Zdigits2 (m * 2 ^ k) = Zdigits2 m + k.
Proof.
  intros Hm Hk. destruct (Zdigits2_bounds m Hm) as (Hd & Hlo & Hhi).
  assert (Hp := pow2_pos k Hk).
  apply Zdigits2_unique; [lia |].
  replace (Zdigits2 m + k - 1) with (Zdigits2 m - 1 + k) by lia.
  rewrite !pow2_add by lia. nia.
Qed.

(** The rounded float depends on the value only, not on its scaling. *)
Lemma rounded_shift (s : bool) (m e k : Z) :
  0 < m -> 0 <= k -> e <= SpecFloat.fexp prec emax (Zdigits2 m + e) ->
  rounded prec emax s (m * 2 ^ k) (e - k) = rounded prec emax s m e.
Proof.
  intros Hm Hk He. unfold rounded.
  rewrite Zdigits2_mul_pow2 by lia.
  replace (Zdigits2 m + k + (e - k)) with (Zdigits2 m + e) by lia.
  set (E := SpecFloat.fexp prec emax (Zdigits2 m + e)) in * .
  replace (E - (e - k)) with (E - e + k) by lia.
  rewrite pow2_add by lia.
  rewrite rneD_scale by (apply pow2_pos; lia). reflexivity.
Qed.

Lemma Pos_iter_xO (m d : positive) : Zpos (Pos.iter xO m d) = Zpos m * 2 ^ Zpos d.
Proof.
  induction d as [|d IH] using Pos.peano_ind.
  - cbn [Pos.iter]. lia.
  - rewrite Pos.iter_succ, Pos2Z.inj_xO, IH, Pos2Z.inj_succ.
    unfold Z.succ. rewrite pow2_succ by lia. lia.
Qed.

(** The aligned mantissa carries the same value at the lower exponent. *)
Lemma shl_align_value (m : positive) (e e' : Z) :
  e' <= e -> Zpos (fst (shl_align m e e')) = Zpos m * 2 ^ (e - e') /\
             snd (shl_align m e e') = e'.
Proof.
  intros He. unfold shl_align. destruct (e' - e) as [|d|d] eqn:Ed; try lia; cbn [fst snd].
  - replace (e - e') with 0 by lia. split; lia.
  - rewrite Pos_iter_xO. split; [| reflexivity]. f_equal. f_equal. lia.
Qed.

Lemma binary_round_at (s : bool) (m : positive) (e t : Z) :
  t <= e -> t <= SpecFloat.fexp prec emax (Zdigits2 (Zpos m) + e) ->
  binary_round prec emax s m e = rounded prec emax s (Zpos m * 2 ^ (e - t)) t.
Proof using Hprec.
  intros Hte HtE. unfold binary_round.
  change (Z.pos (digits2_pos m)) with (Zdigits2 (Zpos m)).
  set (E := SpecFloat.fexp prec emax (Zdigits2 (Zpos m) + e)) in * .
  destruct (Z.le_gt_cases e E) as [Hle | Hgt].
  - assert (Hs : shl_align m e E = (m, e)).
    { unfold shl_align. destruct (E - e) eqn:Ed; try lia; reflexivity. }
    rewrite Hs, binary_round_aux_rounded by (try fold E; lia).
    rewrite <- (rounded_shift s (Zpos m) e (e - t)) by (try fold E; lia).
    f_equal. lia.
  - destruct (shl_align_value m e E ltac:(lia)) as [Hv He].
    destruct (shl_align m e E) as [mz ez]. cbn [fst snd] in * . subst ez.
    assert (Hd : Zdigits2 (Zpos mz) + E = Zdigits2 (Zpos m) + e).
    { rewrite Hv, Zdigits2_mul_pow2 by lia. lia. }
    rewrite binary_round_aux_rounded by (try rewrite Hd; try fold E; lia).
    rewrite <- (rounded_shift s (Zpos mz) E (E - t)) by (try rewrite Hd; try fold E; lia).
    rewrite Hv, <- Z.mul_assoc, <- pow2_add by lia. f_equal; [f_equal; f_equal |]; lia.
Qed.

(** Rounding is monotone on signed values. *)
Lemma round_at_mono (t v w : Z) :
  t <= SpecFloat.emin prec emax -> v <= w ->
  SFleb (round_at prec emax t v) (round_at prec emax t w) = true.
Proof using Hprec.
  intros Ht Hvw.
  assert (Hpre : forall m, t <= SpecFloat.fexp prec emax (Zdigits2 m + t)).
  { intros m. assert (H := fexp_ge_emin prec emax (Zdigits2 m + t)). lia. }
  assert (Hpos : forall p q : positive, (Zpos p <= Zpos q) ->
             SFleb (rounded prec emax false (Zpos p) t) (rounded prec emax false (Zpos q) t) = true).
  { intros p q Hpq. apply (rounded_mono prec emax Hprec (Zpos p) t (Zpos q) t t); try lia; auto.
    rewrite Z.sub_diag. change (2 ^ 0) with 1. lia. }
  destruct v as [|p|p], w as [|q|q]; try lia; cbn [round_at].
  - reflexivity.
  - apply rounded_nonneg.
  - apply Hpos. lia.
  - rewrite rounded_opp. apply SFleb_neg_nonneg; [apply rounded_nonneg | reflexivity].
  - rewrite rounded_opp. apply SFleb_neg_nonneg; apply rounded_nonneg.
  - rewrite !rounded_opp, SFleb_opp. apply Hpos. lia.
Qed.

Lemma round_at_not_nan (t v : Z) : SFnan (round_at prec emax t v) = false.
Proof. destruct v; [reflexivity | apply rounded_not_nan ..]. Qed.

End RoundAt.

Section OpFacts.
Import Rounding.
Local Open Scope Z_scope.

Variables prec emax : Z.
Hypothesis Hprec : 0 < prec.
Hypothesis Hemax : prec < emax.

Lemma emin_nonpos : SpecFloat.emin prec emax <= 0.
Proof using Hprec Hemax. unfold SpecFloat.emin. lia. Qed.

Lemma bounded_facts (m : positive) (e : Z) :
  bounded prec emax m e = true ->
  SpecFloat.fexp prec emax (Zdigits2 (Zpos m) + e) = e /\ e <= emax - prec /\
  SpecFloat.emin prec emax <= e /\ Zdigits2 (Zpos m) <= prec /\
  (Zdigits2 (Zpos m) = prec \/ e = SpecFloat.emin prec emax).
Proof.
  unfold bounded, canonical_mantissa. intros H. apply andb_prop in H as [H1 H2].
  apply Z.eqb_eq in H1. apply Z.leb_le in H2.
  change (Z.pos (digits2_pos m)) with (Zdigits2 (Zpos m)) in H1.
  split; [exact H1 |]. split; [exact H2 |].
  unfold SpecFloat.fexp in * . lia.
Qed.

Lemma round_at_pos (t v : Z) : 0 < v -> round_at prec emax t v = rounded prec emax false v t.
Proof. destruct v; try lia. reflexivity. Qed.

Lemma round_at_neg (t v : Z) : v < 0 -> round_at prec emax t v = rounded prec emax true (- v) t.
Proof. destruct v; try lia. reflexivity. Qed.

Lemma round_at_cond_Zopp (s : bool) (t v : Z) :
  0 < v -> round_at prec emax t (cond_Zopp s v) = rounded prec emax s v t.
Proof.
  intros Hv. destruct s; cbn [cond_Zopp].
  - rewrite round_at_neg by lia. f_equal. lia.
  - apply round_at_pos. exact Hv.
Qed.

(** A float in canonical form rounds to itself. *)
Lemma rounded_canonical (s : bool) (m : positive) (e : Z) :
  bounded prec emax m e = true ->
  rounded prec emax s (Zpos m) e = S754_finite s m e.
Proof using Hprec.
  intros Hb. destruct (bounded_facts m e Hb) as (HE & Hmax & Hmin & Hd & _).
  unfold rounded. rewrite HE, Z.sub_diag. change (2 ^ 0) with 1.
  assert (Hr : rneD (Zpos m) 1 = Zpos m).
  { rewrite <- (Z.mul_1_r (Zpos m)) at 1. apply rneD_exact. lia. }
  rewrite Hr.
  assert (Hlt : Zpos m < 2 ^ prec).
  { destruct (Zdigits2_bounds (Zpos m) ltac:(lia)) as (_ & _ & Hhi).
    eapply Z.lt_le_trans; [exact Hhi |]. apply pow2_le. lia. }
  destruct (Z.eqb_spec (Zpos m) 0); [lia |].
  destruct (Z.eqb_spec (Zpos m) (2 ^ prec)); [lia |].
  unfold finite_or_inf. destruct (Z.leb_spec e (emax - prec)); [| lia]. reflexivity.
Qed.

Lemma round_at_sval (x : spec_float) :
  SpecFloat.valid_binary prec emax x = true -> SFfinite x = true ->
  SFsame (round_at prec emax (SpecFloat.emin prec emax) (sval (SpecFloat.emin prec emax) x)) x.
Proof using Hprec.
  intros Hv Hf. destruct x as [s|s| |s m e]; try discriminate.
  - right. split; reflexivity.
  - left. cbn [sval SpecFloat.valid_binary] in * .
    destruct (bounded_facts m e Hv) as (HE & Hmax & Hmin & Hd & _).
    assert (Hp := pow2_pos (e - SpecFloat.emin prec emax) ltac:(lia)).
    rewrite round_at_cond_Zopp by nia.
    rewrite <- (rounded_canonical s m e Hv).
    rewrite <- (rounded_shift prec emax s (Zpos m) e (e - SpecFloat.emin prec emax)) by lia.
    f_equal. lia.
Qed.

Lemma binary_normalize_round_at (v e : Z) :
  SpecFloat.emin prec emax <= e ->
  binary_normalize prec emax v e false
  = round_at prec emax (SpecFloat.emin prec emax) (v * 2 ^ (e - SpecFloat.emin prec emax)).
Proof using Hprec.
  intros He. assert (Hp := pow2_pos (e - SpecFloat.emin prec emax) ltac:(lia)).
  assert (HE : forall x, SpecFloat.emin prec emax <= SpecFloat.fexp prec emax x)
    by apply fexp_ge_emin.
  destruct v as [|p|p]; cbn [binary_normalize].
  - reflexivity.
  - rewrite round_at_pos by nia. apply binary_round_at; auto.
  - rewrite round_at_neg by nia.
    rewrite (binary_round_at prec emax Hprec true p e (SpecFloat.emin prec emax)) by auto.
    f_equal. lia.
Qed.

Lemma cond_Zopp_mul (s : bool) (a b : Z) : cond_Zopp s a * b = cond_Zopp s (a * b).
Proof. destruct s; cbn [cond_Zopp]; lia. Qed.

(** Addition of finite floats: the exact sum, rounded. *)
Lemma SFadd_round (x z : spec_float) :
  SpecFloat.valid_binary prec emax x = true -> SpecFloat.valid_binary prec emax z = true ->
  SFfinite x = true -> SFfinite z = true ->
  SFsame (SFadd prec emax x z)
         (round_at prec emax (SpecFloat.emin prec emax)
            (sval (SpecFloat.emin prec emax) x + sval (SpecFloat.emin prec emax) z)).
Proof using Hprec.
  intros Hx Hz Fx Fz.
  destruct x as [sx|sx| |sx mx ex]; try discriminate;
    destruct z as [sz|sz| |sz mz ez]; try discriminate.
  - right. split; [destruct sx, sz |]; reflexivity.
  - cbn [SFadd sval]. rewrite Z.add_0_l. apply SFsame_sym.
    apply (round_at_sval (S754_finite sz mz ez)); auto.
  - cbn [SFadd sval]. rewrite Z.add_0_r. apply SFsame_sym.
    apply (round_at_sval (S754_finite sx mx ex)); auto.
  - left. cbn [SFadd sval SpecFloat.valid_binary] in * .
    destruct (bounded_facts mx ex Hx) as (_ & _ & Hminx & _).
    destruct (bounded_facts mz ez Hz) as (_ & _ & Hminz & _).
    set (e := Z.min ex ez).
    destruct (shl_align_value mx ex e ltac:(lia)) as [-> _].
    destruct (shl_align_value mz ez e ltac:(lia)) as [-> _].
    rewrite binary_normalize_round_at by lia. f_equal.
    rewrite Z.mul_add_distr_r, !cond_Zopp_mul, <- !Z.mul_assoc, <- !pow2_add by lia.
    f_equal; f_equal; f_equal; f_equal; lia.
Qed.

Lemma Zdigits2_ge (m k : Z) : 0 <= k -> 2 ^ k <= m -> k + 1 <= Zdigits2 m.
Proof.
  intros Hk H. assert (Hp := pow2_pos k Hk).
  rewrite Zdigits2_log2 by lia.
  assert (k <= Z.log2 m) by (apply Z.log2_le_pow2; lia). lia.
Qed.

(** The exact product of two canonical mantissas is never shifted left. *)
Lemma mul_exponent_ok (mx mz : positive) (ex ez : Z) :
  bounded prec emax mx ex = true -> bounded prec emax mz ez = true ->
  ex + ez <= SpecFloat.fexp prec emax (Zdigits2 (Zpos (mx * mz)) + (ex + ez)).
Proof using Hprec Hemax.
  intros Hx Hz.
  destruct (bounded_facts mx ex Hx) as (_ & _ & Hminx & Hdx & Hcx).
  destruct (bounded_facts mz ez Hz) as (_ & _ & Hminz & Hdz & Hcz).
  destruct (Zdigits2_bounds (Zpos mx) ltac:(lia)) as (Hpx & Hlx & _).
  destruct (Zdigits2_bounds (Zpos mz) ltac:(lia)) as (Hpz & Hlz & _).
  assert (Hd : Zdigits2 (Zpos mx) + Zdigits2 (Zpos mz) - 1 <= Zdigits2 (Zpos (mx * mz))).
  { replace (Zdigits2 (Zpos mx) + Zdigits2 (Zpos mz) - 1)
      with ((Zdigits2 (Zpos mx) - 1 + (Zdigits2 (Zpos mz) - 1)) + 1) by lia.
    apply Zdigits2_ge; [lia |]. rewrite pow2_add by lia. rewrite Pos2Z.inj_mul.
    apply Z.mul_le_mono_nonneg; try lia; apply Z.pow_nonneg; lia. }
  assert (He := emin_nonpos).
  unfold SpecFloat.fexp. lia.
Qed.

(** Multiplication of finite floats: the exact product, rounded. *)
Lemma SFmul_round (x z : spec_float) :
  SpecFloat.valid_binary prec emax x = true -> SpecFloat.valid_binary prec emax z = true ->
  SFfinite x = true -> SFfinite z = true ->
  SFsame (SFmul prec emax x z)
         (round_at prec emax (2 * SpecFloat.emin prec emax)
            (sval (SpecFloat.emin prec emax) x * sval (SpecFloat.emin prec emax) z)).
Proof using Hprec Hemax.
  intros Hx Hz Fx Fz.
  destruct x as [sx|sx| |sx mx ex]; try discriminate;
    destruct z as [sz|sz| |sz mz ez]; try discriminate;
    try (right; split; reflexivity).
  - right. cbn [sval]. rewrite Z.mul_0_r. split; reflexivity.
  - left. cbn [SFmul sval SpecFloat.valid_binary] in * .
    assert (Hok := mul_exponent_ok mx mz ex ez Hx Hz).
    destruct (bounded_facts mx ex Hx) as (_ & _ & Hminx & _).
    destruct (bounded_facts mz ez Hz) as (_ & _ & Hminz & _).
    rewrite binary_round_aux_rounded by (auto; lia).
    set (em := SpecFloat.emin prec emax) in * .
    assert (Hpx := pow2_pos (ex - em) ltac:(lia)).
    assert (Hpz := pow2_pos (ez - em) ltac:(lia)).
    replace (cond_Zopp sx (Z.pos mx * 2 ^ (ex - em)) * cond_Zopp sz (Z.pos mz * 2 ^ (ez - em)))
      with (cond_Zopp (xorb sx sz) (Z.pos (mx * mz) * 2 ^ (ex + ez - 2 * em))).
    + rewrite round_at_cond_Zopp.
      * rewrite <- (rounded_shift prec emax (xorb sx sz) (Zpos (mx * mz)) (ex + ez)
                      (ex + ez - 2 * em)) by (auto; lia).
        f_equal. lia.
      * assert (0 < 2 ^ (ex + ez - 2 * em)) by (apply pow2_pos; lia). nia.
    + replace (ex + ez - 2 * em) with ((ex - em) + (ez - em)) by lia.
      rewrite pow2_add, Pos2Z.inj_mul by lia.
      destruct sx, sz; cbn [cond_Zopp xorb]; ring.
Qed.

End OpFacts.

Section MonoFacts.
Import Rounding.
Local Open Scope Z_scope.

Variables prec emax : Z.
Hypothesis Hprec : 0 < prec.
Hypothesis Hemax : prec < emax.

Lemma SFnan_same (a b : spec_float) : SFsame a b -> SFnan a = SFnan b.
Proof. intros [-> | [Ha Hb]]; [reflexivity |]. destruct a, b; try discriminate; reflexivity. Qed.

Lemma SFleb_neg_inf (b : spec_float) : SFnan b = false -> SFleb (S754_infinity true) b = true.
Proof. destruct b as [[]|[]| |[] m e]; try reflexivity; discriminate. Qed.

Lemma SFleb_pos_inf (a : spec_float) : SFnan a = false -> SFleb a (S754_infinity false) = true.
Proof. destruct a as [[]|[]| |[] m e]; try reflexivity; discriminate. Qed.

Lemma SFleb_not_nan (a b : spec_float) : SFleb a b = true -> SFnan a = false /\ SFnan b = false.
Proof. destruct a as [[]|[]| |[] ma ea], b as [[]|[]| |[] mb eb]; try discriminate; auto. Qed.

(** Order of canonical mantissas is the order of their values. *)
Lemma canonical_le_value (mx my : positive) (ex ey : Z) :
  bounded prec emax mx ex = true -> bounded prec emax my ey = true ->
  SFleb (S754_finite false mx ex) (S754_finite false my ey) = true ->
  Zpos mx * 2 ^ (ex - SpecFloat.emin prec emax) <= Zpos my * 2 ^ (ey - SpecFloat.emin prec emax).
Proof using Hprec.
  intros Hx Hy Hle.
  destruct (bounded_facts prec emax mx ex Hx) as (_ & _ & Hminx & Hdx & Hcx).
  destruct (bounded_facts prec emax my ey Hy) as (_ & _ & Hminy & Hdy & Hcy).
  set (em := SpecFloat.emin prec emax) in * .
  unfold SFleb, SFcompare in Hle.
  destruct (Z.compare_spec ex ey) as [E|L|G]; [| | discriminate].
  - subst ey. rewrite Pos.compare_cont_spec in Hle. cbn [Pos.switch_Eq] in Hle.
    apply Z.mul_le_mono_nonneg_r; [apply Z.pow_nonneg; lia |].
    destruct (Pos.compare_spec mx my); try discriminate; lia.
  - destruct (Zdigits2_bounds (Zpos mx) ltac:(lia)) as (_ & _ & Hhx).
    destruct (Zdigits2_bounds (Zpos my) ltac:(lia)) as (_ & Hly & _).
    assert (Hdy' : Zdigits2 (Zpos my) = prec) by lia.
    assert (H1 : Zpos mx * 2 ^ (ex - em) <= 2 ^ (prec + (ex - em))).
    { rewrite pow2_add by lia. apply Z.mul_le_mono_nonneg_r; [apply Z.pow_nonneg; lia |].
      assert (2 ^ Zdigits2 (Zpos mx) <= 2 ^ prec) by (apply pow2_le; lia). lia. }
    assert (H2 : 2 ^ (prec - 1 + (ey - em)) <= Zpos my * 2 ^ (ey - em)).
    { rewrite pow2_add by lia. apply Z.mul_le_mono_nonneg_r; [apply Z.pow_nonneg; lia |].
      rewrite <- Hdy'. exact Hly. }
    assert (H3 : 2 ^ (prec + (ex - em)) <= 2 ^ (prec - 1 + (ey - em))) by (apply pow2_le; lia).
    lia.
Qed.

Lemma SFleb_sval (x y : spec_float) :
  SpecFloat.valid_binary prec emax x = true -> SpecFloat.valid_binary prec emax y = true ->
  SFfinite x = true -> SFfinite y = true -> SFleb x y = true ->
  sval (SpecFloat.emin prec emax) x <= sval (SpecFloat.emin prec emax) y.
Proof using Hprec.
  intros Vx Vy Fx Fy Hle.
  assert (Hpos : forall (m : positive) (e : Z), bounded prec emax m e = true ->
             0 < Zpos m * 2 ^ (e - SpecFloat.emin prec emax)).
  { intros m e Hb. destruct (bounded_facts prec emax m e Hb) as (_ & _ & Hmin & _).
    assert (0 < 2 ^ (e - SpecFloat.emin prec emax)) by (apply pow2_pos; lia). nia. }
  destruct x as [sx|sx| |sx mx ex]; try discriminate;
    destruct y as [sy|sy| |sy my ey]; try discriminate; cbn [sval SpecFloat.valid_binary] in * .
  - specialize (Hpos my ey Vy). destruct sy; [discriminate | cbn [cond_Zopp]; lia].
  - specialize (Hpos mx ex Vx). destruct sx; [cbn [cond_Zopp]; lia | discriminate].
  - assert (Hx := Hpos mx ex Vx). assert (Hy := Hpos my ey Vy).
    destruct sx, sy; cbn [cond_Zopp]; try lia; try discriminate.
    + change (S754_finite true mx ex) with (SFopp (S754_finite false mx ex)) in Hle.
      change (S754_finite true my ey) with (SFopp (S754_finite false my ey)) in Hle.
      rewrite SFleb_opp in Hle.
      assert (H := canonical_le_value my mx ey ex Vy Vx Hle). lia.
    + apply canonical_le_value; assumption.
Qed.

Lemma SFle_or_nan_same (a a' b b' : spec_float) :
  SFsame a a' -> SFsame b b' -> SFle_or_nan a' b' -> SFle_or_nan a b.
Proof.
  intros Ha Hb. unfold SFle_or_nan.
  rewrite (SFnan_same a a' Ha), (SFnan_same b b' Hb), (SFleb_same_l a a' b Ha),
    (SFleb_same_r a' b b' Hb). auto.
Qed.

Lemma SFadd_finite_mono_l (x y z : spec_float) :
  SpecFloat.valid_binary prec emax x = true -> SpecFloat.valid_binary prec emax y = true ->
  SpecFloat.valid_binary prec emax z = true ->
  SFfinite x = true -> SFfinite y = true -> SFfinite z = true ->
  SFleb x y = true ->
  SFleb (SFadd prec emax x z) (SFadd prec emax y z) = true.
Proof using Hprec.
  intros Vx Vy Vz Fx Fy Fz Hle.
  rewrite (SFleb_same_l _ _ _ (SFadd_round prec emax Hprec x z Vx Vz Fx Fz)).
  rewrite (SFleb_same_r _ _ _ (SFadd_round prec emax Hprec y z Vy Vz Fy Fz)).
  apply round_at_mono; [exact Hprec | lia |].
  assert (H := SFleb_sval x y Vx Vy Fx Fy Hle). lia.
Qed.

Lemma SFadd_finite_mono_r (x y z : spec_float) :
  SpecFloat.valid_binary prec emax x = true -> SpecFloat.valid_binary prec emax y = true ->
  SpecFloat.valid_binary prec emax z = true ->
  SFfinite x = true -> SFfinite y = true -> SFfinite z = true ->
  SFleb x y = true ->
  SFleb (SFadd prec emax z x) (SFadd prec emax z y) = true.
Proof using Hprec.
  intros Vx Vy Vz Fx Fy Fz Hle.
  rewrite (SFleb_same_l _ _ _ (SFadd_round prec emax Hprec z x Vz Vx Fz Fx)).
  rewrite (SFleb_same_r _ _ _ (SFadd_round prec emax Hprec z y Vz Vy Fz Fy)).
  apply round_at_mono; [exact Hprec | lia |].
  assert (H := SFleb_sval x y Vx Vy Fx Fy Hle). lia.
Qed.

Lemma SFadd_finite_not_nan (x z : spec_float) :
  SpecFloat.valid_binary prec emax x = true -> SpecFloat.valid_binary prec emax z = true ->
  SFfinite x = true -> SFfinite z = true ->
  SFnan (SFadd prec emax x z) = false.
Proof using Hprec.
  intros Vx Vz Fx Fz.
  rewrite (SFnan_same _ _ (SFadd_round prec emax Hprec x z Vx Vz Fx Fz)).
  apply round_at_not_nan.
Qed.

Lemma SFmul_finite_not_nan (x z : spec_float) :
  SpecFloat.valid_binary prec emax x = true -> SpecFloat.valid_binary prec emax z = true ->
  SFfinite x = true -> SFfinite z = true ->
  SFnan (SFmul prec emax x z) = false.
Proof using Hprec Hemax.
  intros Vx Vz Fx Fz.
  rewrite (SFnan_same _ _ (SFmul_round prec emax Hprec Hemax x z Vx Vz Fx Fz)).
  apply round_at_not_nan.
Qed.

Lemma SFmul_finite_mono_l (x y z : spec_float) :
  SpecFloat.valid_binary prec emax x = true -> SpecFloat.valid_binary prec emax y = true ->
  SpecFloat.valid_binary prec emax z = true ->
  SFfinite x = true -> SFfinite y = true -> SFfinite z = true ->
  SFleb x y = true -> SFleb (S754_zero false) z = true ->
  SFleb (SFmul prec emax x z) (SFmul prec emax y z) = true.
Proof using Hprec Hemax.
  intros Vx Vy Vz Fx Fy Fz Hle Hz.
  rewrite (SFleb_same_l _ _ _ (SFmul_round prec emax Hprec Hemax x z Vx Vz Fx Fz)).
  rewrite (SFleb_same_r _ _ _ (SFmul_round prec emax Hprec Hemax y z Vy Vz Fy Fz)).
  assert (He := emin_nonpos prec emax Hprec Hemax).
  apply round_at_mono; [exact Hprec | lia |].
  assert (H := SFleb_sval x y Vx Vy Fx Fy Hle).
  assert (H0 := SFleb_sval (S754_zero false) z eq_refl Vz eq_refl Fz Hz).
  cbn [sval] in H0. nia.
Qed.

End MonoFacts.

Section GeneralMono.
Import Rounding.
Local Open Scope Z_scope.

Variables prec emax : Z.
Hypothesis Hprec : 0 < prec.
Hypothesis Hemax : prec < emax.

Ltac sf_destruct x y z :=
  destruct x as [[]|[]| |[] ?mx ?ex], y as [[]|[]| |[] ?my ?ey], z as [[]|[]| |[] ?mz ?ez].

Ltac sf_close :=
  first [ discriminate
        | apply SFleb_neg_inf; assumption
        | apply SFleb_pos_inf; assumption
        | apply SFleb_refl; assumption
        | reflexivity ].

Lemma SFadd_nan_l (z : spec_float) : SFadd prec emax S754_nan z = S754_nan.
Proof. destruct z; reflexivity. Qed.

Lemma SFadd_nan_r (x : spec_float) : SFadd prec emax x S754_nan = S754_nan.
Proof. destruct x; reflexivity. Qed.

Lemma SFmul_nan_l (z : spec_float) : SFmul prec emax S754_nan z = S754_nan.
Proof. destruct z; reflexivity. Qed.

Lemma SFmul_nan_r (x : spec_float) : SFmul prec emax x S754_nan = S754_nan.
Proof. destruct x; reflexivity. Qed.

Lemma SFnan_true (x : spec_float) : SFnan x = true -> x = S754_nan.
Proof. destruct x; try discriminate. reflexivity. Qed.

(** [x <= y] gives [x + z <= y + z], unless a sum is NaN. *)
Lemma SFadd_mono_l (x y z : spec_float) :
  SpecFloat.valid_binary prec emax x = true -> SpecFloat.valid_binary prec emax y = true ->
  SpecFloat.valid_binary prec emax z = true ->
  SFle_or_nan x y -> SFle_or_nan (SFadd prec emax x z) (SFadd prec emax y z).
Proof using Hprec.
  intros Vx Vy Vz [Hx | [Hy | Hle]].
  - left. rewrite (SFnan_true x Hx), SFadd_nan_l. reflexivity.
  - right; left. rewrite (SFnan_true y Hy), SFadd_nan_l. reflexivity.
  - destruct (SFfinite x && SFfinite y && SFfinite z) eqn:F.
    + apply andb_prop in F as [F Fz]. apply andb_prop in F as [Fx Fy].
      right; right. apply SFadd_finite_mono_l; auto.
    + destruct (SFnan (SFadd prec emax x z)) eqn:Ha; [left; exact Ha |].
      destruct (SFnan (SFadd prec emax y z)) eqn:Hb; [right; left; exact Hb |].
      right; right. clear Vx Vy Vz.
      sf_destruct x y z; cbn [SFadd SFnan SFfinite andb] in *; sf_close.
Qed.

Lemma SFadd_mono_r (x y z : spec_float) :
  SpecFloat.valid_binary prec emax x = true -> SpecFloat.valid_binary prec emax y = true ->
  SpecFloat.valid_binary prec emax z = true ->
  SFle_or_nan x y -> SFle_or_nan (SFadd prec emax z x) (SFadd prec emax z y).
Proof using Hprec.
  intros Vx Vy Vz [Hx | [Hy | Hle]].
  - left. rewrite (SFnan_true x Hx), SFadd_nan_r. reflexivity.
  - right; left. rewrite (SFnan_true y Hy), SFadd_nan_r. reflexivity.
  - destruct (SFfinite x && SFfinite y && SFfinite z) eqn:F.
    + apply andb_prop in F as [F Fz]. apply andb_prop in F as [Fx Fy].
      right; right. apply SFadd_finite_mono_r; auto.
    + destruct (SFnan (SFadd prec emax z x)) eqn:Ha; [left; exact Ha |].
      destruct (SFnan (SFadd prec emax z y)) eqn:Hb; [right; left; exact Hb |].
      right; right. clear Vx Vy Vz.
      sf_destruct x y z; cbn [SFadd SFnan SFfinite andb] in *; sf_close.
Qed.

(** [x <= y] and [0 <= z] give [x * z <= y * z], unless a product is NaN. *)
Lemma SFmul_mono_l (x y z : spec_float) :
  SpecFloat.valid_binary prec emax x = true -> SpecFloat.valid_binary prec emax y = true ->
  SpecFloat.valid_binary prec emax z = true ->
  SFle_or_nan x y -> SFle_or_nan (S754_zero false) z ->
  SFle_or_nan (SFmul prec emax x z) (SFmul prec emax y z).
Proof using Hprec Hemax.
  intros Vx Vy Vz [Hx | [Hy | Hle]] Hz.
  - left. rewrite (SFnan_true x Hx), SFmul_nan_l. reflexivity.
  - right; left. rewrite (SFnan_true y Hy), SFmul_nan_l. reflexivity.
  - destruct Hz as [Hz | [Hz | Hz]]; [discriminate | |].
    { left. rewrite (SFnan_true z Hz), SFmul_nan_r. reflexivity. }
    destruct (SFfinite x && SFfinite y && SFfinite z) eqn:F.
    + apply andb_prop in F as [F Fz]. apply andb_prop in F as [Fx Fy].
      right; right. apply SFmul_finite_mono_l; auto.
    + destruct (SFnan (SFmul prec emax x z)) eqn:Ha; [left; exact Ha |].
      destruct (SFnan (SFmul prec emax y z)) eqn:Hb; [right; left; exact Hb |].
      right; right. clear Vx Vy Vz.
      sf_destruct x y z; cbn [SFmul SFnan SFfinite andb xorb] in *; sf_close.
Qed.

(** A quotient of a non-negative number by a positive finite one is not negative. *)
Lemma binary_round_aux_nonneg (m e : Z) (l : location) :
  SFle_or_nan (S754_zero false) (binary_round_aux prec emax false m e l).
Proof.
  unfold binary_round_aux.
  destruct (shr_fexp prec emax m e l) as [mrs' e'].
  destruct (shr_fexp prec emax _ e' loc_Exact) as [mrs'' e''].
  destruct (shr_m mrs''); [right; right; reflexivity | | right; left; reflexivity].
  destruct (e'' <=? emax - prec); right; right; reflexivity.
Qed.

Lemma SFdiv_nonneg (x : spec_float) (my : positive) (ey : Z) :
  SFle_or_nan (S754_zero false) x ->
  SFle_or_nan (S754_zero false) (SFdiv prec emax x (S754_finite false my ey)).
Proof.
  intros [Hx | [Hx | Hx]]; [discriminate | |].
  - rewrite (SFnan_true x Hx). right; left. reflexivity.
  - destruct x as [[]|[]| |[] mx ex]; try discriminate; try (right; right; reflexivity).
    cbn [SFdiv xorb].
    destruct (SFdiv_core_binary prec emax (Z.pos mx) ex (Z.pos my) ey) as [[mz ez] lz].
    apply binary_round_aux_nonneg.
Qed.

Lemma SFle_or_nan_trans_zero (a b : spec_float) :
  SFle_or_nan (S754_zero false) a -> SFle_or_nan a b -> SFnan a = false ->
  SFle_or_nan (S754_zero false) b.
Proof.
  intros H H' Ha.
  destruct H as [H | [H | H]]; [discriminate | congruence |].
  destruct H' as [H' | [H' | H']]; [congruence | right; left; assumption |].
  right; right.
  destruct a as [[]|[]| |[] ma ea]; try discriminate;
    destruct b as [[]|[]| |[] mb eb]; try discriminate; reflexivity.
Qed.

Lemma SFcompare_antisym (a b : spec_float) :
  SFcompare b a = match SFcompare a b with Some c => Some (CompOpp c) | None => None end.
Proof.
  destruct a as [[]|[]| |[] ma ea], b as [[]|[]| |[] mb eb]; try reflexivity;
    cbn [SFcompare]; f_equal;
    rewrite (Z.compare_antisym ea eb);
    destruct (ea ?= eb); cbn [CompOpp]; try reflexivity;
    rewrite !Pos.compare_cont_spec; cbn [Pos.switch_Eq];
    rewrite (Pos.compare_antisym ma mb); destruct (ma ?= mb)%positive; reflexivity.
Qed.

Lemma SFle_or_nan_not_lt (a b : spec_float) : SFle_or_nan a b -> SFltb b a = false.
Proof.
  unfold SFltb. rewrite (SFcompare_antisym a b).
  intros [H | [H | H]].
  - rewrite (SFnan_true a H). reflexivity.
  - rewrite (SFnan_true b H). destruct a; reflexivity.
  - unfold SFleb in H. destruct (SFcompare a b) as [[]|]; try discriminate; reflexivity.
Qed.

Lemma SFle_or_nan_leb (a b : spec_float) :
  SFle_or_nan a b -> SFnan a = false -> SFnan b = false -> SFleb a b = true.
Proof. intros [H | [H | H]] Ha Hb; congruence. Qed.

Lemma SFeqb_refl (a : spec_float) : SFeqb a a = negb (SFnan a).
Proof.
  destruct a as [[]|[]| |[] m e]; try reflexivity;
    unfold SFeqb, SFcompare; rewrite Z.compare_refl, Pos.compare_cont_spec, Pos.compare_refl;
    reflexivity.
Qed.

Lemma SFeqb_zero (a : spec_float) : SFeqb a (S754_zero false) = SFzero a.
Proof. destruct a as [[]|[]| |[] m e]; reflexivity. Qed.

End GeneralMono.

Section ZeroFacts.
Import Rounding.
Local Open Scope Z_scope.

Variables prec emax : Z.
Hypothesis Hprec : 0 < prec.
Hypothesis Hemax : prec < emax.






End ZeroFacts.

Section WholeNumbers.
Import Rounding.
Local Open Scope Z_scope.

Variables prec emax : Z.
Hypothesis Hprec : 0 < prec.
Hypothesis Hemax : prec < emax.

(** A whole number below [2^prec] is a float. *)
Lemma round_at_whole (k : Z) :
  0 <= k < 2 ^ prec ->
  let x := round_at prec emax (SpecFloat.emin prec emax) (k * 2 ^ (- SpecFloat.emin prec emax)) in
  SFfinite x = true /\ sval (SpecFloat.emin prec emax) x = k * 2 ^ (- SpecFloat.emin prec emax).
Proof using Hprec Hemax.
  intros Hk x. subst x.
  assert (Hem := emin_nonpos prec emax Hprec Hemax).
  set (em := SpecFloat.emin prec emax) in * .
  assert (Hpe := pow2_pos (- em) ltac:(lia)).
  destruct (Z.eq_dec k 0) as [-> | Hk0]; [split; reflexivity |].
  rewrite round_at_pos by nia.
  destruct (Zdigits2_bounds k ltac:(lia)) as (Hd & Hlo & Hhi).
  assert (Hdp : Zdigits2 k <= prec) by (apply Zdigits2_le; lia).
  unfold rounded. rewrite Zdigits2_mul_pow2 by lia.
  replace (Zdigits2 k + - em + em) with (Zdigits2 k) by lia.
  assert (HE : SpecFloat.fexp prec emax (Zdigits2 k) = Zdigits2 k - prec).
  { unfold SpecFloat.fexp. fold em. unfold em, SpecFloat.emin. lia. }
  rewrite HE. set (E := Zdigits2 k - prec).
  assert (HEm : em <= E) by (unfold E, em, SpecFloat.emin; lia).
  assert (Hv : k * 2 ^ (- em) = (k * 2 ^ (- E)) * 2 ^ (E - em)).
  { rewrite <- Z.mul_assoc, <- pow2_add by lia. f_equal. f_equal. lia. }
  assert (Hr : rneD (k * 2 ^ (- em)) (2 ^ (E - em)) = k * 2 ^ (- E)).
  { rewrite Hv. apply rneD_exact. apply pow2_pos. lia. }
  rewrite Hr.
  assert (HpE := pow2_pos (- E) ltac:(lia)).
  assert (Hm2 : 0 < k * 2 ^ (- E) < 2 ^ prec).
  { split; [nia |].
    assert (HP : 2 ^ prec = 2 ^ Zdigits2 k * 2 ^ (- E)).
    { rewrite <- pow2_add by lia. f_equal. unfold E. lia. }
    rewrite HP. apply Z.mul_lt_mono_pos_r; lia. }
  destruct (Z.eqb_spec (k * 2 ^ (- E)) 0); [lia |].
  destruct (Z.eqb_spec (k * 2 ^ (- E)) (2 ^ prec)); [lia |].
  unfold finite_or_inf. destruct (Z.leb_spec E (emax - prec)); [| lia].
  split; [reflexivity |]. cbn [sval cond_Zopp]. fold em.
  rewrite Z2Pos.id by lia. symmetry. exact Hv.
Qed.

End WholeNumbers.

Section Binary64Facts.
Import Rounding Binary64.
Local Open Scope js_scope.

Lemma prec_pos : (0 < prec)%Z.
Proof. reflexivity. Qed.

Lemma prec_lt_emax : (prec < emax)%Z.
Proof. reflexivity. Qed.

Lemma is_nan_spec (x : float) : PrimFloat.is_nan x = SFnan (Prim2SF x).
Proof.
  unfold PrimFloat.is_nan. rewrite eqb_spec, SFeqb_refl, negb_involutive. reflexivity.
Qed.

Lemma float_truthy_spec (x : float) :
  float_truthy x = negb (SFzero (Prim2SF x) || SFnan (Prim2SF x)).
Proof.
  unfold float_truthy. rewrite is_nan_spec, eqb_spec.
  change (Prim2SF PrimFloat.zero) with (S754_zero false). rewrite SFeqb_zero. reflexivity.
Qed.

Lemma le_or_nan_add_l (x y z : float) : le_or_nan x y -> le_or_nan (x +. z) (y +. z).
Proof.
  unfold le_or_nan. change (x +. z) with (PrimFloat.add x z).
  change (y +. z) with (PrimFloat.add y z). rewrite !add_spec.
  apply (SFadd_mono_l prec emax prec_pos); apply Prim2SF_valid.
Qed.

Lemma le_or_nan_add_r (x y z : float) : le_or_nan x y -> le_or_nan (z +. x) (z +. y).
Proof.
  unfold le_or_nan. change (z +. x) with (PrimFloat.add z x).
  change (z +. y) with (PrimFloat.add z y). rewrite !add_spec.
  apply (SFadd_mono_r prec emax prec_pos); apply Prim2SF_valid.
Qed.

Lemma le_or_nan_mul_l (x y z : float) :
  le_or_nan x y -> nonneg_or_nan z -> le_or_nan (x *. z) (y *. z).
Proof.
  unfold le_or_nan, nonneg_or_nan. change (x *. z) with (PrimFloat.mul x z).
  change (y *. z) with (PrimFloat.mul y z). rewrite !mul_spec.
  apply (SFmul_mono_l prec emax prec_pos prec_lt_emax); apply Prim2SF_valid.
Qed.

Lemma le_or_nan_refl (x : float) : le_or_nan x x.
Proof.
  unfold le_or_nan, SFle_or_nan. destruct (SFnan (Prim2SF x)) eqn:E; [left; reflexivity |].
  right; right. apply SFleb_refl. exact E.
Qed.

(** [q || 0] keeps the order of two numbers. *)
Lemma orElse_zero_same (x : float) :
  SFnan (Prim2SF x) = false -> SFsame (Prim2SF (x ||. lit 0)) (Prim2SF x).
Proof.
  intros Hx. unfold orElse. change (truthy x) with (float_truthy x).
  rewrite float_truthy_spec, Hx, orb_false_r.
  destruct (SFzero (Prim2SF x)) eqn:Hz; cbn [negb]; [| left; reflexivity].
  right. split; [reflexivity | exact Hz].
Qed.

Lemma orElse_zero_nan (x : float) :
  SFnan (Prim2SF x) = true -> x ||. lit 0 = lit 0.
Proof.
  intros Hx. unfold orElse. change (truthy x) with (float_truthy x).
  rewrite float_truthy_spec, Hx, orb_true_r. reflexivity.
Qed.

Lemma leb_orElse_zero (x y : float) :
  PrimFloat.leb x y = true -> le_or_nan (x ||. lit 0) (y ||. lit 0).
Proof.
  rewrite leb_spec. intros H. destruct (SFleb_not_nan _ _ H) as [Hx Hy].
  right; right.
  rewrite (SFleb_same_l _ _ _ (orElse_zero_same x Hx)).
  rewrite (SFleb_same_r _ _ _ (orElse_zero_same y Hy)). exact H.
Qed.

Lemma nonneg_orElse_zero (x : float) :
  PrimFloat.leb (lit 0) x = true -> nonneg_or_nan (x ||. lit 0).
Proof.
  rewrite leb_spec. change (Prim2SF (lit 0)) with (S754_zero false). intros H.
  destruct (SFleb_not_nan _ _ H) as [_ Hx]. right; right.
  rewrite (SFleb_same_r _ _ _ (orElse_zero_same x Hx)). exact H.
Qed.

Lemma nonneg_zero : nonneg_or_nan (lit 0).
Proof. right; right. reflexivity. Qed.

(** [1 + m / 100] is not negative when [m] is not. *)
Lemma markup_factor_nonneg (m : float) :
  nonneg_or_nan m -> nonneg_or_nan (lit 1 +. m /. lit 100).
Proof.
  intros Hm.
  assert (Hd : nonneg_or_nan (m /. lit 100)).
  { unfold nonneg_or_nan in Hm. unfold nonneg_or_nan. change (m /. lit 100) with (PrimFloat.div m (lit 100)).
    rewrite div_spec.
    change (Prim2SF (lit 100)) with (S754_finite false 7036874417766400 (-46)).
    apply SFdiv_nonneg. exact Hm. }
  assert (H1 := le_or_nan_add_r (lit 0) (m /. lit 100) (lit 1) Hd).
  change (lit 1 +. lit 0) with (@lit float _ 1) in H1.
  unfold le_or_nan in H1. unfold nonneg_or_nan.
  apply (SFle_or_nan_trans_zero (Prim2SF (lit 1))); [right; right; reflexivity | exact H1 | reflexivity].
Qed.

End Binary64Facts.

Section WholeBinary64.
Import Rounding Binary64 Pdf Totals.
Local Open Scope js_scope.

Lemma lit_round_at (k : Z) :
  (0 <= k < 2 ^ 53)%Z ->
  Prim2SF (lit k) = round_at prec emax emin (k * 2 ^ (- emin)).
Proof.
  intros Hk. change (lit k) with (float_lit k). unfold float_lit.
  destruct (Z.ltb_spec k 0) as [|_]; [lia |].
  rewrite of_uint63_spec, Uint63.of_Z_spec, Z.mod_small
    by (change Uint63Axioms.wB with (2 ^ 63)%Z; lia).
  rewrite (binary_normalize_round_at prec emax prec_pos) by (vm_compute; discriminate).
  f_equal.
Qed.

Lemma lit_whole (k : Z) :
  (0 <= k < 2 ^ 53)%Z ->
  SFfinite (Prim2SF (lit k)) = true /\ sval emin (Prim2SF (lit k)) = (k * 2 ^ (- emin))%Z.
Proof.
  intros Hk. rewrite lit_round_at by exact Hk.
  apply (round_at_whole prec emax prec_pos prec_lt_emax). exact Hk.
Qed.

(** Whole numbers add without rounding while the sum stays below 2^53. *)
Lemma add_whole (a b : Z) :
  (0 <= a)%Z -> (0 <= b)%Z -> (a + b < 2 ^ 53)%Z -> lit a +. lit b = lit (a + b) :> float.
Proof.
  intros Ha Hb Hab. apply Prim2SF_inj.
  change (lit a +. lit b) with (PrimFloat.add (lit a) (lit b)). rewrite add_spec.
  destruct (lit_whole a ltac:(lia)) as [Fa Va]. destruct (lit_whole b ltac:(lia)) as [Fb Vb].
  destruct (lit_whole (a + b) ltac:(lia)) as [Fab Vab].
  assert (Hs := SFadd_round prec emax prec_pos (Prim2SF (lit a)) (Prim2SF (lit b))
                  (Prim2SF_valid _) (Prim2SF_valid _) Fa Fb).
  fold emin in Hs. rewrite Va, Vb, <- Z.mul_add_distr_r, <- lit_round_at in Hs by lia.
  destruct Hs as [Hs | [_ Hz]]; [exact Hs |].
  assert (Hk : (a + b = 0)%Z).
  { destruct (Prim2SF (lit (a + b))); try discriminate. cbn [sval] in Vab.
    assert (0 < 2 ^ (- emin))%Z by (apply pow2_pos; vm_compute; discriminate). nia. }
  assert (a = 0%Z) as -> by lia. assert (b = 0%Z) as -> by lia. reflexivity.
Qed.

Lemma orElse_whole (k : Z) : (0 <= k < 2 ^ 53)%Z -> lit k ||. lit 0 = lit k :> float.
Proof.
  intros Hk. unfold orElse. change (truthy (lit k)) with (float_truthy (lit k : float)).
  rewrite float_truthy_spec. destruct (lit_whole k Hk) as [Fk Vk].
  destruct (Prim2SF (lit k)) as [s|s| |s m e] eqn:E; try discriminate; [| reflexivity].
  cbn [SFzero orb negb]. cbn [sval] in Vk.
  assert (0 < 2 ^ (- emin))%Z by (apply pow2_pos; vm_compute; discriminate).
  assert (k = 0%Z) as -> by nia. reflexivity.
Qed.

End WholeBinary64.

(** ** The price calculator *)

Section PricingFacts.

(** *** Exact arithmetic: each operation computes the expected rational *)

Lemma denotes_proper (a : number) (q q' : Q) : denotes a q -> q == q' -> denotes a q'.
Proof. destruct a as [x|]; simpl; [| tauto]. intros Hx Hq. rewrite Hx. exact Hq. Qed.

Lemma denotes_lit (z : Z) : denotes (lit z) (inject_Z z).
Proof. simpl. reflexivity. Qed.

Lemma denotes_add (a b : number) (x y : Q) :
  denotes a x -> denotes b y -> denotes (nadd a b) (x + y).
Proof. destruct a, b; simpl; try tauto. intros -> ->. reflexivity. Qed.

Lemma denotes_sub (a b : number) (x y : Q) :
  denotes a x -> denotes b y -> denotes (nsub a b) (x - y).
Proof. destruct a, b; simpl; try tauto. intros -> ->. reflexivity. Qed.

Lemma denotes_mul (a b : number) (x y : Q) :
  denotes a x -> denotes b y -> denotes (nmul a b) (x * y).
Proof. destruct a, b; simpl; try tauto. intros -> ->. reflexivity. Qed.

Lemma denotes_div (a b : number) (x y : Q) :
  denotes a x -> denotes b y -> ~ y == 0 -> denotes (ndiv a b) (x / y).
Proof.
  destruct a as [p|], b as [r|]; simpl; try tauto. intros Hp Hr Hy.
  destruct (Qeq_bool r 0) eqn:E.
  - apply Qeq_bool_eq in E. rewrite Hr in E. contradiction.
  - simpl. rewrite Hp, Hr. reflexivity.
Qed.

Lemma denotes_orElse_zero (a : number) : denotes (orElse a (lit 0)) (valueOrZero a).
Proof.
  unfold orElse. destruct a as [x|]; simpl; [| reflexivity].
  destruct (Qeq_bool x 0) eqn:E; simpl; [| reflexivity].
  apply Qeq_bool_eq in E. symmetry. exact E.
Qed.

Lemma denotes_optOr_zero (f : PriceRule number -> number) (r : option (PriceRule number)) :
  denotes (optOr r f (lit 0)) (ruleValue f r).
Proof. destruct r as [x|]; simpl; [apply denotes_orElse_zero | reflexivity]. Qed.

Lemma denotes_num_eq (a b : number) (q : Q) : denotes a q -> denotes b q -> num_eq a b.
Proof. destruct a, b; simpl; try tauto. intros -> ->. reflexivity. Qed.

Lemma denotes_num_le (a b : number) (x y : Q) :
  denotes a x -> denotes b y -> x <= y -> num_le a b.
Proof. destruct a, b; simpl; try tauto. intros -> ->. tauto. Qed.

Lemma denotes_finite (a : number) (q : Q) : denotes a q -> is_finite a.
Proof. destruct a; simpl; tauto. Qed.

Lemma denotes_lineStep (materials : list (Material number)) (sum : number) (s : Q)
    (it : TechCardItem number) :
  denotes sum s -> denotes (lineStep materials sum it) (s + lineValue materials it).
Proof.
  intros Hs. unfold lineStep, lineValue, linePrice.
  apply denotes_add; [exact Hs |]. apply denotes_mul.
  - apply denotes_orElse_zero.
  - destruct (find _ materials) as [m|]; simpl; [apply denotes_orElse_zero | reflexivity].
Qed.

Lemma denotes_fold_lineStep (materials : list (Material number)) (arr : list (TechCardItem number)) :
  forall (sum : number) (s : Q),
    denotes sum s ->
    denotes (fold_left (lineStep materials) arr sum) (s + materialCostQ materials arr).
Proof.
  induction arr as [| it arr IH]; intros sum s Hs; simpl.
  - eapply denotes_proper; [exact Hs |]. unfold materialCostQ; simpl. ring.
  - eapply denotes_proper.
    + apply IH. apply denotes_lineStep. exact Hs.
    + unfold materialCostQ; simpl. ring.
Qed.

Lemma denotes_sumMaterialCost (materials : list (Material number)) (arr : list (TechCardItem number)) :
  denotes (sumMaterialCost materials arr) (materialCostQ materials arr).
Proof.
  unfold sumMaterialCost. eapply denotes_proper.
  - apply denotes_fold_lineStep. apply denotes_lit.
  - simpl. ring.
Qed.

Lemma denotes_applyMarkup (price : number) (p : Q) (r : option (PriceRule number)) :
  denotes price p -> denotes (applyMarkup price r) (p * markupFactor r).
Proof.
  intros Hp. unfold applyMarkup, markupFactor.
  apply denotes_mul; [exact Hp |].
  apply (denotes_add _ _ 1 (ruleValue markup r / 100)); [apply (denotes_lit 1) |].
  apply (denotes_div _ _ _ 100).
  - apply denotes_optOr_zero.
  - apply (denotes_lit 100).
  - discriminate.
Qed.

Lemma denotes_markup (base final : number) (b f : Q) :
  denotes base b -> denotes final f ->
  denotes (if gtb base (lit 0)
           then nmul (ndiv (nsub final base) base) (lit 100)
           else lit 0)
          (markupQ b f).
Proof.
  intros Hb Hf. unfold markupQ.
  destruct base as [x|]; simpl in Hb; [| tauto].
  change (gtb (Num x) (lit 0)) with (if Qlt_le_dec (inject_Z 0) x then true else false).
  destruct (Qlt_le_dec (inject_Z 0) x) as [Hpos|Hle]; destruct (Qlt_le_dec 0 b) as [Hpos'|Hle'].
  - apply (denotes_mul _ _ ((f - b) / b) 100); [| apply (denotes_lit 100)].
    apply denotes_div; [apply denotes_sub; [exact Hf | exact Hb] | exact Hb |].
    intros E. rewrite E in Hpos'. apply (Qlt_irrefl 0). exact Hpos'.
  - exfalso. rewrite Hb in Hpos. change (inject_Z 0) with 0 in Hpos. lra.
  - exfalso. rewrite Hb in Hle. change (inject_Z 0) with 0 in Hle. lra.
  - apply (denotes_lit 0).
Qed.

(** The calculator on a non-empty tech card, field by field. *)
Lemma calculateProductPrice_denotes (product : Product number)
    (materials : list (Material number)) (priceSettings : PriceSettings number) :
  techCardArr product <> [] ->
  let r := calculateProductPrice product materials priceSettings in
  denotes (materialCost r) (materialCostQ materials (techCardArr product)) /\
  denotes (res_workCost r) (ruleValue workCost (findProductType product priceSettings)) /\
  denotes (basePrice r) (basePriceQ product materials priceSettings) /\
  denotes (finalPrice r) (finalPriceQ product materials priceSettings) /\
  denotes (res_markup r)
    (markupQ (basePriceQ product materials priceSettings)
             (finalPriceQ product materials priceSettings)).
Proof.
  intros Hne. unfold calculateProductPrice.
  destruct (techCardArr product) as [| it arr] eqn:Harr; [contradiction |].
  cbn [length Nat.eqb].
  assert (Hmc := denotes_sumMaterialCost materials (it :: arr)).
  assert (Hwc := denotes_optOr_zero workCost (findProductType product priceSettings)).
  assert (Hbase : denotes
            (nadd (sumMaterialCost materials (it :: arr))
                  (optOr (findProductType product priceSettings) workCost (lit 0)))
            (basePriceQ product materials priceSettings)).
  { unfold basePriceQ. rewrite Harr. apply denotes_add; assumption. }
  assert (Hfinal : denotes
            (applyMarkup
               (applyMarkup
                  (nadd (sumMaterialCost materials (it :: arr))
                        (optOr (findProductType product priceSettings) workCost (lit 0)))
                  (findProductType product priceSettings))
               (findFinishType product priceSettings))
            (finalPriceQ product materials priceSettings)).
  { unfold finalPriceQ. apply denotes_applyMarkup, denotes_applyMarkup. exact Hbase. }
  cbn [materialCost res_workCost basePrice finalPrice res_markup].
  repeat split; try assumption.
  apply denotes_markup; assumption.
Qed.

(** The calculator always returns finite numbers on exact inputs. *)
Lemma calculateProductPrice_finite (product : Product number)
    (materials : list (Material number)) (priceSettings : PriceSettings number) :
  result_finite (calculateProductPrice product materials priceSettings).
Proof.
  destruct (techCardArr product) as [| it arr] eqn:Harr.
  - unfold calculateProductPrice. rewrite Harr. repeat split.
  - destruct (calculateProductPrice_denotes product materials priceSettings)
      as (H1 & H2 & H3 & H4 & H5); [rewrite Harr; discriminate |].
    repeat split; eapply denotes_finite; eassumption.
Qed.

Lemma sumQ_app (l1 l2 : list Q) : sumQ (l1 ++ l2) == sumQ l1 + sumQ l2.
Proof.
  induction l1 as [| x l1 IH]; simpl.
  - ring.
  - rewrite IH. ring.
Qed.

Lemma materialCostQ_middle (materials : list (Material number))
    (l1 l2 : list (TechCardItem number)) (it : TechCardItem number) :
  materialCostQ materials (l1 ++ it :: l2)
  == materialCostQ materials (l1 ++ l2) + lineValue materials it.
Proof.
  unfold materialCostQ. rewrite !map_app, !sumQ_app. simpl. ring.
Qed.

Lemma linePrice_same_material (materials : list (Material number)) (it it' : TechCardItem number) :
  materialId it' = materialId it -> linePrice materials it' = linePrice materials it.
Proof. intros E. unfold linePrice. rewrite E. reflexivity. Qed.

Lemma linePrice_nonneg (materials : list (Material number)) (it : TechCardItem number) :
  (forall m, In m materials -> num_le (lit 0) (mat_price m)) ->
  0 <= linePrice materials it.
Proof.
  intros Hprices. unfold linePrice.
  destruct (find _ materials) as [m|] eqn:Hfind; [| lra].
  apply find_some in Hfind as [Hin _]. specialize (Hprices m Hin).
  destruct (mat_price m) as [x|]; simpl in *; [exact Hprices | tauto].
Qed.

Lemma markupFactor_pos (r : option (PriceRule number)) :
  (forall x, r = Some x -> num_le (lit 0) (markup x)) -> 0 < markupFactor r.
Proof.
  intros Hr. unfold markupFactor, ruleValue.
  destruct r as [x|].
  - specialize (Hr x eq_refl). destruct (markup x) as [m|]; simpl in *; [| tauto].
    change (inject_Z 0) with 0 in Hr.
    assert (0 <= m / 100) by (apply Qle_shift_div_l; lra).
    lra.
  - change (0 < 1 + 0 / 100). reflexivity.
Qed.

(** C1, as stated, read on the binary64 arithmetic of the code: the final
      price of the example is not the double 3052.5.  The product
      1850 * 1.1 rounds to 2035.0000000000002, and that times 1.5 rounds to
      3052.5000000000005. *)
Lemma chain_binary64_final_is_not_3052_5 :
    ~ (PrimFloat.eqb (basePrice chainBinary64) 1850 = true /\
       PrimFloat.eqb (priceWithType chainProduct chainMaterials chainSettings) 2035 = true /\
       PrimFloat.eqb (finalPrice chainBinary64) 3052.5 = true).
Proof.
    intros (_ & _ & Hfinal). vm_compute in Hfinal. discriminate Hfinal.
Qed.

(** C1 (amended): the two markups are chained sequentially.  In exact
      arithmetic the example yields base price 1850, 2035 after the type
      markup and final price 3052.5.  In binary64 the calculator returns
      base price 1850 and final price 3052.5000000000005 (with the local
      [priceWithType] equal to 2035.0000000000002), within 1e-12 of the
      exact values. *)
Theorem markup_chaining_example :
    (num_eq (materialCost chainExact) (Num 850) /\
     num_eq (res_workCost chainExact) (Num 1000) /\
     num_eq (basePrice chainExact) (Num 1850) /\
     num_eq (priceWithType chainProduct chainMaterials chainSettings) (Num 2035) /\
     num_eq (finalPrice chainExact) (Num 3052.5)) /\
    (basePrice chainBinary64 = 1850%float /\
     priceWithType chainProduct chainMaterials chainSettings = 0x1.fcc0000000001p+10%float /\
     finalPrice chainBinary64 = 0x1.7d90000000001p+11%float /\
     PrimFloat.ltb (PrimFloat.abs (finalPrice chainBinary64 - 3052.5)) 0x1p-40 = true).
Proof.
    split.
    - repeat split; vm_compute; reflexivity.
    - repeat split; vm_compute; reflexivity.
Qed.

(** C4: a product whose bill of materials is empty gets the all-zero
      result, labour cost included, whatever the materials and the rule
      tables are.  This holds in every arithmetic, binary64 included. *)
Theorem empty_bom_all_zero {N : Type} `{JsArith N}
      (product : Product N) (materials : list (Material N)) (priceSettings : PriceSettings N) :
    techCardArr product = [] ->
    calculateProductPrice product materials priceSettings =
      {| materialCost := lit 0; res_workCost := lit 0; basePrice := lit 0;
         finalPrice := lit 0; res_markup := lit 0 |}.
Proof.
    intros Hempty. unfold calculateProductPrice. rewrite Hempty. reflexivity.
Qed.

Lemma empty_bom_all_zero_witness :
  techCardArr (N := number) emptyCardProduct = [] /\
  calculateProductPrice (N := number) emptyCardProduct chainMaterials chainSettings =
    {| materialCost := Num 0; res_workCost := Num 0; basePrice := Num 0;
       finalPrice := Num 0; res_markup := Num 0 |}.
Proof.
  split; [reflexivity |].
  exact (empty_bom_all_zero (N := number) emptyCardProduct chainMaterials chainSettings eq_refl).
Defined.

(** In exact arithmetic, where no product is NaN and no sum overflows:
    with non-negative material prices and non-negative matched markups,
    raising the quantity of one line does not lower [finalPrice]. *)
Lemma exact_price_monotone_in_quantity
    (product product' : Product number) (materials : list (Material number))
    (priceSettings : PriceSettings number)
    (l1 l2 : list (TechCardItem number)) (it it' : TechCardItem number) :
  techCardArr product = l1 ++ it :: l2 ->
  techCardArr product' = l1 ++ it' :: l2 ->
  materialId it' = materialId it ->
  num_le (quantity it) (quantity it') ->
  product_type_id product' = product_type_id product ->
  finish_type_id product' = finish_type_id product ->
  (forall m, In m materials -> num_le (lit 0) (mat_price m)) ->
  (forall r, findProductType product priceSettings = Some r -> num_le (lit 0) (markup r)) ->
  (forall r, findFinishType product priceSettings = Some r -> num_le (lit 0) (markup r)) ->
  num_le (finalPrice (calculateProductPrice product materials priceSettings))
         (finalPrice (calculateProductPrice product' materials priceSettings)).
Proof.
  intros Harr Harr' Hid Hq Hpt Hft Hprices Hm1 Hm2.
  destruct (calculateProductPrice_denotes product materials priceSettings)
    as (_ & _ & _ & Hfinal & _); [rewrite Harr; destruct l1; discriminate |].
  destruct (calculateProductPrice_denotes product' materials priceSettings)
    as (_ & _ & _ & Hfinal' & _); [rewrite Harr'; destruct l1; discriminate |].
  eapply denotes_num_le; [exact Hfinal | exact Hfinal' |].
  unfold finalPriceQ, basePriceQ, findProductType, findFinishType.
  rewrite Hpt, Hft, Harr, Harr'.
  fold (findProductType product priceSettings) (findFinishType product priceSettings).
  rewrite !materialCostQ_middle.
  assert (Hf1 := markupFactor_pos _ Hm1). assert (Hf2 := markupFactor_pos _ Hm2).
  assert (Hline : lineValue materials it <= lineValue materials it').
  { unfold lineValue. rewrite (linePrice_same_material materials it it' Hid).
    apply Qmult_le_compat_r; [| apply linePrice_nonneg; exact Hprices].
    destruct (quantity it), (quantity it'); simpl in *; tauto. }
  apply Qmult_le_compat_r; [| apply Qlt_le_weak; exact Hf2].
  apply Qmult_le_compat_r; [| apply Qlt_le_weak; exact Hf1].
  lra.
Qed.

(** In exact arithmetic: a line whose [materialId] matches no material adds
    nothing to [materialCost], whatever its quantity. *)
Lemma exact_dangling_line_contributes_zero
    (product product0 : Product number) (materials : list (Material number))
    (priceSettings : PriceSettings number)
    (l1 l2 : list (TechCardItem number)) (it it0 : TechCardItem number) :
  techCardArr product = l1 ++ it :: l2 ->
  find (fun m => String.eqb (mat_id m) (materialId it)) materials = None ->
  techCardArr product0 = l1 ++ it0 :: l2 ->
  materialId it0 = materialId it ->
  product_type_id product0 = product_type_id product ->
  finish_type_id product0 = finish_type_id product ->
  lineValue materials it == 0 /\
  num_eq (materialCost (calculateProductPrice product materials priceSettings))
         (sumMaterialCost materials (l1 ++ l2)) /\
  result_eq (calculateProductPrice product materials priceSettings)
            (calculateProductPrice product0 materials priceSettings) /\
  result_finite (calculateProductPrice product materials priceSettings).
Proof.
  intros Harr Hnone Harr0 Hid Hpt Hft.
  assert (Hzero : forall x : TechCardItem number,
             materialId x = materialId it -> lineValue materials x == 0).
  { intros x Hx. unfold lineValue, linePrice. rewrite Hx, Hnone. ring. }
  destruct (calculateProductPrice_denotes product materials priceSettings)
    as (Hmc & Hwc & Hbase & Hfinal & Hmk); [rewrite Harr; destruct l1; discriminate |].
  destruct (calculateProductPrice_denotes product0 materials priceSettings)
    as (Hmc0 & Hwc0 & Hbase0 & Hfinal0 & Hmk0); [rewrite Harr0; destruct l1; discriminate |].
  assert (Emc : materialCostQ materials (techCardArr product0)
                == materialCostQ materials (techCardArr product)).
  { rewrite Harr, Harr0, !materialCostQ_middle, (Hzero it eq_refl), (Hzero it0 Hid).
    reflexivity. }
  assert (Ept : findProductType product0 priceSettings = findProductType product priceSettings).
  { unfold findProductType. rewrite Hpt. reflexivity. }
  assert (Eft : findFinishType product0 priceSettings = findFinishType product priceSettings).
  { unfold findFinishType. rewrite Hft. reflexivity. }
  assert (Ebase : basePriceQ product0 materials priceSettings
                  == basePriceQ product materials priceSettings).
  { unfold basePriceQ. rewrite Ept, Emc. reflexivity. }
  assert (Efinal : finalPriceQ product0 materials priceSettings
                   == finalPriceQ product materials priceSettings).
  { unfold finalPriceQ. rewrite Ept, Eft, Ebase. reflexivity. }
  split; [exact (Hzero it eq_refl) |]. split; [| split].
  - eapply denotes_num_eq; [exact Hmc |].
    eapply denotes_proper; [apply denotes_sumMaterialCost |].
    rewrite Harr, materialCostQ_middle, (Hzero it eq_refl). ring.
  - unfold result_eq. repeat split.
    + eapply denotes_num_eq; [exact Hmc |]. eapply denotes_proper; [exact Hmc0 | exact Emc].
    + eapply denotes_num_eq; [exact Hwc |]. rewrite Ept in Hwc0. exact Hwc0.
    + eapply denotes_num_eq; [exact Hbase |]. eapply denotes_proper; [exact Hbase0 | exact Ebase].
    + eapply denotes_num_eq; [exact Hfinal |].
      eapply denotes_proper; [exact Hfinal0 | exact Efinal].
    + eapply denotes_num_eq; [exact Hmk |]. eapply denotes_proper; [exact Hmk0 |].
      unfold markupQ.
      destruct (Qlt_le_dec 0 (basePriceQ product0 materials priceSettings)) as [H0|H0];
        destruct (Qlt_le_dec 0 (basePriceQ product materials priceSettings)) as [H1|H1].
      * rewrite Ebase, Efinal. reflexivity.
      * exfalso. rewrite Ebase in H0. lra.
      * exfalso. rewrite Ebase in H0. lra.
      * reflexivity.
  - apply calculateProductPrice_finite.
Qed.

End PricingFacts.

(** ** The price calculator on doubles *)

Section PricingBinary64.
Import Rounding Binary64 Pricing.
Local Open Scope js_scope.

Lemma le_or_nan_not_lt (a b : float) : le_or_nan a b -> PrimFloat.ltb b a = false.
Proof. rewrite ltb_spec. apply SFle_or_nan_not_lt. Qed.

Lemma le_or_nan_leb (a b : float) :
  le_or_nan a b -> PrimFloat.is_nan a = false -> PrimFloat.is_nan b = false ->
  PrimFloat.leb a b = true.
Proof. rewrite !is_nan_spec, leb_spec. apply SFle_or_nan_leb. Qed.

Lemma optOr_price_nonneg (materials : list (Material float)) (mat : option (Material float)) :
  (forall m, mat = Some m -> PrimFloat.leb (lit 0) (mat_price m) = true) ->
  nonneg_or_nan (optOr mat mat_price (lit 0)).
Proof.
  intros H. destruct mat as [m|]; cbn [optOr]; [| apply nonneg_zero].
  apply nonneg_orElse_zero. apply H. reflexivity.
Qed.

Lemma optOr_markup_nonneg (rule : option (PriceRule float)) :
  (forall r, rule = Some r -> PrimFloat.leb (lit 0) (markup r) = true) ->
  nonneg_or_nan (optOr rule markup (lit 0)).
Proof.
  intros H. destruct rule as [r|]; cbn [optOr]; [| apply nonneg_zero].
  apply nonneg_orElse_zero. apply H. reflexivity.
Qed.

Lemma applyMarkup_mono (a b : float) (rule : option (PriceRule float)) :
  (forall r, rule = Some r -> PrimFloat.leb (lit 0) (markup r) = true) ->
  le_or_nan a b -> le_or_nan (applyMarkup a rule) (applyMarkup b rule).
Proof.
  intros Hr Hab. unfold applyMarkup. apply le_or_nan_mul_l; [exact Hab |].
  apply markup_factor_nonneg, optOr_markup_nonneg, Hr.
Qed.

Lemma fold_lineStep_mono (materials : list (Material float)) (l : list (TechCardItem float))
    (s s' : float) :
  le_or_nan s s' ->
  le_or_nan (fold_left (lineStep materials) l s) (fold_left (lineStep materials) l s').
Proof.
  revert s s'. induction l as [|it l IH]; intros s s' H; cbn [fold_left]; [exact H |].
  apply IH. unfold lineStep. apply le_or_nan_add_l. exact H.
Qed.

Lemma lineStep_mono_quantity (materials : list (Material float)) (s : float)
    (it it' : TechCardItem float) :
  materialId it' = materialId it ->
  PrimFloat.leb (quantity it) (quantity it') = true ->
  (forall m, In m materials -> PrimFloat.leb (lit 0) (mat_price m) = true) ->
  le_or_nan (lineStep materials s it) (lineStep materials s it').
Proof.
  intros Hid Hq Hprices. unfold lineStep. rewrite Hid.
  apply le_or_nan_add_r, le_or_nan_mul_l; [apply leb_orElse_zero; exact Hq |].
  apply (optOr_price_nonneg materials). intros m Hm. apply Hprices.
  apply find_some in Hm. tauto.
Qed.

(** C3 (amended): price monotonicity, on the doubles the code computes
    with.  With non-negative material prices and non-negative matched
    markups, raising the quantity of one line of the bill of materials,
    everything else unchanged, does not lower [finalPrice]: the new price is
    never less than the old one, and it is greater than or equal to it
    whenever both are numbers.  (Either can be NaN: see the
    counterexample.) *)
Theorem price_monotone_in_quantity
    (product product' : Product float) (materials : list (Material float))
    (priceSettings : PriceSettings float)
    (l1 l2 : list (TechCardItem float)) (it it' : TechCardItem float) :
  techCardArr product = l1 ++ it :: l2 ->
  techCardArr product' = l1 ++ it' :: l2 ->
  materialId it' = materialId it ->
  PrimFloat.leb (quantity it) (quantity it') = true ->
  product_type_id product' = product_type_id product ->
  finish_type_id product' = finish_type_id product ->
  (forall m, In m materials -> PrimFloat.leb (lit 0) (mat_price m) = true) ->
  (forall r, findProductType product priceSettings = Some r ->
             PrimFloat.leb (lit 0) (markup r) = true) ->
  (forall r, findFinishType product priceSettings = Some r ->
             PrimFloat.leb (lit 0) (markup r) = true) ->
  let old := finalPrice (calculateProductPrice product materials priceSettings) in
  let new := finalPrice (calculateProductPrice product' materials priceSettings) in
  PrimFloat.ltb new old = false /\
  (PrimFloat.is_nan old = false -> PrimFloat.is_nan new = false ->
   PrimFloat.leb old new = true).
Proof.
  intros Harr Harr' Hid Hq Hpt Hft Hprices Hm1 Hm2 old new.
  assert (H : le_or_nan old new).
  { unfold old, new, calculateProductPrice.
    assert (Ept : findProductType product' priceSettings = findProductType product priceSettings).
    { unfold findProductType. rewrite Hpt. reflexivity. }
    assert (Eft : findFinishType product' priceSettings = findFinishType product priceSettings).
    { unfold findFinishType. rewrite Hft. reflexivity. }
    rewrite Ept, Eft, Harr, Harr'.
    replace (length (l1 ++ it :: l2) =? 0)%nat with false
      by (rewrite length_app; cbn [length]; symmetry; apply Nat.eqb_neq; lia).
    replace (length (l1 ++ it' :: l2) =? 0)%nat with false
      by (rewrite length_app; cbn [length]; symmetry; apply Nat.eqb_neq; lia).
    cbn [finalPrice].
    apply applyMarkup_mono; [exact Hm2 |]. apply applyMarkup_mono; [exact Hm1 |].
    apply le_or_nan_add_l. unfold sumMaterialCost.
    rewrite !fold_left_app. cbn [fold_left].
    apply fold_lineStep_mono, lineStep_mono_quantity; assumption. }
  split; [apply le_or_nan_not_lt; exact H | apply le_or_nan_leb; exact H].
Qed.


Lemma price_monotone_in_quantity_witness :
  PrimFloat.ltb EdgeCases.twoBoardsFinalPrice EdgeCases.oneBoardFinalPrice = false /\
  (PrimFloat.is_nan EdgeCases.oneBoardFinalPrice = false ->
   PrimFloat.is_nan EdgeCases.twoBoardsFinalPrice = false ->
   PrimFloat.leb EdgeCases.oneBoardFinalPrice EdgeCases.twoBoardsFinalPrice = true).
Proof.
  apply (price_monotone_in_quantity chainProduct chainProductTwoBoards chainMaterials
           chainSettings [] [] {| materialId := "m1"; quantity := lit 1 |}
           {| materialId := "m1"; quantity := lit 2 |}).
  - reflexivity.
  - reflexivity.
  - reflexivity.
  - reflexivity.
  - reflexivity.
  - reflexivity.
  - intros m [<- | []]. reflexivity.
  - intros r Hr. vm_compute in Hr. injection Hr as <-. reflexivity.
  - intros r Hr. vm_compute in Hr. injection Hr as <-. reflexivity.
Defined.

(** C3, as stated, on the doubles: the sticker costs 0 and the markups are
    10 and 50; raising the number of stickers from 1 to [Infinity] turns the
    price from 3052.5000000000005 into NaN ([Infinity * 0]), which is not
    greater than or equal to the old price. *)
Lemma price_monotone_counterexample :
  PrimFloat.leb (lit 1) infinity = true /\
  forallb (fun m => PrimFloat.leb (lit 0) (mat_price m)) EdgeCases.stickerMaterials = true /\
  forallb (fun r => PrimFloat.leb (lit 0) (markup r))
    (productTypes (chainSettings (N := float)) ++ finishTypes chainSettings) = true /\
  PrimFloat.is_nan (EdgeCases.stickerFinalPrice infinity) = true /\
  ~ (PrimFloat.leb (EdgeCases.stickerFinalPrice (lit 1)) (EdgeCases.stickerFinalPrice infinity)
     = true).
Proof.
  split; [reflexivity |]. split; [reflexivity |]. split; [reflexivity |].
  split; [reflexivity |]. intros H. vm_compute in H. discriminate H.
Qed.

End PricingBinary64.

Section DanglingBinary64.
Import Rounding Binary64 Pricing.
Local Open Scope js_scope.












End DanglingBinary64.

(** ** Totals of the document builder *)

Section DocumentTotals.
Import Pdf HomePage TotalsExact.

Lemma denotes_fold_add {A : Type} (f : A -> number) (v : A -> Q) :
  (forall a, denotes (f a) (v a)) ->
  forall (l : list A) (acc : number) (q : Q),
    denotes acc q ->
    denotes (fold_left (fun sum a => nadd sum (f a)) l acc) (q + sumQ (map v l)).
Proof.
  intros Hf l. induction l as [| a l IH]; intros acc q Hacc; simpl.
  - eapply denotes_proper; [exact Hacc | ring].
  - eapply denotes_proper.
    + apply IH. apply denotes_add; [exact Hacc | apply Hf].
    + ring.
Qed.

Lemma denotes_sum_from_zero {A : Type} (f : A -> number) (v : A -> Q) (l : list A) :
  (forall a, denotes (f a) (v a)) ->
  denotes (fold_left (fun sum a => nadd sum (f a)) l (lit 0)) (sumQ (map v l)).
Proof.
  intros Hf. eapply denotes_proper.
  - apply (denotes_fold_add f v Hf l (lit 0) 0). apply (denotes_lit 0).
  - ring.
Qed.

Lemma seriesTotal_denotes (s : ProductSeries number) :
  denotes (seriesTotal s) (sumQ (map priceValue (items s))).
Proof.
  unfold seriesTotal.
  apply (denotes_sum_from_zero (fun it => orElse (price it) (lit 0)) priceValue).
  intros it. apply denotes_orElse_zero.
Qed.

(** The accumulator [grandTotal] after the loop is the running sum of the
    subtotals; this is a fact about the loop, true in every arithmetic. *)
Lemma grandTotal_fold {N : Type} `{JsArith N} (intlFormat : N -> string -> string -> string)
    (d : DocumentData) (currency locale : string) (gs : list (ProductSeries N)) :
  forall st : LoopState,
    grandTotal (fold_left (renderSeries intlFormat d currency locale) gs st)
    = fold_left nadd (map seriesTotal gs) (grandTotal st).
Proof.
  induction gs as [| s gs IH]; intros st; simpl; [reflexivity |].
  rewrite IH. reflexivity.
Qed.

Lemma fold_nadd_map {A : Type} (f : A -> number) (l : list A) :
  forall acc, fold_left nadd (map f l) acc = fold_left (fun sum a => nadd sum (f a)) l acc.
Proof. induction l as [| a l IH]; intros acc; simpl; [reflexivity | apply IH]. Qed.

Lemma sumQ_allItems (gs : list (ProductSeries number)) :
  sumQ (map (fun s => sumQ (map priceValue (items s))) gs)
  == sumQ (map priceValue (allItems gs)).
Proof.
  unfold allItems. induction gs as [| s gs IH]; simpl; [reflexivity |].
  rewrite map_app, sumQ_app, IH. reflexivity.
Qed.

(** *** Grouping on the price-list page keeps every row exactly once *)

Lemma mapPush_value (m : list (string * list (Row number))) (k : string) (row : Row number) :
  mapValue (mapPush m k row) == mapValue m + rowValue row.
Proof.
  unfold mapValue. induction m as [| [k' rows] rest IH]; simpl.
  - ring.
  - destruct (String.eqb k' k); simpl.
    + rewrite map_app, sumQ_app. simpl. ring.
    + rewrite IH. ring.
Qed.

Lemma fold_mapPush_value (keyOf : Row number -> string) (computed : list (Row number)) :
  forall m,
    mapValue (fold_left (fun m row => mapPush m (keyOf row) row) computed m)
    == mapValue m + sumQ (map rowValue computed).
Proof.
  induction computed as [| row computed IH]; intros m; simpl.
  - ring.
  - rewrite IH, mapPush_value. ring.
Qed.

Lemma groupWith_value (keyOf : Row number -> string) (computed : list (Row number)) :
  sumQ (map (fun g => sumQ (map rowValue (group_items g))) (groupWith keyOf computed))
  == sumQ (map rowValue computed).
Proof.
  unfold groupWith. rewrite map_map. simpl.
  change (mapValue (fold_left (fun m row => mapPush m (keyOf row) row) computed [])
          == sumQ (map rowValue computed)).
  rewrite fold_mapPush_value. unfold mapValue. simpl. ring.
Qed.

Lemma groups_value (groupBy : GroupBy) (computed : list (Row number)) :
  sumQ (map (fun g => sumQ (map rowValue (group_items g))) (groups groupBy computed))
  == sumQ (map rowValue computed).
Proof.
  destruct groupBy; simpl.
  - ring.
  - apply groupWith_value.
  - apply groupWith_value.
Qed.

Lemma groupTotal_denotes (g : Group number) :
  denotes (groupTotal g) (sumQ (map rowValue (group_items g))).
Proof.
  unfold groupTotal.
  apply (denotes_sum_from_zero (fun r => orElse (row_finalPrice r) (lit 0)) rowValue).
  intros r. apply denotes_orElse_zero.
Qed.

(** On the price-list page, in exact arithmetic and for each of its grouping
    modes, the grand total of the print view (summed group by group) and
    that of the PDF export (summed over the rows) are both the sum of
    [finalPrice] over all rows, and each group subtotal is the sum over the
    rows of that group. *)
Lemma price_list_page_totals_exact (groupBy : GroupBy) (computed : list (Row number)) :
  denotes (printGrandTotal (groups groupBy computed)) (sumQ (map rowValue computed)) /\
  denotes (pdfGrandTotal computed) (sumQ (map rowValue computed)) /\
  sumQ (map (fun g => valueOrZero (groupTotal g)) (groups groupBy computed))
    == sumQ (map rowValue computed) /\
  (forall g : Group number,
     denotes (groupTotal g) (sumQ (map rowValue (group_items g)))).
Proof.
  assert (Hgv : forall g : Group number,
             valueOrZero (groupTotal g) == sumQ (map rowValue (group_items g))).
  { intros g. pose proof (groupTotal_denotes g) as Hg.
    destruct (groupTotal g); simpl in Hg; simpl; [exact Hg | tauto]. }
  split; [| split; [| split]].
  - eapply denotes_proper.
    + unfold printGrandTotal.
      apply (denotes_sum_from_zero groupTotal
               (fun g => sumQ (map rowValue (group_items g)))).
      apply groupTotal_denotes.
    + apply groups_value.
  - unfold pdfGrandTotal.
    apply (denotes_sum_from_zero (fun r => orElse (row_finalPrice r) (lit 0)) rowValue).
    intros r. apply denotes_orElse_zero.
  - rewrite <- (groups_value groupBy computed).
    induction (groups groupBy computed) as [| g l IH]; simpl; [reflexivity |].
    rewrite IH, Hgv. reflexivity.
  - apply groupTotal_denotes.
Qed.

End DocumentTotals.

(** ** Totals of the document builder on doubles *)

Section TotalsBinary64.
Import Rounding Binary64 Pdf Totals TotalsExact PricingExact.
Local Open Scope js_scope.

Lemma sumZ_cons (x : Z) (l : list Z) : sumZ (x :: l) = (x + sumZ l)%Z.
Proof. reflexivity. Qed.

Lemma sumZ_nonneg {A : Type} (t : A -> Z) (l : list A) :
  (forall x, In x l -> (0 <= t x)%Z) -> (0 <= sumZ (map t l))%Z.
Proof.
  induction l as [|x l IH]; intros H; [cbn; lia |].
  cbn [map]. rewrite sumZ_cons.
  assert (0 <= t x)%Z by (apply H; left; reflexivity).
  assert (0 <= sumZ (map t l))%Z by (apply IH; intros y Hy; apply H; right; exact Hy).
  lia.
Qed.

Lemma sumZ_app (l1 l2 : list Z) : sumZ (l1 ++ l2) = (sumZ l1 + sumZ l2)%Z.
Proof.
  induction l1 as [|x l1 IH]; [reflexivity |].
  cbn [app]. rewrite !sumZ_cons, IH. lia.
Qed.

(** A left-to-right sum of whole numbers is exact below 2^53. *)
Lemma fold_add_whole {A : Type} (f : A -> float) (t : A -> Z) (l : list A) :
  forall a : Z,
    (forall x, In x l -> (0 <= t x)%Z /\ f x = lit (t x)) ->
    (0 <= a)%Z -> (a + sumZ (map t l) < 2 ^ 53)%Z ->
    fold_left (fun sum x => sum +. f x) l (lit a) = lit (a + sumZ (map t l)).
Proof.
  induction l as [|x l IH]; intros a H Ha Hlt; cbn [fold_left map].
  - f_equal. cbn. lia.
  - destruct (H x (or_introl eq_refl)) as [Hx Ex].
    assert (Hl : (0 <= sumZ (map t l))%Z).
    { apply sumZ_nonneg. intros y Hy. apply (H y). right. exact Hy. }
    cbn [map] in Hlt. rewrite sumZ_cons in Hlt. rewrite sumZ_cons.
    rewrite Ex, add_whole by lia.
    rewrite IH; [f_equal; lia | | lia | lia].
    intros y Hy. apply H. right. exact Hy.
Qed.

Lemma fold_orElse_whole {A : Type} (f : A -> float) (t : A -> Z) (l : list A) :
  (forall x, In x l -> (0 <= t x)%Z /\ f x = lit (t x)) ->
  (sumZ (map t l) < 2 ^ 53)%Z ->
  fold_left (fun sum x => sum +. (f x ||. lit 0)) l (lit 0) = lit (sumZ (map t l)).
Proof.
  intros H Hlt.
  rewrite <- (Z.add_0_l (sumZ (map t l))).
  apply (fold_add_whole (fun x => f x ||. lit 0) t l 0%Z); [| lia | lia].
  intros x Hx. destruct (H x Hx) as [H0 E]. split; [exact H0 |].
  rewrite E. apply orElse_whole.
  assert (Hrest : (t x <= sumZ (map t l))%Z).
  { clear - H Hx. induction l as [|y l IH]; [destruct Hx |].
    cbn [map]. rewrite sumZ_cons.
    assert (0 <= t y)%Z by (apply (H y); left; reflexivity).
    assert (0 <= sumZ (map t l))%Z.
    { apply sumZ_nonneg. intros z Hz. apply (H z). right. exact Hz. }
    destruct Hx as [-> | Hx]; [lia |].
    assert (t x <= sumZ (map t l))%Z; [| lia].
    apply IH; [| exact Hx]. intros z Hz. apply H. right. exact Hz. }
  lia.
Qed.

Lemma fold_nadd_map_any {N A : Type} `{JsArith N} (f : A -> N) (l : list A) :
  forall acc, fold_left nadd (map f l) acc = fold_left (fun sum a => sum +. f a) l acc.
Proof. induction l as [| a l IH]; intros acc; cbn [map fold_left]; [reflexivity | apply IH]. Qed.

Lemma sumZ_allRows (units : SeriesItem float -> Z) (gs : list (ProductSeries float)) :
  sumZ (map (fun s => sumZ (map units (items s))) gs) = sumZ (map units (allRows gs)).
Proof.
  unfold allRows. induction gs as [|s gs IH]; [reflexivity |].
  cbn [map concat]. rewrite sumZ_cons, map_app, sumZ_app, IH. reflexivity.
Qed.

Lemma series_le_total (units : SeriesItem float -> Z) (gs : list (ProductSeries float))
    (s : ProductSeries float) :
  (forall s it, In s gs -> In it (items s) -> (0 <= units it)%Z) ->
  In s gs -> (sumZ (map units (items s)) <= sumZ (map units (allRows gs)))%Z.
Proof.
  intros H Hs. rewrite <- sumZ_allRows.
  induction gs as [|g gs IH]; [destruct Hs |].
  cbn [map]. rewrite sumZ_cons.
  assert (0 <= sumZ (map units (items g)))%Z.
  { apply sumZ_nonneg. intros it Hit. apply (H g it); [left; reflexivity | exact Hit]. }
  assert (0 <= sumZ (map (fun s => sumZ (map units (items s))) gs))%Z.
  { apply sumZ_nonneg. intros g' Hg'. apply sumZ_nonneg. intros it Hit.
    apply (H g' it); [right; exact Hg' | exact Hit]. }
  destruct Hs as [-> | Hs]; [lia |].
  assert (sumZ (map units (items s)) <= sumZ (map (fun s => sumZ (map units (items s))) gs))%Z;
    [| lia].
  apply IH; [| exact Hs]. intros g' it Hg'. apply H. right. exact Hg'.
Qed.

(** C2, as stated, on the doubles: with 0.1 in one series and 0.2 and 0.3
    in another, the grand total accumulated series by series is
    0.6 (0x1.3333333333333p-1) while the sum of the prices over all rows is
    0.6000000000000001 (0x1.3333333333334p-1). *)
Lemma grand_total_rounding_counterexample :
  grandTotal tenthsState = 0x1.3333333333333p-1%float /\
  rowsTotal (allRows tenthsGroups) = 0x1.3333333333334p-1%float /\
  ~ (PrimFloat.eqb (grandTotal tenthsState) (rowsTotal (allRows tenthsGroups)) = true).
Proof.
  split; [reflexivity |]. split; [reflexivity |].
  intros H. vm_compute in H. discriminate H.
Qed.

(** C2 (amended): grand total consistency.  In every arithmetic the grand
    total accumulated by [generateDoc] is the sum, from the left, of the
    per-series subtotals, and each subtotal is the sum, from the left, of
    [Number(price) || 0] over the rows of its own series.  On the doubles
    the code computes with, when every price is a non-negative whole number
    and the prices of all rows add up to less than 2^53, no addition rounds:
    the grand total, the sum of the subtotals and the sum of the prices over
    all rows of all groups are the same double, the exact total, and each
    subtotal is the exact sum of its series.  In exact arithmetic the
    equalities hold for all prices. *)
Theorem grand_total_consistency
    (intlFormat : float -> string -> string -> string)
    (d : DocumentData) (currency locale : string) (gs : list (ProductSeries float))
    (units : SeriesItem float -> Z) :
  (forall s it, In s gs -> In it (items s) ->
                (0 <= units it)%Z /\ price it = lit (units it)) ->
  (sumZ (map units (allRows gs)) < 2 ^ 53)%Z ->
  let st := renderAll intlFormat d currency locale gs in
  (grandTotal st = sumN (map seriesTotal gs) /\
   grandTotal st = rowsTotal (allRows gs) /\
   grandTotal st = lit (sumZ (map units (allRows gs))) /\
   (forall s, In s gs ->
      seriesTotal s = rowsTotal (items s) /\
      seriesTotal s = lit (sumZ (map units (items s))))) /\
  (forall (N : Type) (HN : JsArith N) (fmt : N -> string -> string -> string)
          (groups : list (ProductSeries N)),
     grandTotal (renderAll fmt d currency locale groups) = sumN (map seriesTotal groups) /\
     (forall s : ProductSeries N, seriesTotal s = rowsTotal (items s))) /\
  (forall (fmt : number -> string -> string -> string) (groups : list (ProductSeries number)),
     denotes (grandTotal (renderAll fmt d currency locale groups))
             (sumQ (map (fun s => valueOrZero (seriesTotal s)) groups)) /\
     denotes (grandTotal (renderAll fmt d currency locale groups))
             (sumQ (map priceValue (allItems groups))) /\
     (forall s : ProductSeries number,
        denotes (seriesTotal s) (sumQ (map priceValue (items s))))).
Proof.
  intros Hwhole Hlt st.
  assert (Hgen : forall (N : Type) (HN : JsArith N) (fmt : N -> string -> string -> string)
             (groups : list (ProductSeries N)),
             grandTotal (renderAll fmt d currency locale groups) = sumN (map seriesTotal groups)).
  { intros N HN fmt groups. unfold renderAll, sumN. rewrite grandTotal_fold. reflexivity. }
  assert (Hseries : forall s, In s gs -> seriesTotal s = lit (sumZ (map units (items s)))).
  { intros s Hs. unfold seriesTotal. apply fold_orElse_whole.
    - intros it Hit. apply (Hwhole s it Hs Hit).
    - assert (H := series_le_total units gs s (fun s it Hs Hit => proj1 (Hwhole s it Hs Hit)) Hs).
      lia. }
  assert (Hgrand : grandTotal st = lit (sumZ (map units (allRows gs)))).
  { unfold st. rewrite Hgen. unfold sumN. rewrite fold_nadd_map_any.
    rewrite <- sumZ_allRows.
    rewrite <- (Z.add_0_l (sumZ (map (fun s => sumZ (map units (items s))) gs))).
    apply fold_add_whole; [| lia | rewrite Z.add_0_l, sumZ_allRows; exact Hlt].
    intros s Hs. split; [| apply Hseries; exact Hs].
    apply sumZ_nonneg. intros it Hit. apply (Hwhole s it Hs Hit). }
  assert (Hflat : rowsTotal (allRows gs) = lit (sumZ (map units (allRows gs)))).
  { unfold rowsTotal. apply fold_orElse_whole; [| exact Hlt].
    intros it Hit. unfold allRows in Hit. apply in_concat in Hit as (l & Hl & Hit).
    apply in_map_iff in Hl as (s & <- & Hs). apply (Hwhole s it Hs Hit). }
  split; [| split].
  - split; [apply Hgen |]. split; [rewrite Hgrand, Hflat; reflexivity |].
    split; [exact Hgrand |]. intros s Hs. split; [reflexivity | apply Hseries; exact Hs].
  - intros N HN fmt groups. split; [apply Hgen | reflexivity].
  - intros fmt groups.
    assert (Hval : forall s : ProductSeries number,
               valueOrZero (seriesTotal s) == sumQ (map priceValue (items s))).
    { intros s. pose proof (seriesTotal_denotes s) as Hs.
      destruct (seriesTotal s); simpl in Hs; simpl; [exact Hs | tauto]. }
    assert (Hsub : sumQ (map (fun s => valueOrZero (seriesTotal s)) groups)
                   == sumQ (map (fun s => sumQ (map priceValue (items s))) groups)).
    { induction groups as [| s groups IH]; simpl; [reflexivity |].
      rewrite IH, Hval. reflexivity. }
    assert (Hg : denotes (grandTotal (renderAll fmt d currency locale groups))
                   (sumQ (map (fun s => sumQ (map priceValue (items s))) groups))).
    { rewrite Hgen. unfold sumN. rewrite fold_nadd_map.
      apply denotes_sum_from_zero. apply seriesTotal_denotes. }
    split; [| split].
    + eapply denotes_proper; [exact Hg | symmetry; exact Hsub].
    + eapply denotes_proper; [exact Hg | apply sumQ_allItems].
    + apply seriesTotal_denotes.
Qed.

End TotalsBinary64.

Lemma grand_total_consistency_witness :
  Pdf.grandTotal Totals.sampleState = TotalsExact.sumN (map Pdf.seriesTotal Totals.sampleGroups) /\
  Pdf.grandTotal Totals.sampleState = Totals.rowsTotal (Totals.allRows Totals.sampleGroups) /\
  Pdf.grandTotal Totals.sampleState = lit 425.
Proof.
  destruct (grand_total_consistency (fun _ _ _ => "") (Pdf.documentData Pdf.sampleInput)
              "KGS" "ru-RU" Totals.sampleGroups Totals.sampleUnits) as [(H1 & H2 & H3 & _) _].
  - intros s it Hs Hit. cbn in Hs.
    destruct Hs as [<- | [<- | []]]; cbn in Hit;
      repeat (destruct Hit as [<- | Hit]; [split; [vm_compute; discriminate | reflexivity] |]);
      destruct Hit.
  - vm_compute. reflexivity.
  - split; [exact H1 |]. split; [exact H2 | exact H3].
Defined.


(** ** Failure semantics of the document builder *)

Section BuildFailures.
Import Pdf.
Context {N : Type} `{JsArith N}.
Variable intlFormat : N -> string -> string -> string.



End BuildFailures.



(** The four example browsers, evaluated. *)
Example offline_build_throws_loader_error :
  Pdf.generateDoc (N := number) (fun _ _ _ => "") Pdf.offlineBrowser Pdf.sampleInput Pdf.modern
  = Pdf.Thrown (Pdf.FailedToLoad Pdf.jsPdfUrl).
Proof. reflexivity. Qed.

Example no_engine_build_throws :
  Pdf.generateDoc (N := number) (fun _ _ _ => "") Pdf.noEngineBrowser Pdf.sampleInput Pdf.modern
  = Pdf.Thrown Pdf.EngineUnavailable.
Proof. reflexivity. Qed.

Example no_plugin_build_throws :
  Pdf.generateDoc (N := number) (fun _ _ _ => "") Pdf.noPluginBrowser Pdf.sampleInput Pdf.modern
  = Pdf.Thrown Pdf.PluginUnavailable.
Proof. reflexivity. Qed.

Example no_font_build_completes :
  exists doc,
    Pdf.generateDoc (N := number) (fun _ _ _ => "") Pdf.noFontBrowser Pdf.sampleInput Pdf.nordic
    = Pdf.Returned doc /\
    Pdf.doc_font doc = "helvetica" /\ length (Pdf.doc_tables doc) = 2%nat /\
    Pdf.doc_cover doc = true.
Proof. eexists. split; [vm_compute; reflexivity |]. repeat split. Qed.

(** ** CSV import into the material catalog *)

Section ImportFacts.
Import Pdf Materials.
Context {N : Type} `{JsArith N}.
Variable trim : string -> string.
Variable toLowerCase : string -> string.
Variable toNumber : string -> N.
Variable now : string.
Variable freshId : nat -> string.

Local Abbreviation keyOf := (articleKey trim toLowerCase).
Local Abbreviation parse := (parseCsvToMaterials trim toLowerCase toNumber now freshId).
Local Abbreviation import := (importCsv trim toLowerCase toNumber now freshId).
Local Abbreviation step := (mergeStep trim toLowerCase now freshId).



(** A row whose key is empty or unknown is prepended as a new record. *)
Lemma mergeStep_unmatched (index : gmap string nat) (offset : nat) (st : MergeState N)
    (it : Material N) :
  keyOf it = "" \/ index !! keyOf it = None ->
  fresh (step index offset st it) =
    {| id := freshId (offset + added st); name := name it; article := article it;
       unit := unit it; price := price it; created_at := now; updated_at := now |} :: fresh st
  /\ store (step index offset st it) = store st.
Proof.
  intros Hcase. unfold mergeStep.
  destruct (String.eqb (keyOf it) "") eqn:E.
  - split; reflexivity.
  - destruct Hcase as [Hempty | Hnone].
    + apply String.eqb_neq in E. contradiction.
    + rewrite Hnone. split; reflexivity.
Qed.






(** The case the merge misses: two rows whose article key is not in the
    catalog (or is empty) are both prepended, the later one first, whether or
    not their keys agree. *)
Lemma import_new_article_twice
    (items : list (Material N)) (text : string) (r1 r2 : Material N) :
  parse text = [r1; r2] ->
  (keyOf r1 = "" \/ mapByArticle trim toLowerCase items !! keyOf r1 = None) ->
  (keyOf r2 = "" \/ mapByArticle trim toLowerCase items !! keyOf r2 = None) ->
  map article (import items text) = article r2 :: article r1 :: map article items.
Proof.
  intros Hparse H1 H2. unfold importCsv, mergeImported. rewrite Hparse.
  cbn [length Nat.eqb fold_left].
  set (st0 := {| store := items; fresh := []; added := 0; updated := 0 |}).
  destruct (mergeStep_unmatched (mapByArticle trim toLowerCase items) 2 st0 r1 H1)
    as [Hf1 Hs1].
  destruct (mergeStep_unmatched (mapByArticle trim toLowerCase items) 2
              (step (mapByArticle trim toLowerCase items) 2 st0 r1) r2 H2) as [Hf2 Hs2].
  rewrite Hf2, Hs2, Hf1, Hs1. reflexivity.
Qed.

End ImportFacts.



(** ** The AI fallback *)

Section AiFacts.
Import Pdf Ai.
Variable trim : string -> string.
Variable toLowerCase : string -> string.
Variable showStatus : nat -> string.

Local Abbreviation suggest := (suggestTechCard trim toLowerCase showStatus).
Local Abbreviation describe := (generateCollectionDescription trim showStatus).

(** The quantities the heuristic can produce, size by size. *)
Example ldsp_quantities :
  toFixed2 (hundredths 180) = Num (180 # 100) /\
  toFixed2 (nadd (hundredths 150) (hundredths 80)) = Num (230 # 100) /\
  toFixed2 (nadd (hundredths 280) (hundredths 80)) = Num (360 # 100).
Proof. repeat split; vm_compute; reflexivity. Qed.

Ltac split_on_keywords :=
  repeat match goal with
         | |- context [hasAny ?t ?l ?text ?keys] => destruct (hasAny t l text keys)
         end.

(** The local heuristic always proposes at least two lines, each with a
    positive quantity. *)
Lemma techCardSuggest_usable (productName : string) (brief : option string)
    (catalog : list MaterialsCatalogItem) :
  techCardSuggest trim toLowerCase productName brief catalog <> [] /\
  Forall (fun x => positive (quantity x))
         (techCardSuggest trim toLowerCase productName brief catalog).
Proof.
  unfold techCardSuggest. cbv zeta. split_on_keywords; cbn [orb app];
    (split; [discriminate | repeat constructor]).
Qed.

Lemma keepItem_positive (x : RemoteItem) (y : AiTechCardItem) :
  keepItem x = Some y -> positive (quantity y).
Proof.
  unfold keepItem. destruct (r_quantity x) as [q|]; [| discriminate].
  destruct q as [v|]; cbn; [| discriminate].
  destruct (Qlt_le_dec (inject_Z 0) v) as [Hpos|]; [| discriminate].
  intros E. injection E as <-. exact Hpos.
Qed.

Lemma append_nonempty (a b : string) : a <> "" -> (a ++ b)%string <> "".
Proof. destruct a; [congruence | discriminate]. Qed.

Lemma strOr_nonempty (s d : string) : d <> "" -> strOr s d <> "".
Proof.
  intros Hd. unfold strOr. destruct (String.eqb s "") eqn:E; [exact Hd |].
  apply String.eqb_neq. exact E.
Qed.

Lemma collectionDescription_nonempty (name : string) (group : option string)
    (productNames : list string) :
  collectionDescription name group productNames <> "".
Proof.
  unfold collectionDescription. cbv zeta.
  apply append_nonempty, strOr_nonempty. discriminate.
Qed.

(** C8: fallback availability.  When the remote call fails (it throws, the
    response is not ok, or the body carries an error), [suggestTechCard]
    returns the local heuristic's list, which is not empty and has a positive
    quantity on every item, and [generateCollectionDescription] returns the
    local description, which is not the empty string; this for every input,
    an absent or empty catalog included.  Both functions are total, and the
    same guarantees hold whatever the remote call answers. *)
Theorem fallback_availability
    (input : SuggestInput) (dinput : DescriptionInput)
    (x : Exchange (option (list RemoteItem))) (y : Exchange (option string)) :
  (ok (post showStatus x) = false ->
     suggest input x =
       techCardSuggest trim toLowerCase (productName input) (brief input)
         (default [] (materialsCatalog input))) /\
  (ok (post showStatus y) = false ->
     describe dinput y =
       collectionDescription (coll_name dinput) (coll_group dinput) (productNames dinput)) /\
  (forall message status text e,
     ok (post showStatus (D := option string) (Failed message)) = false /\
     ok (post showStatus (D := option string) (NotOk status text)) = false /\
     ok (post showStatus (D := option string) (ErrorBody e)) = false) /\
  suggest input x <> [] /\
  Forall (fun item => positive (quantity item)) (suggest input x) /\
  describe dinput y <> "".
Proof.
  pose proof (techCardSuggest_usable (productName input) (brief input)
                (default [] (materialsCatalog input))) as [Hne Hpos].
  assert (Hcleaned : forall items : list RemoteItem,
             Forall (fun item => positive (quantity item)) (omap keepItem items)).
  { intros items. apply Forall_forall. intros item Hin.
    apply list_elem_of_omap in Hin as (r & _ & Hr). exact (keepItem_positive r item Hr). }
  split; [| split; [| split; [| split; [| split]]]].
  - intros Hfail. unfold suggestTechCard. rewrite Hfail. reflexivity.
  - intros Hfail. unfold generateCollectionDescription. rewrite Hfail. reflexivity.
  - intros. repeat split.
  - unfold suggestTechCard. destruct (ok (post showStatus x)); [| exact Hne].
    destruct (omap keepItem _) as [| item rest] eqn:E; cbn [length Nat.ltb Nat.leb];
      [exact Hne | discriminate].
  - unfold suggestTechCard. destruct (ok (post showStatus x)); [| exact Hpos].
    destruct (0 <? length (omap keepItem _))%nat; [apply Hcleaned | exact Hpos].
  - unfold generateCollectionDescription.
    destruct (ok (post showStatus y)); [| apply collectionDescription_nonempty].
    destruct (String.eqb _ "") eqn:E; [apply collectionDescription_nonempty |].
    apply String.eqb_neq. exact E.
Qed.

End AiFacts.

Lemma fallback_availability_witness :
  Ai.suggestTechCard Materials.asciiTrim Materials.asciiLower (fun _ => "500")
      Ai.emptyCatalogInput (Ai.NotOk 500 "")
    = Ai.techCardSuggest Materials.asciiTrim Materials.asciiLower "Shelf" None [] /\
  Ai.generateCollectionDescription Materials.asciiTrim (fun _ => "500")
      Ai.emptyDescriptionInput (Ai.Failed "")
    = Ai.collectionDescription "" None [].
Proof.
  destruct (fallback_availability Materials.asciiTrim Materials.asciiLower (fun _ => "500")
              Ai.emptyCatalogInput Ai.emptyDescriptionInput
              (Ai.NotOk 500 "") (Ai.Failed "")) as (Hs & Hd & _).
  split; [exact (Hs eq_refl) | exact (Hd eq_refl)].
Defined.

(** The heuristic on an empty catalog, for a plain name and for a mirror. *)
Example fallback_on_empty_catalog :
  map Ai.quantity (Ai.techCardSuggest Materials.asciiTrim Materials.asciiLower "Shelf" None [])
    = [Num (180 # 100); Num 6] /\
  map Ai.quantity
      (Ai.techCardSuggest Materials.asciiTrim Materials.asciiLower "Mirror 600" None [])
    = [Num (35 # 100); Num 2] /\
  map Ai.quantity
      (Ai.techCardSuggest Materials.asciiTrim Materials.asciiLower "Penal 1000 handle" None [])
    = [Num (360 # 100); Num (11 # 1); Num 4; Num 2].
Proof. repeat split; vm_compute; reflexivity. Qed.

(** ** Collections: reordering and quick add *)

Section CollectionFacts.
Import Collections.

Lemma arrIncludes_elem (x : string) (arr : list string) :
  arrIncludes x arr = true <-> x ∈ arr.
Proof.
  unfold arrIncludes. rewrite existsb_exists. split.
  - intros (y & Hy & E). apply String.eqb_eq in E. subst y. apply list_elem_of_In. exact Hy.
  - intros Hx. exists x. split; [apply list_elem_of_In; exact Hx | apply String.eqb_refl].
Qed.

Lemma filter_absent (d : string) (l : list string) :
  d ∉ l -> filter (fun x => x <> d) l = l.
Proof.
  induction l as [| z l IH]; intros Hd; [reflexivity |].
  apply not_elem_of_cons in Hd as [Hz Hl].
  rewrite filter_cons. destruct (decide (z <> d)) as [_ | Heq].
  - rewrite (IH Hl). reflexivity.
  - exfalso. apply Heq. congruence.
Qed.

(** Taking one identifier out of a list without repetition leaves the rest. *)
Lemma filter_out_perm (d : string) (l : list string) :
  NoDup l -> d ∈ l -> l ≡ₚ d :: filter (fun x => x <> d) l.
Proof.
  induction 1 as [| y l Hy Hnd IH]; intros Hd.
  - apply elem_of_nil in Hd. contradiction.
  - rewrite filter_cons. destruct (decide (y <> d)) as [Hne | He].
    + apply elem_of_cons in Hd as [-> | Hd]; [contradiction |].
      rewrite (IH Hd) at 1. apply perm_swap.
    + assert (y = d) as -> by (destruct (decide (y = d)); [assumption | contradiction]).
      rewrite (filter_absent d l Hy). reflexivity.
Qed.

Lemma insertAt_perm (arr : list string) (idx : Z) (val : string) :
  insertAt arr idx val ≡ₚ val :: arr.
Proof.
  unfold insertAt. rewrite <- Permutation_middle, take_drop. reflexivity.
Qed.

(** C9: collection order preservation.  For an order without repetition,
    dropping a dragged identifier of the list onto an identifier of the list
    (onto any target, in fact), or onto the end of the list, yields a
    permutation of the order: the same identifiers, each exactly once. *)
Theorem drop_preserves_order_as_permutation (st : EditorState) (dragging targetId : string) :
  NoDup (order st) ->
  draggingId st = Some dragging ->
  dragging ∈ order st ->
  order (onDropOverItem st targetId) ≡ₚ order st /\
  NoDup (order (onDropOverItem st targetId)) /\
  order (onDropToListEnd st) ≡ₚ order st /\
  NoDup (order (onDropToListEnd st)).
Proof.
  intros Hnd Hdrag Hin.
  assert (Hover : order (onDropOverItem st targetId) ≡ₚ order st).
  { unfold onDropOverItem. rewrite Hdrag.
    destruct (String.eqb dragging "" || String.eqb dragging targetId); [reflexivity |].
    cbn [order]. rewrite insertAt_perm. symmetry. apply filter_out_perm; assumption. }
  assert (Hend : order (onDropToListEnd st) ≡ₚ order st).
  { unfold onDropToListEnd. rewrite Hdrag.
    destruct (String.eqb dragging ""); [reflexivity |].
    cbn [order]. rewrite <- Permutation_cons_append. symmetry.
    apply filter_out_perm; assumption. }
  split; [exact Hover |]. split; [rewrite Hover; exact Hnd |].
  split; [exact Hend |]. rewrite Hend. exact Hnd.
Qed.

Lemma drop_preserves_order_as_permutation_witness :
  order (onDropOverItem sampleEditor "b") ≡ₚ ["a"; "b"; "c"; "d"] /\
  NoDup (order (onDropOverItem sampleEditor "b")) /\
  order (onDropToListEnd sampleEditor) ≡ₚ ["a"; "b"; "c"; "d"] /\
  NoDup (order (onDropToListEnd sampleEditor)).
Proof.
  apply (drop_preserves_order_as_permutation sampleEditor "d" "b").
  - apply (bool_decide_unpack _). vm_compute. reflexivity.
  - reflexivity.
  - apply (bool_decide_unpack _). vm_compute. reflexivity.
Defined.

(** C10: quick add is idempotent.  The product is appended to the order of
    a target collection that lacks it; a target collection that has it and
    every other collection are left as they are; no order gains a
    repetition; and adding again changes nothing. *)
Theorem quick_add_idempotent (now now' collectionId productId : string)
    (prev : list Collection) :
  let next := quickAddProductToCollection now collectionId productId prev in
  length next = length prev /\
  (forall i c, prev !! i = Some c -> id c = collectionId -> productId ∉ product_order c ->
     next !! i = Some (withProduct now productId c)) /\
  (forall i c, prev !! i = Some c -> id c = collectionId -> productId ∈ product_order c ->
     next !! i = Some c) /\
  (forall i c, prev !! i = Some c -> id c <> collectionId -> next !! i = Some c) /\
  (forall i c c', prev !! i = Some c -> next !! i = Some c' ->
     NoDup (product_order c) -> NoDup (product_order c')) /\
  quickAddProductToCollection now' collectionId productId next = next.
Proof.
  intros next. unfold next, quickAddProductToCollection.
  assert (Hlookup : forall i c, prev !! i = Some c ->
            map (fun c =>
                   if String.eqb (id c) collectionId
                      && negb (arrIncludes productId (product_order c))
                   then withProduct now productId c else c) prev !! i
            = Some (if String.eqb (id c) collectionId
                       && negb (arrIncludes productId (product_order c))
                    then withProduct now productId c else c)).
  { intros i c Hc.
    change (map ?f prev) with (f <$> prev). rewrite list_lookup_fmap, Hc. reflexivity. }
  split; [apply length_map |].
  split; [| split; [| split; [| split]]].
  - intros i c Hc Hid Hnot. rewrite (Hlookup i c Hc).
    apply String.eqb_eq in Hid. rewrite Hid.
    destruct (arrIncludes productId (product_order c)) eqn:E; [| reflexivity].
    apply arrIncludes_elem in E. contradiction.
  - intros i c Hc Hid Hin. rewrite (Hlookup i c Hc).
    apply arrIncludes_elem in Hin. rewrite Hin, andb_false_r. reflexivity.
  - intros i c Hc Hid. rewrite (Hlookup i c Hc).
    apply String.eqb_neq in Hid. rewrite Hid. reflexivity.
  - intros i c c' Hc Hc' Hnd. rewrite (Hlookup i c Hc) in Hc'. injection Hc' as <-.
    destruct (String.eqb (id c) collectionId); cbn [andb]; [| exact Hnd].
    destruct (arrIncludes productId (product_order c)) eqn:E; cbn [negb]; [exact Hnd |].
    cbn [withProduct product_order]. apply NoDup_app. split; [exact Hnd |].
    split; [| apply NoDup_singleton].
    intros x Hx Hx'. apply list_elem_of_singleton in Hx'. subst x.
    apply arrIncludes_elem in Hx. congruence.
  - rewrite map_map. apply map_ext. intros c.
    destruct (String.eqb (id c) collectionId) eqn:Eid; cbn [andb]; [| rewrite Eid; reflexivity].
    destruct (arrIncludes productId (product_order c)) eqn:E; cbn [negb].
    + rewrite Eid, E. reflexivity.
    + cbn [withProduct id product_order]. rewrite Eid.
      assert (Hnow : arrIncludes productId (product_order c ++ [productId]) = true).
      { apply arrIncludes_elem. apply elem_of_app. right. apply list_elem_of_singleton.
        reflexivity. }
      rewrite Hnow. reflexivity.
Qed.

Lemma quick_add_idempotent_witness :
  map product_order (quickAddProductToCollection "t1" "c1" "b" sampleCollections)
    = [["a"; "b"]; ["b"]] /\
  map product_order (quickAddProductToCollection "t1" "c2" "a" sampleCollections)
    = [["a"; "b"]; ["b"; "a"]] /\
  quickAddProductToCollection "t2" "c2" "a"
    (quickAddProductToCollection "t1" "c2" "a" sampleCollections)
    = quickAddProductToCollection "t1" "c2" "a" sampleCollections.
Proof.
  split; [reflexivity |]. split; [reflexivity |].
  exact (proj2 (proj2 (proj2 (proj2 (proj2
           (quick_add_idempotent "t1" "t2" "c2" "a" sampleCollections)))))).
Defined.

End CollectionFacts.

(** ** Further properties of the price calculator *)

Section PricingMore.
Import PricingExamples.

Lemma sumQ_perm (l l' : list Q) : l ≡ₚ l' -> sumQ l == sumQ l'.
Proof.
  induction 1 as [| x l l' _ IH | x y l | l l' l'' _ IH1 _ IH2]; simpl.
  - reflexivity.
  - rewrite IH. reflexivity.
  - ring.
  - rewrite IH1. exact IH2.
Qed.

Lemma markupQ_proper (b b' f f' : Q) : b == b' -> f == f' -> markupQ b f == markupQ b' f'.
Proof.
  intros Eb Ef. unfold markupQ.
  destruct (Qlt_le_dec 0 b) as [H0|H0]; destruct (Qlt_le_dec 0 b') as [H1|H1].
  - rewrite Eb, Ef. reflexivity.
  - exfalso. rewrite Eb in H0. lra.
  - exfalso. rewrite Eb in H0. lra.
  - reflexivity.
Qed.

(** Two products with non-empty cards of the same material cost and the same
    type and finish references get the same result. *)
Lemma result_eq_of_same_cost (product product' : Product number)
    (materials materials' : list (Material number)) (priceSettings : PriceSettings number) :
  techCardArr product <> [] -> techCardArr product' <> [] ->
  materialCostQ materials' (techCardArr product')
    == materialCostQ materials (techCardArr product) ->
  product_type_id product' = product_type_id product ->
  finish_type_id product' = finish_type_id product ->
  result_eq (calculateProductPrice product materials priceSettings)
            (calculateProductPrice product' materials' priceSettings).
Proof.
  intros Hne Hne' Emc Hpt Hft.
  destruct (calculateProductPrice_denotes product materials priceSettings Hne)
    as (Hmc & Hwc & Hbase & Hfinal & Hmk).
  destruct (calculateProductPrice_denotes product' materials' priceSettings Hne')
    as (Hmc' & Hwc' & Hbase' & Hfinal' & Hmk').
  assert (Ept : findProductType product' priceSettings = findProductType product priceSettings).
  { unfold findProductType. rewrite Hpt. reflexivity. }
  assert (Eft : findFinishType product' priceSettings = findFinishType product priceSettings).
  { unfold findFinishType. rewrite Hft. reflexivity. }
  assert (Ebase : basePriceQ product' materials' priceSettings
                  == basePriceQ product materials priceSettings).
  { unfold basePriceQ. rewrite Ept, Emc. reflexivity. }
  assert (Efinal : finalPriceQ product' materials' priceSettings
                   == finalPriceQ product materials priceSettings).
  { unfold finalPriceQ. rewrite Ept, Eft, Ebase. reflexivity. }
  unfold result_eq. repeat split.
  - eapply denotes_num_eq; [exact Hmc |]. eapply denotes_proper; [exact Hmc' | exact Emc].
  - eapply denotes_num_eq; [exact Hwc |]. rewrite Ept in Hwc'. exact Hwc'.
  - eapply denotes_num_eq; [exact Hbase |]. eapply denotes_proper; [exact Hbase' | exact Ebase].
  - eapply denotes_num_eq; [exact Hfinal |].
    eapply denotes_proper; [exact Hfinal' | exact Efinal].
  - eapply denotes_num_eq; [exact Hmk |]. eapply denotes_proper; [exact Hmk' |].
    apply markupQ_proper; assumption.
Qed.

(** X1: the effective markup.  When the base price is positive, the [markup]
    field is the compound of the two percentages, [m1 + m2 + m1 * m2 / 100],
    whatever the base price is. *)
Theorem effective_markup_is_compound (product : Product number)
    (materials : list (Material number)) (priceSettings : PriceSettings number) :
  techCardArr product <> [] ->
  0 < basePriceQ product materials priceSettings ->
  let m1 := ruleValue markup (findProductType product priceSettings) in
  let m2 := ruleValue markup (findFinishType product priceSettings) in
  denotes (res_markup (calculateProductPrice product materials priceSettings))
          (m1 + m2 + m1 * m2 / 100).
Proof.
  intros Hne Hpos m1 m2.
  destruct (calculateProductPrice_denotes product materials priceSettings Hne)
    as (_ & _ & _ & _ & Hmk).
  eapply denotes_proper; [exact Hmk |].
  unfold markupQ. destruct (Qlt_le_dec 0 (basePriceQ product materials priceSettings)) as [_|Hle];
    [| exfalso; lra].
  unfold finalPriceQ, markupFactor. fold m1 m2.
  set (b := basePriceQ product materials priceSettings).
  assert (Hb : ~ b == 0).
  { intros Hb. unfold b in Hb. rewrite Hb in Hpos. apply (Qlt_irrefl 0). exact Hpos. }
  field. exact Hb.
Qed.

Lemma effective_markup_is_compound_witness :
  let m1 := ruleValue markup (findProductType (N := number) chainProduct chainSettings) in
  let m2 := ruleValue markup (findFinishType (N := number) chainProduct chainSettings) in
  (m1 == 10 /\ m2 == 50) /\
  denotes (res_markup (calculateProductPrice (N := number) chainProduct chainMaterials chainSettings))
          (m1 + m2 + m1 * m2 / 100).
Proof.
  split; [split; reflexivity |].
  apply (effective_markup_is_compound chainProduct chainMaterials chainSettings).
  - discriminate.
  - vm_compute. reflexivity.
Defined.

(** X2: the order of the lines of the bill of materials does not matter:
    two products whose cards are permutations of each other, with the same
    type and finish references, get the same result. *)
Theorem bom_order_is_irrelevant (product product' : Product number)
    (materials : list (Material number)) (priceSettings : PriceSettings number) :
  techCardArr product' ≡ₚ techCardArr product ->
  product_type_id product' = product_type_id product ->
  finish_type_id product' = finish_type_id product ->
  result_eq (calculateProductPrice product materials priceSettings)
            (calculateProductPrice product' materials priceSettings).
Proof.
  intros Hperm Hpt Hft.
  destruct (techCardArr product) as [| it arr] eqn:Harr.
  - apply Permutation_nil_r in Hperm.
    unfold calculateProductPrice. rewrite Harr, Hperm. cbn [length Nat.eqb].
    repeat split; apply Qeq_refl.
  - apply result_eq_of_same_cost; try assumption.
    + rewrite Harr. discriminate.
    + intros E. rewrite E in Hperm. symmetry in Hperm.
      apply Permutation_nil_r in Hperm. discriminate.
    + rewrite Harr. unfold materialCostQ. apply sumQ_perm.
      apply fmap_Permutation. exact Hperm.
Qed.

Lemma bom_order_is_irrelevant_witness :
  result_eq (calculateProductPrice (productWithCard [boardLine; edgeLine]) twoMaterials chainSettings)
            (calculateProductPrice (productWithCard [edgeLine; boardLine]) twoMaterials
               chainSettings).
Proof.
  apply (bom_order_is_irrelevant (productWithCard [boardLine; edgeLine])
           (productWithCard [edgeLine; boardLine]) twoMaterials chainSettings).
  - apply perm_swap.
  - reflexivity.
  - reflexivity.
Defined.

Lemma materialCostQ_nonneg (materials : list (Material number))
    (arr : list (TechCardItem number)) :
  (forall it, In it arr -> num_le (lit 0) (quantity it)) ->
  (forall m, In m materials -> num_le (lit 0) (mat_price m)) ->
  0 <= materialCostQ materials arr.
Proof.
  intros Hq Hp. unfold materialCostQ.
  induction arr as [| it arr IH]; simpl; [lra |].
  assert (Hline : 0 <= lineValue materials it).
  { unfold lineValue. apply Qmult_le_0_compat.
    - specialize (Hq it (or_introl eq_refl)).
      destruct (quantity it); simpl in *; [exact Hq | tauto].
    - apply linePrice_nonneg. exact Hp. }
  assert (0 <= sumQ (map (lineValue materials) arr)).
  { apply IH. intros x Hx. apply Hq. right. exact Hx. }
  lra.
Qed.

Lemma markupFactor_ge_1 (r : option (PriceRule number)) :
  (forall x, r = Some x -> num_le (lit 0) (markup x)) -> 1 <= markupFactor r.
Proof.
  intros Hr. unfold markupFactor, ruleValue.
  destruct r as [x|].
  - specialize (Hr x eq_refl). destruct (markup x) as [m|]; simpl in *; [| tauto].
    change (inject_Z 0) with 0 in Hr.
    assert (0 <= m / 100) by (apply Qle_shift_div_l; lra).
    lra.
  - change (1 <= 1 + 0 / 100). discriminate.
Qed.

(** X3: prices never go down along the chain.  With non-negative
    quantities, material prices, labour cost and markups,
    [0 <= materialCost <= basePrice <= finalPrice]. *)
Theorem price_chain_is_increasing (product : Product number)
    (materials : list (Material number)) (priceSettings : PriceSettings number) :
  (forall it, In it (techCardArr product) -> num_le (lit 0) (quantity it)) ->
  (forall m, In m materials -> num_le (lit 0) (mat_price m)) ->
  (forall r, findProductType product priceSettings = Some r ->
             num_le (lit 0) (workCost r) /\ num_le (lit 0) (markup r)) ->
  (forall r, findFinishType product priceSettings = Some r -> num_le (lit 0) (markup r)) ->
  let r := calculateProductPrice product materials priceSettings in
  num_le (lit 0) (materialCost r) /\
  num_le (materialCost r) (basePrice r) /\
  num_le (basePrice r) (finalPrice r).
Proof.
  intros Hq Hp Hpt Hft r. subst r.
  destruct (techCardArr product) as [| it arr] eqn:Harr.
  - unfold calculateProductPrice. rewrite Harr. cbn. repeat split; discriminate.
  - destruct (calculateProductPrice_denotes product materials priceSettings)
      as (Hmc & _ & Hbase & Hfinal & _); [rewrite Harr; discriminate |].
    assert (Hcost : 0 <= materialCostQ materials (techCardArr product)).
    { rewrite Harr. apply materialCostQ_nonneg; assumption. }
    assert (Hwork : 0 <= ruleValue workCost (findProductType product priceSettings)).
    { unfold ruleValue. destruct (findProductType product priceSettings) as [x|] eqn:E; [| lra].
      destruct (Hpt x eq_refl) as [Hw _]. destruct (workCost x); simpl in *; [exact Hw | tauto]. }
    assert (Hf1 : 1 <= markupFactor (findProductType product priceSettings)).
    { apply markupFactor_ge_1. intros x Hx. apply (Hpt x Hx). }
    assert (Hf2 : 1 <= markupFactor (findFinishType product priceSettings)).
    { apply markupFactor_ge_1. exact Hft. }
    split; [| split].
    + eapply denotes_num_le; [apply (denotes_lit 0) | exact Hmc | exact Hcost].
    + eapply denotes_num_le; [exact Hmc | exact Hbase |]. unfold basePriceQ. lra.
    + eapply denotes_num_le; [exact Hbase | exact Hfinal |].
      unfold finalPriceQ.
      set (b := basePriceQ product materials priceSettings).
      assert (Hb : 0 <= b) by (unfold b, basePriceQ; lra).
      fold b. revert Hf1 Hf2.
      generalize (markupFactor (findProductType product priceSettings)) as f1.
      generalize (markupFactor (findFinishType product priceSettings)) as f2.
      intros f2 f1 Hf1 Hf2.
      assert (b <= b * f1) by nra.
      assert (b * f1 <= b * f1 * f2) by nra.
      lra.
Qed.

Lemma price_chain_is_increasing_witness :
  let r := calculateProductPrice (N := number) chainProduct chainMaterials chainSettings in
  num_le (lit 0) (materialCost r) /\
  num_le (materialCost r) (basePrice r) /\
  num_le (basePrice r) (finalPrice r).
Proof.
  apply (price_chain_is_increasing chainProduct chainMaterials chainSettings).
  - intros it [<- | []]. simpl. discriminate.
  - intros m [<- | []]. simpl. discriminate.
  - intros r Hr. vm_compute in Hr. injection Hr as <-. split; simpl; discriminate.
  - intros r Hr. vm_compute in Hr. injection Hr as <-. simpl. discriminate.
Defined.

Lemma find_never {A : Type} (f : A -> bool) (l : list A) :
  (forall x, In x l -> f x = false) -> find f l = None.
Proof.
  induction l as [| a l IH]; intros Hf; simpl; [reflexivity |].
  rewrite (Hf a (or_introl eq_refl)). apply IH. intros x Hx. apply Hf. right. exact Hx.
Qed.

(** X4: a product that refers to no type and no finish is priced at its
    material cost: no labour, base price and final price equal to the
    material cost. *)
Theorem untyped_product_sells_at_material_cost (product : Product number)
    (materials : list (Material number)) (priceSettings : PriceSettings number) :
  techCardArr product <> [] ->
  product_type_id product = None ->
  finish_type_id product = None ->
  let r := calculateProductPrice product materials priceSettings in
  denotes (res_workCost r) 0 /\
  num_eq (basePrice r) (materialCost r) /\
  num_eq (finalPrice r) (materialCost r).
Proof.
  intros Hne Hpt Hft r. subst r.
  assert (Ept : findProductType product priceSettings = None).
  { unfold findProductType. rewrite Hpt. apply find_never. intros x _. reflexivity. }
  assert (Eft : findFinishType product priceSettings = None).
  { unfold findFinishType. rewrite Hft. apply find_never. intros x _. reflexivity. }
  destruct (calculateProductPrice_denotes product materials priceSettings Hne)
    as (Hmc & Hwc & Hbase & Hfinal & _).
  rewrite Ept in Hwc. split; [exact Hwc |]. split.
  - eapply denotes_num_eq; [exact Hbase |]. eapply denotes_proper; [exact Hmc |].
    unfold basePriceQ. rewrite Ept. simpl. ring.
  - eapply denotes_num_eq; [exact Hfinal |]. eapply denotes_proper; [exact Hmc |].
    unfold finalPriceQ, basePriceQ, markupFactor. rewrite Ept, Eft. simpl. field.
Qed.

Lemma untyped_product_sells_at_material_cost_witness :
  let r := calculateProductPrice untypedProduct chainMaterials chainSettings in
  denotes (res_workCost r) 0 /\
  num_eq (basePrice r) (materialCost r) /\
  num_eq (finalPrice r) (materialCost r).
Proof.
  apply (untyped_product_sells_at_material_cost untypedProduct chainMaterials chainSettings).
  - discriminate.
  - reflexivity.
  - reflexivity.
Defined.

End PricingMore.

(** ** The pricing settings page *)

Section SettingsFacts.
Import Settings PricingExamples.

(** X5: [sanitizeNumber] clamps.  With finite bounds [lo <= hi] the result
    lies in [lo, hi]; NaN becomes [lo]; a value already in range is returned
    as it is; clamping twice is clamping once.  Without an upper bound the
    result is at least [lo]. *)
Theorem sanitizeNumber_clamps (n : number) (lo hi : Q) :
  lo <= hi ->
  let r := sanitizeNumber n (Num lo) (Some (Num hi)) in
  num_le (Num lo) r /\ num_le r (Num hi) /\
  (n = NaN -> r = Num lo) /\
  (forall x, n = Num x -> lo <= x -> x <= hi -> r = Num x) /\
  sanitizeNumber r (Num lo) (Some (Num hi)) = r /\
  num_le (Num lo) (sanitizeNumber n (Num lo) None).
Proof.
  intros Hle r. subst r. unfold sanitizeNumber, mathMin, mathMax.
  destruct n as [x|]; cbn [isNaN num_le].
  - destruct (Qlt_le_dec x lo) as [H1|H1].
    + destruct (Qlt_le_dec hi lo) as [H2|H2]; [exfalso; lra |].
      cbn [isNaN]. destruct (Qlt_le_dec lo lo) as [H3|H3]; [exfalso; lra |].
      destruct (Qlt_le_dec hi lo) as [H4|H4]; [exfalso; lra |].
      repeat split; try lra; try discriminate.
      intros y E. injection E as <-. intros. exfalso. lra.
    + destruct (Qlt_le_dec hi x) as [H2|H2]; cbn [isNaN].
      * destruct (Qlt_le_dec hi lo) as [H3|H3]; [exfalso; lra |].
        destruct (Qlt_le_dec hi hi) as [H4|H4]; [exfalso; lra |].
        repeat split; try lra; try discriminate.
        intros y E. injection E as <-. intros. exfalso. lra.
      * destruct (Qlt_le_dec x lo) as [H3|H3]; [exfalso; lra |].
        destruct (Qlt_le_dec hi x) as [H4|H4]; [exfalso; lra |].
        repeat split; try lra; try discriminate.
        intros y E. injection E as <-. reflexivity.
  - cbn [isNaN]. destruct (Qlt_le_dec lo lo) as [H3|H3]; [exfalso; lra |].
    destruct (Qlt_le_dec hi lo) as [H4|H4]; [exfalso; lra |].
    repeat split; try lra; try discriminate.
Qed.

Lemma sanitizeNumber_clamps_witness :
  let r := sanitizeNumber (Num 750) (Num 0) (Some (Num 500)) in
  num_le (Num 0) r /\ num_le r (Num 500) /\
  (Num 750 = NaN -> r = Num 0) /\
  (forall x, Num 750 = Num x -> 0 <= x -> x <= 500 -> r = Num x) /\
  sanitizeNumber r (Num 0) (Some (Num 500)) = r /\
  num_le (Num 0) (sanitizeNumber (Num 750) (Num 0) None).
Proof.
  apply (sanitizeNumber_clamps (Num 750) 0 500). discriminate.
Defined.

Lemma find_filter_other {N : Type} `{JsArith N} (id : string) (pid : option string)
    (l : list (PriceRule N)) :
  pid <> Some id ->
  find (fun p => idMatches (rule_id p) pid) (filter (fun t => rule_id t <> id) l)
  = find (fun p => idMatches (rule_id p) pid) l.
Proof.
  intros Hne. induction l as [| t l IH]; [reflexivity |].
  rewrite filter_cons. destruct (decide (rule_id t <> id)) as [Hkeep | Hdrop]; simpl.
  - rewrite IH. reflexivity.
  - rewrite IH.
    assert (Hid : rule_id t = id) by (destruct (decide (rule_id t = id)); [assumption | contradiction]).
    destruct pid as [x|]; simpl; [| reflexivity].
    destruct (String.eqb (rule_id t) x) eqn:E; [| reflexivity].
    apply String.eqb_eq in E. congruence.
Qed.

Lemma find_patch_other {N : Type} `{JsArith N} (id : string) (patch : RulePatch N)
    (pid : option string) (l : list (PriceRule N)) :
  pid <> Some id ->
  find (fun p => idMatches (rule_id p) pid)
       (map (fun t => if String.eqb (rule_id t) id then applyPatch t patch else t) l)
  = find (fun p => idMatches (rule_id p) pid) l.
Proof.
  intros Hne. induction l as [| t l IH]; [reflexivity |]. simpl.
  destruct (String.eqb (rule_id t) id) eqn:E.
  - cbn [applyPatch rule_id]. apply String.eqb_eq in E.
    assert (Hno : idMatches (rule_id t) pid = false).
    { destruct pid as [x|]; simpl; [| reflexivity]. apply String.eqb_neq. congruence. }
    rewrite Hno. exact IH.
  - rewrite IH. reflexivity.
Qed.

Lemma find_filter_same {N : Type} `{JsArith N} (id : string) (l : list (PriceRule N)) :
  find (fun p => idMatches (rule_id p) (Some id)) (filter (fun t => rule_id t <> id) l) = None.
Proof.
  apply find_never. intros x Hx. apply list_elem_of_In, list_elem_of_filter in Hx as [Hne _].
  simpl. apply String.eqb_neq. exact Hne.
Qed.

(** X6: edits of the product types are local, and a removed type leaves its
    products untyped.  Removing or patching the type [id] does not change the
    price of any product that refers to another type (or to none); after the
    removal a product that refers to [id] finds no rule, so it is priced
    without labour cost. *)
Theorem product_type_edits_are_local {N : Type} `{JsArith N}
    (id : string) (patch : RulePatch N) (product : Product N)
    (materials : list (Material N)) (priceSettings : PriceSettings N) :
  (product_type_id product <> Some id ->
     calculateProductPrice product materials (removePriceType id priceSettings)
       = calculateProductPrice product materials priceSettings /\
     calculateProductPrice product materials (patchPriceType id patch priceSettings)
       = calculateProductPrice product materials priceSettings) /\
  (product_type_id product = Some id ->
     findProductType product (removePriceType id priceSettings) = None /\
     (techCardArr product <> [] ->
        res_workCost (calculateProductPrice product materials (removePriceType id priceSettings))
          = lit 0)).
Proof.
  split.
  - intros Hne.
    assert (E1 : findProductType product (removePriceType id priceSettings)
                 = findProductType product priceSettings).
    { unfold findProductType, removePriceType. cbn [productTypes].
      apply find_filter_other. exact Hne. }
    assert (E2 : findProductType product (patchPriceType id patch priceSettings)
                 = findProductType product priceSettings).
    { unfold findProductType, patchPriceType. cbn [productTypes].
      apply find_patch_other. exact Hne. }
    unfold calculateProductPrice. rewrite E1, E2. split; reflexivity.
  - intros Hid.
    assert (E : findProductType product (removePriceType id priceSettings) = None).
    { unfold findProductType, removePriceType. cbn [productTypes]. rewrite Hid.
      apply find_filter_same. }
    split; [exact E |]. intros Hcard. unfold calculateProductPrice.
    destruct (techCardArr product) as [| it arr]; [contradiction |].
    cbn [length Nat.eqb res_workCost]. rewrite E. reflexivity.
Qed.

Lemma product_type_edits_are_local_witness :
  calculateProductPrice (N := number) untypedProduct chainMaterials
      (removePriceType "pt" chainSettings)
    = calculateProductPrice untypedProduct chainMaterials chainSettings /\
  res_workCost (calculateProductPrice (N := number) chainProduct chainMaterials
                  (removePriceType "pt" chainSettings)) = Num 0.
Proof.
  destruct (product_type_edits_are_local (N := number) "pt"
              {| patch_name := None; patch_markup := None; patch_workCost := None |}
              untypedProduct chainMaterials chainSettings) as [Hother _].
  destruct (product_type_edits_are_local (N := number) "pt"
              {| patch_name := None; patch_markup := None; patch_workCost := None |}
              chainProduct chainMaterials chainSettings) as [_ Hsame].
  split.
  - apply Hother. discriminate.
  - apply Hsame; [reflexivity | discriminate].
Defined.

End SettingsFacts.
